(** * 5e-items-importer: statblock parser and content detector

    A shallow embedding of [scripts/parser/monsterParser.js] and
    [scripts/parser/contentDetector.js] (together with the two consumers
    [contentParser._extractAbilityScores] and [actorBuilder._buildAbilities])
    and the properties of the natural-language specification that are
    settled against it, followed by further properties of the same code:
    of the line tagger, of the field extractors, of the block splitter and
    of the consumers of the parsed record.

    Conventions of the embedding.
    - A JavaScript string is a [string]; one [ascii] is one code unit, read
      as a code point below 256.  Inputs with code units above 255 are
      outside the model.
    - A JavaScript number is a [number]: an IEEE 754 binary64 value, with
      the language's division and the rounding of [parseInt].
    - Regular expressions are kept as the source writes them (a string and
      its flags), parsed into a syntax tree and run by a backtracking
      matcher that follows the ECMAScript matching rules.
    - An exception is a [Throw] of the [result] type. *)

From Stdlib Require Import PrimFloat.
From Stdlib Require Import Ascii String List Bool Arith Lia NArith ZArith.
From Stdlib Require FloatOps SpecFloat.
From stdpp Require Import base option list gmap strings.

Local Open Scope string_scope.
Local Open Scope list_scope.
Local Open Scope nat_scope.

(* ===================================================================== *)
(** ** Code units *)
(* ===================================================================== *)

Module Char.

Definition code (c : ascii) : nat := nat_of_ascii c.

Definition in_range (lo hi : nat) (c : ascii) : bool :=
  (lo <=? code c) && (code c <=? hi).

(** [\d] *)
Definition is_digit (c : ascii) : bool := in_range 48 57 c.

Definition is_upper (c : ascii) : bool := in_range 65 90 c.
Definition is_lower (c : ascii) : bool := in_range 97 122 c.

(** [\w] is [[A-Za-z0-9_]]. *)
Definition is_word (c : ascii) : bool :=
  is_digit c || is_upper c || is_lower c || (code c =? 95).

(** [\s], and the code units removed by [String.prototype.trim]: TAB, LF,
    VT, FF, CR, SPACE and NBSP are the ones below 256. *)
Definition is_space (c : ascii) : bool :=
  in_range 9 13 c || (code c =? 32) || (code c =? 160).

(** Line terminators below 256: LF and CR. *)
Definition is_line_terminator (c : ascii) : bool :=
  (code c =? 10) || (code c =? 13).

(** One-code-unit [toUpperCase] / [toLowerCase] on Latin-1.  The three
    Latin-1 letters whose upper case is not a single Latin-1 code unit
    (U+00B5, U+00DF, U+00FF) are left alone, which is also what the
    regular-expression [Canonicalize] operation needs: none of them
    becomes equal to another code unit below 256. *)
Definition to_upper (c : ascii) : ascii :=
  if is_lower c || (in_range 224 254 c && negb (code c =? 247))
  then ascii_of_nat (code c - 32) else c.

Definition to_lower (c : ascii) : ascii :=
  if is_upper c || (in_range 192 222 c && negb (code c =? 215))
  then ascii_of_nat (code c + 32) else c.

Definition eqb_ci (a b : ascii) : bool := Ascii.eqb (to_upper a) (to_upper b).

End Char.

(* ===================================================================== *)
(** ** String methods *)
(* ===================================================================== *)

Module JsString.

Definition chars (s : string) : list ascii := list_ascii_of_string s.
Definition of_chars (l : list ascii) : string := string_of_list_ascii l.

Fixpoint trimStart (s : string) : string :=
  match s with
  | String c s' => if Char.is_space c then trimStart s' else s
  | EmptyString => EmptyString
  end.

Fixpoint trimEnd (s : string) : string :=
  match s with
  | String c s' =>
      match trimEnd s' with
      | EmptyString => if Char.is_space c then EmptyString else String c EmptyString
      | t => String c t
      end
  | EmptyString => EmptyString
  end.

(** [s.trim()] *)
Definition trim (s : string) : string := trimEnd (trimStart s).

(** [s.toLowerCase()] / [s.toUpperCase()] *)
Fixpoint toLowerCase (s : string) : string :=
  match s with
  | String c s' => String (Char.to_lower c) (toLowerCase s')
  | EmptyString => EmptyString
  end.

(** [s.startsWith(p)] *)
Fixpoint startsWith (s p : string) : bool :=
  match p, s with
  | EmptyString, _ => true
  | String a p', String b s' => Ascii.eqb a b && startsWith s' p'
  | String _ _, EmptyString => false
  end.

(** [s.includes(p)] *)
Fixpoint includes (s p : string) : bool :=
  startsWith s p ||
  match s with
  | String _ s' => includes s' p
  | EmptyString => false
  end.

(** [s.split(sep)] for a non-empty separator.  [skip] counts the code
    units of a separator occurrence that are still to be dropped; [cur]
    is the piece being collected, most recent code unit first. *)
Fixpoint split_go (sep : string) (s : string) (skip : nat) (cur : list ascii)
  : list string :=
  match s with
  | EmptyString => [of_chars (rev cur)]
  | String c s' =>
      match skip with
      | S n => split_go sep s' n cur
      | O =>
          if startsWith s sep
          then of_chars (rev cur) :: split_go sep s' (String.length sep - 1) []
          else split_go sep s' 0 (c :: cur)
      end
  end.

Definition split (s sep : string) : list string := split_go sep s 0 [].

(** [arr.join(sep)] *)
Fixpoint join (sep : string) (l : list string) : string :=
  match l with
  | [] => ""
  | [x] => x
  | x :: tl => x ++ sep ++ join sep tl
  end.

End JsString.

(* ===================================================================== *)
(** ** Regular expressions *)
(* ===================================================================== *)

Module Regex.

Local Open Scope char_scope.

(** *** Syntax *)

(** Members of a character class [[...]]. *)
Inductive citem : Type :=
| CChar (c : ascii)
| CRange (lo hi : ascii)
| CDigit
| CWord
| CSpace.

(** Patterns.  A non-capturing group [(?:a)] is [a] itself; every
    quantifier ([*], [+], [?], [{n}], [{n,}], [{n,m}]) is an [RRep]; the
    sources use no lazy quantifier, look-around or back-reference. *)
Inductive re : Type :=
| RChar (c : ascii)
| RSet (neg : bool) (items : list citem)
| RDot
| RBol
| REol
| RWordB
| REmpty
| RSeq (a b : re)
| RAlt (a b : re)
| RGroup (n : nat) (a : re)
| RRep (a : re) (lo : nat) (hi : option nat).

(** *** Parser for the pattern text between the two slashes *)

Definition pstate : Type := nat * list (string * nat).

Fixpoint parse_nat (s : list ascii) (acc : nat) : nat * list ascii :=
  match s with
  | c :: tl =>
      if Char.is_digit c then parse_nat tl (10 * acc + (Char.code c - 48))
      else (acc, s)
  | [] => (acc, s)
  end.

Definition escape_item (e : ascii) : citem :=
  match e with
  | "d" => CDigit
  | "w" => CWord
  | "s" => CSpace
  | "n" => CChar "010"
  | "r" => CChar "013"
  | "t" => CChar "009"
  | _ => CChar e
  end.

Fixpoint parse_class (s : list ascii) (acc : list citem)
  : option (list citem * list ascii) :=
  match s with
  | [] => None
  | c :: tl =>
      match c with
      | "]" => Some (rev acc, tl)
      | "\" =>
          match tl with
          | e :: tl' => parse_class tl' (escape_item e :: acc)
          | [] => None
          end
      | _ =>
          match tl with
          | "-" :: tl1 =>
              match tl1 with
              | d :: tl2 =>
                  match d with
                  | "]" => parse_class tl (CChar c :: acc)
                  | "\" => None
                  | _ => parse_class tl2 (CRange c d :: acc)
                  end
              | [] => None
              end
          | _ => parse_class tl (CChar c :: acc)
          end
      end
  end.

Definition no_lazy (r : re) (s : list ascii) : option (re * list ascii) :=
  match s with
  | "?" :: _ => None
  | _ => Some (r, s)
  end.

Definition parse_quant (a : re) (s : list ascii) : option (re * list ascii) :=
  match s with
  | "*" :: tl => no_lazy (RRep a 0 None) tl
  | "+" :: tl => no_lazy (RRep a 1 None) tl
  | "?" :: tl => no_lazy (RRep a 0 (Some 1)) tl
  | "{" :: tl =>
      let '(lo, s1) := parse_nat tl 0 in
      match s1 with
      | "}" :: s2 => no_lazy (RRep a lo (Some lo)) s2
      | "," :: "}" :: s2 => no_lazy (RRep a lo None) s2
      | "," :: s2 =>
          let '(hi, s3) := parse_nat s2 0 in
          match s3 with
          | "}" :: s4 => no_lazy (RRep a lo (Some hi)) s4
          | _ => None
          end
      | _ => None
      end
  | _ => Some (a, s)
  end.

Fixpoint parse_name (s : list ascii) (acc : list ascii)
  : option (string * list ascii) :=
  match s with
  | [] => None
  | ">" :: tl => Some (JsString.of_chars (rev acc), tl)
  | c :: tl => parse_name tl (c :: acc)
  end.

Definition seq (a b : re) : re :=
  match b with
  | REmpty => a
  | _ => RSeq a b
  end.

(** Code units above 255 cannot occur in a modelled string, so an atom
    [\uXXXX] for such a code unit is the empty class. *)
Definition never : re := RSet false [].

Definition escape_atom (e : ascii) (tl : list ascii) : option (re * list ascii) :=
  match e with
  | "d" => Some (RSet false [CDigit], tl)
  | "w" => Some (RSet false [CWord], tl)
  | "s" => Some (RSet false [CSpace], tl)
  | "b" => Some (RWordB, tl)
  | "n" => Some (RChar "010", tl)
  | "r" => Some (RChar "013", tl)
  | "t" => Some (RChar "009", tl)
  | "u" =>
      match tl with
      | a :: b :: c :: d :: tl' =>
          if (Ascii.eqb a "0" && Ascii.eqb b "0")%bool then None else Some (never, tl')
      | _ => None
      end
  | _ => Some (RChar e, tl)
  end.

Fixpoint parse_alt (fuel : nat) (s : list ascii) (n : pstate)
  : option (re * list ascii * pstate) :=
  match fuel with
  | O => None
  | S f =>
      match parse_term f s n with
      | Some (t, "|" :: s1, n1) =>
          match parse_alt f s1 n1 with
          | Some (a, s2, n2) => Some (RAlt t a, s2, n2)
          | None => None
          end
      | other => other
      end
  end
with parse_term (fuel : nat) (s : list ascii) (n : pstate)
  : option (re * list ascii * pstate) :=
  match fuel with
  | O => None
  | S f =>
      match s with
      | [] => Some (REmpty, s, n)
      | ")" :: _ => Some (REmpty, s, n)
      | "|" :: _ => Some (REmpty, s, n)
      | _ =>
          match parse_atom f s n with
          | Some (a, s1, n1) =>
              match parse_quant a s1 with
              | Some (q, s2) =>
                  match parse_term f s2 n1 with
                  | Some (t, s3, n3) => Some (seq q t, s3, n3)
                  | None => None
                  end
              | None => None
              end
          | None => None
          end
      end
  end
with parse_atom (fuel : nat) (s : list ascii) (n : pstate)
  : option (re * list ascii * pstate) :=
  match fuel with
  | O => None
  | S f =>
      match s with
      | [] => None
      | "(" :: "?" :: ":" :: tl =>
          match parse_alt f tl n with
          | Some (a, ")" :: s1, n1) => Some (a, s1, n1)
          | _ => None
          end
      | "(" :: "?" :: "<" :: tl =>
          match parse_name tl [] with
          | Some (name, tl') =>
              match parse_alt f tl' (S (fst n), (name, fst n) :: snd n) with
              | Some (a, ")" :: s1, n1) => Some (RGroup (fst n) a, s1, n1)
              | _ => None
              end
          | None => None
          end
      | "(" :: "?" :: _ => None
      | "(" :: tl =>
          match parse_alt f tl (S (fst n), snd n) with
          | Some (a, ")" :: s1, n1) => Some (RGroup (fst n) a, s1, n1)
          | _ => None
          end
      | "[" :: "^" :: tl =>
          match parse_class tl [] with
          | Some (items, s1) => Some (RSet true items, s1, n)
          | None => None
          end
      | "[" :: tl =>
          match parse_class tl [] with
          | Some (items, s1) => Some (RSet false items, s1, n)
          | None => None
          end
      | "\" :: e :: tl =>
          match escape_atom e tl with
          | Some (a, s1) => Some (a, s1, n)
          | None => None
          end
      | "." :: tl => Some (RDot, tl, n)
      | "^" :: tl => Some (RBol, tl, n)
      | "$" :: tl => Some (REol, tl, n)
      | "*" :: _ | "+" :: _ | "?" :: _ | "{" :: _ | "}" :: _ | "]" :: _ | "\" :: _ => None
      | c :: tl => Some (RChar c, tl, n)
      end
  end.

Record flags : Type := { ignoreCase : bool; multiline : bool; global : bool }.

Definition parse_flags (f : string) : flags :=
  {| ignoreCase := JsString.includes f "i";
     multiline := JsString.includes f "m";
     global := JsString.includes f "g" |}.

(** A regular-expression object: the literal as the source writes it,
    and its parsed form. *)
Record regex : Type := {
  source : string;
  flagstr : string;
  ast : re;
  names : list (string * nat);
}.

Definition compile (src fl : string) : option regex :=
  let s := JsString.chars src in
  match parse_alt (4 * length s + 8) s (1, []) with
  | Some (a, [], (_, nm)) =>
      Some {| source := src; flagstr := fl; ast := a; names := nm |}
  | _ => None
  end.

(** [rx src fl] is the object for the literal [/src/fl]. *)
Definition rx (src fl : string) : regex :=
  match compile src fl with
  | Some r => r
  | None => {| source := src; flagstr := fl; ast := never; names := [] |}
  end.

Definition rflags (r : regex) : flags := parse_flags (flagstr r).


(** *** Matcher

    The matcher is the continuation-passing backtracking matcher of the
    ECMAScript specification.  A state holds the code unit before the
    current position ([None] at the start of the input), the input that
    is left and the captures made so far. *)

Record mstate : Type := MState {
  prev : option ascii;
  rest : list ascii;
  caps : gmap nat (list ascii);
}.

Definition cont : Type := mstate → option mstate.

Definition item_mem (i : citem) (c : ascii) : bool :=
  match i with
  | CChar a => Ascii.eqb a c
  | CRange lo hi =>
      ((Char.code lo <=? Char.code c) && (Char.code c <=? Char.code hi))%nat
  | CDigit => Char.is_digit c
  | CWord => Char.is_word c
  | CSpace => Char.is_space c
  end.

Definition class_mem (items : list citem) (c : ascii) : bool :=
  existsb (λ i, item_mem i c) items.

(** With the [i] flag a code unit is in a class when some member has the
    same canonical (upper-case) form. *)
Definition set_mem (ic neg : bool) (items : list citem) (c : ascii) : bool :=
  xorb neg
    (if ic
     then class_mem items (Char.to_upper c)
          || class_mem items (Char.to_lower (Char.to_upper c))
     else class_mem items c).

Definition chr_mem (ic : bool) (a c : ascii) : bool :=
  if ic then Char.eqb_ci a c else Ascii.eqb a c.

Definition is_word_opt (o : option ascii) : bool :=
  match o with
  | Some c => Char.is_word c
  | None => false
  end.

Definition is_lt_opt (o : option ascii) : bool :=
  match o with
  | Some c => Char.is_line_terminator c
  | None => false
  end.

Definition at_bol (ml : bool) (st : mstate) : bool :=
  match prev st with
  | None => true
  | Some c => ml && Char.is_line_terminator c
  end.

Definition at_eol (ml : bool) (st : mstate) : bool :=
  match rest st with
  | [] => true
  | c :: _ => ml && Char.is_line_terminator c
  end.

Definition at_word_boundary (st : mstate) : bool :=
  xorb (is_word_opt (prev st)) (is_word_opt (head (rest st))).

Definition step_char (p : ascii → bool) (k : cont) (st : mstate) : option mstate :=
  match rest st with
  | c :: tl => if p c then k (MState (Some c) tl (caps st)) else None
  | [] => None
  end.

(** The text consumed between two states of one run. *)
Definition consumed (st st' : mstate) : list ascii :=
  take (length (rest st) - length (rest st')) (rest st).

Definition set_cap (n : nat) (w : list ascii) (st : mstate) : mstate :=
  MState (prev st) (rest st) (<[n := w]> (caps st)).

Fixpoint groups (r : re) : list nat :=
  match r with
  | RSeq a b | RAlt a b => groups a ++ groups b
  | RGroup n a => n :: groups a
  | RRep a _ _ => groups a
  | _ => []
  end.

(** Each iteration of a quantifier starts with the captures of the
    groups inside it reset. *)
Definition clear_caps (gs : list nat) (st : mstate) : mstate :=
  MState (prev st) (rest st) (foldr delete (caps st) gs).

(** The [lo] mandatory iterations of a quantifier. *)
Fixpoint rep_lo (step : cont → cont) (n : nat) (k : cont) : cont :=
  match n with
  | O => k
  | S n' => step (rep_lo step n' k)
  end.

(** The optional iterations, greedy: at most [n] more, each of which has
    to consume input (an iteration that matches the empty string is
    rejected once the mandatory ones are done). *)
Fixpoint rep_hi (step : cont → cont) (n : nat) (k : cont) (st : mstate)
  : option mstate :=
  match n with
  | O => k st
  | S n' =>
      match step (λ st', if (length (rest st') <? length (rest st))%nat
                         then rep_hi step n' k st' else None) st with
      | Some x => Some x
      | None => k st
      end
  end.

Section Matcher.
Variables ic ml : bool.

Fixpoint m (r : re) (k : cont) (st : mstate) {struct r} : option mstate :=
  match r with
  | RChar a => step_char (chr_mem ic a) k st
  | RSet neg items => step_char (set_mem ic neg items) k st
  | RDot => step_char (λ c, negb (Char.is_line_terminator c)) k st
  | RBol => if at_bol ml st then k st else None
  | REol => if at_eol ml st then k st else None
  | RWordB => if at_word_boundary st then k st else None
  | REmpty => k st
  | RSeq a b => m a (m b k) st
  | RAlt a b =>
      match m a k st with
      | Some x => Some x
      | None => m b k st
      end
  | RGroup n a => m a (λ st', k (set_cap n (consumed st st') st')) st
  | RRep a lo hi =>
      let step := λ k' st', m a k' (clear_caps (groups a) st') in
      rep_lo step lo
        (λ st1, rep_hi step
                  (match hi with
                   | Some h => h - lo
                   | None => length (rest st1)
                   end) k st1) st
  end.

(** Leftmost match: try every start position in turn. *)
Fixpoint search (r : re) (p : option ascii) (s : list ascii) (i : nat)
  : option (nat * mstate) :=
  match m r Some (MState p s ∅) with
  | Some st => Some (i, st)
  | None =>
      match s with
      | [] => None
      | c :: tl => search r (Some c) tl (S i)
      end
  end.
End Matcher.

(** *** Match results *)

(** The array a successful [exec] or [match] returns: [whole] is element
    0, [group n] is element [n] ([None] is [undefined]). *)
Record jsmatch : Type := {
  index : nat;
  whole : string;
  mgroups : gmap nat string;
}.

Definition group (mt : jsmatch) (n : nat) : option string := mgroups mt !! n.

Definition mk_match (i : nat) (s : list ascii) (st : mstate) : jsmatch :=
  {| index := i;
     whole := JsString.of_chars (take (length s - i - length (rest st)) (drop i s));
     mgroups := JsString.of_chars <$> caps st |}.

(** [RegExpBuiltinExec] from position [from].  For an object without the
    [g] flag the callers pass 0: such an object neither reads nor writes
    its [lastIndex]. *)
Definition exec_from (r : regex) (from : nat) (s : string) : option jsmatch :=
  let l := JsString.chars s in
  if (length l <? from)%nat then None else
  match search (ignoreCase (rflags r)) (multiline (rflags r)) (ast r)
          (last (take from l)) (drop from l) from with
  | Some (i, st) => Some (mk_match i l st)
  | None => None
  end.

(** [s.match(r)] and [r.exec(s)] for [r] without the [g] flag. *)
Definition exec (r : regex) (s : string) : option jsmatch := exec_from r 0 s.


(** [r.test(s)] for [r] without the [g] flag. *)
Definition test (r : regex) (s : string) : bool :=
  match exec r s with
  | Some _ => true
  | None => false
  end.


(** [s.replace(r, f)], where [f] computes the replacement text of one
    match (the sources use the templates ["$<header> "] and plain
    strings).

    For an object with the [g] flag every match is replaced: the search
    restarts at the end of the previous match, one code unit further
    after an empty match.  [skip] counts the code units of the current
    match that are still to be dropped. *)
Fixpoint replace_go (ic ml : bool) (r : re) (f : jsmatch → string)
    (p : option ascii) (s : list ascii) (i skip : nat) : list ascii :=
  let try_here :=
    match m ic ml r Some (MState p s ∅) with
    | Some st =>
        let len := (length s - length (rest st))%nat in
        Some (len,
              JsString.chars
                (f {| index := i;
                      whole := JsString.of_chars (take len s);
                      mgroups := JsString.of_chars <$> caps st |}))
    | None => None
    end in
  match s with
  | [] =>
      match skip, try_here with
      | O, Some (_, out) => out
      | _, _ => []
      end
  | c :: tl =>
      match skip with
      | S n => replace_go ic ml r f (Some c) tl (S i) n
      | O =>
          match try_here with
          | Some (O, out) => out ++ c :: replace_go ic ml r f (Some c) tl (S i) 0
          | Some (S n, out) => out ++ replace_go ic ml r f (Some c) tl (S i) n
          | None => c :: replace_go ic ml r f (Some c) tl (S i) 0
          end
      end
  end.

(** The replacement itself, and the value of [lastIndex] afterwards as a
    function of its value [li] before.  With the [g] flag the method
    first sets [lastIndex] to 0 and leaves it at 0 (the last, failing,
    search resets it); without it [lastIndex] is neither read nor
    written and only the first match is replaced. *)
Definition replace (r : regex) (li : nat) (s : string) (f : jsmatch → string)
  : string * nat :=
  if global (rflags r) then
    (JsString.of_chars
       (replace_go (ignoreCase (rflags r)) (multiline (rflags r)) (ast r) f
          None (JsString.chars s) 0 0), 0)
  else
    (match exec r s with
     | Some mt =>
         let l := JsString.chars s in
         JsString.of_chars
           (take (index mt) l ++ JsString.chars (f mt)
            ++ drop (index mt + String.length (whole mt)) l)
     | None => s
     end, li).

(** The capture of a named group, for the template [$<name>]; a group
    that did not take part contributes the empty string. *)
Definition named (r : regex) (mt : jsmatch) (nm : string) : string :=
  match List.find (λ p, String.eqb (fst p) nm) (names r) with
  | Some (_, n) => default ""%string (group mt n)
  | None => ""%string
  end.

End Regex.

(* ===================================================================== *)
(** ** Numbers and exceptions *)
(* ===================================================================== *)

(** A number is an IEEE 754 binary64 value, as in the language: the
    kernel's primitive floating-point numbers. *)
Abbreviation number := float (only parsing).

Module JsNumber.

(** The Number value of a natural number: the double nearest to it, ties
    to even, and [Infinity] when it is too large (every natural number
    below [2^53] is a double). *)
Definition of_N (n : N) : number :=
  FloatOps.SF2Prim
    (SpecFloat.binary_normalize FloatOps.prec FloatOps.emax (Z.of_N n) 0 false).

(** [a / b] *)
Definition div (a b : number) : number := (a / b)%float.

(** [-a] *)
Definition neg (a : number) : number := (- a)%float.

(** A value is falsy in [a || b] when it is 0 (of either sign) or NaN. *)
Definition truthy (a : number) : bool := negb (is_zero a || is_nan a).

Local Open Scope N_scope.

Definition digit_val (c : ascii) : N := N.of_nat (Char.code c - 48).

Fixpoint digits (s : string) (acc : N) (seen : bool) : option N :=
  match s with
  | String c s' =>
      if Char.is_digit c then digits s' (10 * acc + digit_val c) true
      else if seen then Some acc else None
  | EmptyString => if seen then Some acc else None
  end.

Definition hex_val (c : ascii) : option N :=
  if Char.is_digit c then Some (N.of_nat (Char.code c - 48))
  else if Char.in_range 65 70 c then Some (N.of_nat (Char.code c - 55))
  else if Char.in_range 97 102 c then Some (N.of_nat (Char.code c - 87))
  else None.

Fixpoint hex_digits (s : string) (acc : N) (seen : bool) : option N :=
  match s with
  | String c s' =>
      match hex_val c with
      | Some v => hex_digits s' (16 * acc + v) true
      | None => if seen then Some acc else None
      end
  | EmptyString => if seen then Some acc else None
  end.

Definition unsigned (s : string) : option N :=
  match s with
  | String "0"%char (String x s') =>
      if (Ascii.eqb x "x"%char || Ascii.eqb x "X"%char)%bool then hex_digits s' 0 false
      else digits s 0 false
  | _ => digits s 0 false
  end.

Definition of_opt (sign : bool) (o : option N) : number :=
  match o with
  | Some n => if sign then neg (of_N n) else of_N n
  | None => nan
  end.

(** [parseInt(s)] with no radix argument: leading white space, an
    optional sign, then the longest prefix of digits (hexadecimal after
    [0x]); NaN when there is no digit.  The result is the Number value of
    the integer the digits denote, with the sign applied (so [-0] for
    ["-0"]); the licence the standard gives an implementation to read
    the decimal digits after the twentieth as zeros is not taken. *)
Definition parseInt_string (s : string) : number :=
  match JsString.trimStart s with
  | String "-"%char s' => of_opt true (unsigned s')
  | String "+"%char s' => of_opt false (unsigned s')
  | s' => of_opt false (unsigned s')
  end.

(** [parseInt(undefined)] is NaN. *)
Definition parseInt (o : option string) : number :=
  match o with
  | Some s => parseInt_string s
  | None => nan
  end.

End JsNumber.

Inductive error : Type :=
| Error (msg : string)
| TypeError (msg : string).

Inductive result (A : Type) : Type :=
| Ok (a : A)
| Throw (e : error).
Arguments Ok {A} a.
Arguments Throw {A} e.

#[global] Instance result_ret : MRet result := λ A a, Ok a.
#[global] Instance result_bind : MBind result := λ A B f x,
  match x with
  | Ok a => f a
  | Throw e => Throw e
  end.

(** A method call on a value that may be [undefined]. *)
Definition defined (o : option string) : result string :=
  match o with
  | Some s => Ok s
  | None => Throw (TypeError "Cannot read properties of undefined")
  end.

Definition nl : string := String "010" "".

(* ===================================================================== *)
(** ** monsterParser.js *)
(* ===================================================================== *)

Module Block.
Record t : Type := { id : string; name : string; top : bool }.
End Block.

Module TaggedLine.
(** One element of a block's buffer: [{ lineNumber, line }]. *)
Record t : Type := { lineNumber : nat; line : string }.
End TaggedLine.

Module ValueFormula.
(** [{ value, formula }] of armor class and hit points. *)
Record t : Type := { value : number; formula : string }.
End ValueFormula.

Module Speed.
Record t : Type := { type : string; value : number }.
End Speed.

Module Save.
Record t : Type := { ability : string; bonus : number }.
End Save.

Module Skill.
Record t : Type := { name : string; bonus : number }.
End Skill.

Module Sense.
(** [{ type, range }] or [{ type, special: true }]. *)
Inductive t : Type :=
| Ranged (type : string) (range : number)
| Special (type : string).
End Sense.

Module Challenge.
Record t : Type := { cr : number; xp : number }.
End Challenge.

Module NamedEntry.
Record t : Type := { name : string; description : string }.
End NamedEntry.

Module MonsterData.
Record t : Type := {
  name : string;
  type : string;
  size : string;
  alignment : string;
  ac : ValueFormula.t;
  hp : ValueFormula.t;
  speed : list Speed.t;
  abilities : gmap string number;
  savingThrows : list Save.t;
  skills : list Skill.t;
  damageVulnerabilities : list string;
  damageResistances : list string;
  damageImmunities : list string;
  conditionImmunities : list string;
  senses : list Sense.t;
  languages : list string;
  challenge : Challenge.t;
  features : list NamedEntry.t;
  actions : list NamedEntry.t;
  bonusActions : list NamedEntry.t;
  reactions : list NamedEntry.t;
  legendaryActions : list NamedEntry.t;
  lairActions : list NamedEntry.t;
  mythicActions : list NamedEntry.t;
  villainActions : list NamedEntry.t;
  otherInfo : list string;
}.
End MonsterData.

(** The static state that outlives a call.  Of the two modules it is the
    [lastIndex] property of the regular-expression objects that are
    created once and carry the [g] flag; there is one,
    [#regex.removeNewLines].  [spbiUtils] is the state, of a type [U]
    that is left open, of the module [spbiUtils.js], which is not part of
    the sources at hand. *)
Record store (U : Type) : Type := {
  removeNewLines_lastIndex : nat;
  spbiUtils : U;
}.
Arguments removeNewLines_lastIndex {U} _.
Arguments spbiUtils {U} _.

Module monsterParser.

Definition mkBlock (id name : string) (top : bool) : string * Block.t :=
  (id, {| Block.id := id; Block.name := name; Block.top := top |}).

(** [static Blocks], in the order of its keys.  A block written without
    [top] has [top] undefined, which is falsy. *)
Definition Blocks : list (string * Block.t) := [
  mkBlock "abilities" "Abilities" true;
  mkBlock "actions" "Actions" false;
  mkBlock "armor" "Armor" true;
  mkBlock "bonusActions" "Bonus Actions" false;
  mkBlock "challenge" "Challenge" true;
  mkBlock "conditionImmunities" "Condition Immunities" true;
  mkBlock "damageImmunities" "Damage Immunities" true;
  mkBlock "immunities2024" "Immunities (2024)" true;
  mkBlock "damageResistances" "Damage Resistances" true;
  mkBlock "damageVulnerabilities" "Damage Vulnerabilities" true;
  mkBlock "features" "Features" false;
  mkBlock "gear" "Gear" true;
  mkBlock "health" "Health" true;
  mkBlock "initiative" "Initiative" true;
  mkBlock "lairActions" "Lair Actions" false;
  mkBlock "languages" "Languages" true;
  mkBlock "legendaryActions" "Legendary Actions" false;
  mkBlock "mythicActions" "Mythic Actions" false;
  mkBlock "name" "Name" false;
  mkBlock "proficiencyBonus" "Proficiency Bonus" true;
  mkBlock "racialDetails" "Racial Details" true;
  mkBlock "reactions" "Reactions" false;
  mkBlock "savingThrows" "Saving Throws" true;
  mkBlock "senses" "Senses" true;
  mkBlock "skills" "Skills" true;
  mkBlock "souls" "Souls" true;
  mkBlock "speed" "Speed" true;
  mkBlock "traits" "Traits" false;
  mkBlock "utilitySpells" "Utility Spells" false;
  mkBlock "villainActions" "Villain Actions" false;
  mkBlock "otherBlock" "Other (Bio)" false
].

(** [this.Blocks[key]?.top] *)
Definition Blocks_top (key : string) : bool :=
  match List.find (λ p, String.eqb (fst p) key) Blocks with
  | Some (_, b) => Block.top b
  | None => false
  end.

(** [static #regex] *)
Module regex.
Definition racialDetails : Regex.regex := Eval vm_compute in Regex.rx
  "^(tiny|small|medium|large|huge|gargantuan)\s+(aberration|beast|celestial|construct|dragon|elemental|fey|fiend|giant|humanoid|monstrosity|ooze|plant|undead)(\s*\(([^\)]+)\))?\s*,\s*(lawful good|neutral good|chaotic good|lawful neutral|neutral|chaotic neutral|lawful evil|neutral evil|chaotic evil|unaligned|any alignment|any non-good alignment|any non-lawful alignment|any chaotic alignment)" "i".
Definition armor : Regex.regex := Eval vm_compute in Regex.rx
  "^armor\s+class\s+(\d+)(?:\s+\(([^\)]+)\))?" "i".
Definition health : Regex.regex := Eval vm_compute in Regex.rx
  "^hit\s+points\s+(\d+)\s*\(([^\)]+)\)" "i".
Definition speed : Regex.regex := Eval vm_compute in Regex.rx
  "^speed\s+(.+)" "i".
Definition abilities : Regex.regex := Eval vm_compute in Regex.rx
  "^(str|dex|con|int|wis|cha)\s+(\d+)\s*\(([-+]\d+)\)" "i".
Definition savingThrows : Regex.regex := Eval vm_compute in Regex.rx
  "^saving\s+throws\s+(.+)" "i".
Definition skills : Regex.regex := Eval vm_compute in Regex.rx
  "^skills\s+(.+)" "i".
Definition damageVulnerabilities : Regex.regex := Eval vm_compute in Regex.rx
  "^damage\s+vulnerabilities\s+(.+)" "i".
Definition damageResistances : Regex.regex := Eval vm_compute in Regex.rx
  "^damage\s+resistances\s+(.+)" "i".
Definition damageImmunities : Regex.regex := Eval vm_compute in Regex.rx
  "^damage\s+immunities\s+(.+)" "i".
Definition conditionImmunities : Regex.regex := Eval vm_compute in Regex.rx
  "^condition\s+immunities\s+(.+)" "i".
Definition immunities2024 : Regex.regex := Eval vm_compute in Regex.rx
  "^immunities\s+(.+)" "i".
Definition senses : Regex.regex := Eval vm_compute in Regex.rx
  "^senses\s+(.+)" "i".
Definition languages : Regex.regex := Eval vm_compute in Regex.rx
  "^languages\s+(.+)" "i".
Definition challenge : Regex.regex := Eval vm_compute in Regex.rx
  "^challenge\s+(\d+\/\d+|\d+)\s*\(([^\)]+)\s*\)" "i".
Definition actions : Regex.regex := Eval vm_compute in Regex.rx
  "^actions$" "i".
Definition bonusActions : Regex.regex := Eval vm_compute in Regex.rx
  "^bonus\s+actions$" "i".
Definition reactions : Regex.regex := Eval vm_compute in Regex.rx
  "^reactions$" "i".
Definition legendaryActions : Regex.regex := Eval vm_compute in Regex.rx
  "^legendary\s+actions$" "i".
Definition lairActions : Regex.regex := Eval vm_compute in Regex.rx
  "^lair\s+actions$" "i".
Definition mythicActions : Regex.regex := Eval vm_compute in Regex.rx
  "^mythic\s+actions$" "i".
Definition villainActions : Regex.regex := Eval vm_compute in Regex.rx
  "^villain\s+actions$" "i".
Definition blockTitle : Regex.regex := Eval vm_compute in Regex.rx
  "^([A-Z][\w\s]+)\." "".
Definition otherBlock : Regex.regex := Eval vm_compute in Regex.rx
  "^([A-Z][\w\s]{0,30})\." "".
Definition removeNewLines : Regex.regex := Eval vm_compute in Regex.rx
  "(?<header>Hit Points|Armor Class|Speed|Saving Throws|Skills|Damage Vulnerabilities|Damage Resistances|Damage Immunities|Condition Immunities|Immunities|Senses|Languages|Challenge)\s*\n" "g".

(** Property access [this.#regex[b]]. *)
Definition table : list (string * Regex.regex) := [
  ("racialDetails", racialDetails); ("armor", armor); ("health", health);
  ("speed", speed); ("abilities", abilities);
  ("savingThrows", savingThrows); ("skills", skills);
  ("damageVulnerabilities", damageVulnerabilities);
  ("damageResistances", damageResistances);
  ("damageImmunities", damageImmunities);
  ("conditionImmunities", conditionImmunities);
  ("immunities2024", immunities2024);
  ("senses", senses); ("languages", languages); ("challenge", challenge);
  ("actions", actions); ("bonusActions", bonusActions);
  ("reactions", reactions); ("legendaryActions", legendaryActions);
  ("lairActions", lairActions); ("mythicActions", mythicActions);
  ("villainActions", villainActions);
  ("blockTitle", blockTitle); ("otherBlock", otherBlock);
  ("removeNewLines", removeNewLines)
].

Definition get (b : string) : option Regex.regex :=
  snd <$> List.find (λ p, String.eqb (fst p) b) table.

(** The regular expressions written inside the extractors. *)
Definition speedType : Regex.regex := Eval vm_compute in Regex.rx
  "^(?:(\w+)\s+)?([\d]+)\s*(?:ft\.?|feet)?$" "i".
Definition saveType : Regex.regex := Eval vm_compute in Regex.rx
  "^(\w{3})\s+([+-]\d+)$" "i".
Definition skillType : Regex.regex := Eval vm_compute in Regex.rx
  "^([\w\s]+)\s+([+-]\d+)$" "i".
Definition senseType : Regex.regex := Eval vm_compute in Regex.rx
  "^([\w\s]+)\s+([\d]+)\s*(?:ft\.?|feet)?$" "i".
Definition xp : Regex.regex := Eval vm_compute in Regex.rx
  "(\d+(?:,\d+)*)" "".
Definition comma : Regex.regex := Eval vm_compute in Regex.rx
  "," "g".
Definition title : Regex.regex := Eval vm_compute in Regex.rx
  "^([^.]+)\.(.*)" "i".
End regex.

(** *** Line tagging *)

(** [blocks] is the [Map] from block id to the lines tagged with it.  The
    code uses it through [get], [has], [set] and the set of its keys, so
    its insertion order is not modelled. *)
Record tagger : Type := {
  blocks : gmap string (list TaggedLine.t);
  currentBlockId : option string;
  foundTopBlock : bool;
  foundAbilityLine : bool;
}.

Definition _getFirstMatch (line : string) (excludeIds : gset string)
  : option string :=
  List.find
    (λ b, if bool_decide (b ∈ excludeIds) then false
          else match regex.get b with
               | None => false
               | Some r => Regex.test r line
               end)
    (List.filter
       (λ b, negb (bool_decide (b ∈ ["name"; "features"; "otherBlock"])))
       (map fst Blocks)).

(** [if (!blocks.has(id)) blocks.set(id, [])] *)
Definition ensure (id : string) (bl : gmap string (list TaggedLine.t))
  : gmap string (list TaggedLine.t) :=
  match bl !! id with
  | Some _ => bl
  | None => <[id := []]> bl
  end.

(** [if (blocks.has(id)) blocks.get(id).push(e)]; [id] may be [null]. *)
Definition push (id : option string) (e : TaggedLine.t)
    (bl : gmap string (list TaggedLine.t)) : gmap string (list TaggedLine.t) :=
  match id with
  | Some k =>
      match bl !! k with
      | Some l => <[k := l ++ [e]]> bl
      | None => bl
      end
  | None => bl
  end.

(** One iteration of the loop of [_parseIntoBlocks], on [lines[i]]. *)
Definition tag_line (st : tagger) (i : nat) (raw : string) : tagger :=
  let line := JsString.trim raw in
  if String.eqb line "" then st
  else if JsString.startsWith line "*" then st
  else
    let mtch := _getFirstMatch line (dom (blocks st)) in
    let matched := bool_decide (is_Some mtch) in
    (* Handle features block *)
    let st :=
      if negb matched && foundTopBlock st && Regex.test regex.blockTitle line
      then {| blocks := <["features" := []]> (blocks st);
              currentBlockId := Some "features";
              foundTopBlock := false;
              foundAbilityLine := foundAbilityLine st |}
      else st in
    (* Handle other blocks *)
    let st :=
      if negb matched && negb (foundAbilityLine st)
         && Regex.test regex.otherBlock line
      then {| blocks := ensure "otherBlock" (blocks st);
              currentBlockId := Some "otherBlock";
              foundTopBlock := false;
              foundAbilityLine := foundAbilityLine st |}
      else st in
    let st :=
      match mtch with
      | Some b => {| blocks := blocks st;
                     currentBlockId := currentBlockId st;
                     foundTopBlock := Blocks_top b;
                     foundAbilityLine := foundAbilityLine st |}
      | None => st
      end in
    (* Turn off foundAbilityLine when we hit the next block *)
    let st :=
      match mtch with
      | Some b =>
          if foundAbilityLine st && negb (String.eqb b "abilities")
          then {| blocks := blocks st;
                  currentBlockId := currentBlockId st;
                  foundTopBlock := foundTopBlock st;
                  foundAbilityLine := false |}
          else st
      | None => st
      end in
    let st :=
      match mtch with
      | Some b =>
          if negb (foundAbilityLine st)
          then {| blocks := ensure b (blocks st);
                  currentBlockId := Some b;
                  foundTopBlock := foundTopBlock st;
                  foundAbilityLine := String.eqb b "abilities" |}
          else st
      | None => st
      end in
    {| blocks := push (currentBlockId st)
                   {| TaggedLine.lineNumber := i; TaggedLine.line := line |}
                   (blocks st);
       currentBlockId := currentBlockId st;
       foundTopBlock := foundTopBlock st;
       foundAbilityLine := foundAbilityLine st |}.

Definition tagger_init : tagger :=
  {| blocks := ∅; currentBlockId := None;
     foundTopBlock := true; foundAbilityLine := false |}.

(** The loop from index [i] on. *)
Fixpoint tag_lines (st : tagger) (i : nat) (lines : list string) : tagger :=
  match lines with
  | [] => st
  | l :: tl => tag_lines (tag_line st i l) (S i) tl
  end.

Definition _parseIntoBlocks (lines : list string)
  : gmap string (list TaggedLine.t) :=
  blocks (tag_lines tagger_init 0 lines).


(** *** Field extractors *)

Abbreviation block_map := (gmap string (list TaggedLine.t)).

(** [const b = blocks.get(id); if (!b || !b.length) return d;] followed
    by [const match = b[0].line.match(r); if (!match) return d;]. *)
Definition first_match {A : Type} (bl : block_map) (id : string)
    (r : Regex.regex) (d : A) (f : Regex.jsmatch → result A) : result A :=
  match bl !! id with
  | Some (e :: _) =>
      match Regex.exec r (TaggedLine.line e) with
      | Some mt => f mt
      | None => Ok d
      end
  | _ => Ok d
  end.

Definition _extractType (bl : block_map) : result string :=
  first_match bl "racialDetails" regex.racialDetails ""
    (λ mt, t ← defined (Regex.group mt 2); mret (JsString.toLowerCase t)).

Definition _extractSize (bl : block_map) : result string :=
  first_match bl "racialDetails" regex.racialDetails ""
    (λ mt, t ← defined (Regex.group mt 1); mret (JsString.toLowerCase t)).

Definition _extractAlignment (bl : block_map) : result string :=
  first_match bl "racialDetails" regex.racialDetails ""
    (λ mt, t ← defined (Regex.group mt 5); mret (JsString.toLowerCase t)).

(** [match[2] || ""] *)
Definition or_empty (o : option string) : string := default "" o.

Definition _extractAC (bl : block_map) : result ValueFormula.t :=
  first_match bl "armor" regex.armor
    {| ValueFormula.value := 10%float; ValueFormula.formula := "" |}
    (λ mt, mret {| ValueFormula.value := JsNumber.parseInt (Regex.group mt 1);
                   ValueFormula.formula := or_empty (Regex.group mt 2) |}).

Definition _extractHP (bl : block_map) : result ValueFormula.t :=
  first_match bl "health" regex.health
    {| ValueFormula.value := 0%float; ValueFormula.formula := "" |}
    (λ mt, mret {| ValueFormula.value := JsNumber.parseInt (Regex.group mt 1);
                   ValueFormula.formula := or_empty (Regex.group mt 2) |}).

(** [text.split(",").map(s => s.trim())] *)
Definition comma_items (text : string) : list string :=
  map JsString.trim (JsString.split text ",").

Definition _extractSpeed (bl : block_map) : result (list Speed.t) :=
  first_match bl "speed" regex.speed []
    (λ mt,
       speedText ← defined (Regex.group mt 1);
       mret (omap
               (λ speedType,
                  match Regex.exec regex.speedType speedType with
                  | Some typeMatch =>
                      Some {| Speed.type :=
                                match Regex.group typeMatch 1 with
                                | Some t =>
                                    if String.eqb t "" then "walk"
                                    else JsString.toLowerCase t
                                | None => "walk"
                                end;
                              Speed.value := JsNumber.parseInt (Regex.group typeMatch 2) |}
                  | None => None
                  end)
               (comma_items speedText))).

(** The loop of [_extractAbilities]: [abilityScores[abilityType] = score]
    for every line of the block that matches. *)
Fixpoint abilities_loop (ls : list TaggedLine.t) (abilityScores : gmap string number)
  : result (gmap string number) :=
  match ls with
  | [] => Ok abilityScores
  | ability :: tl =>
      match Regex.exec regex.abilities (TaggedLine.line ability) with
      | Some mt =>
          t ← defined (Regex.group mt 1);
          abilities_loop tl
            (<[JsString.toLowerCase t := JsNumber.parseInt (Regex.group mt 2)]>
               abilityScores)
      | None => abilities_loop tl abilityScores
      end
  end.

Definition _extractAbilities (bl : block_map) : result (gmap string number) :=
  match bl !! "abilities" with
  | Some (e :: tl) => abilities_loop (e :: tl) ∅
  | _ => Ok ∅
  end.

Definition _extractSavingThrows (bl : block_map) : result (list Save.t) :=
  first_match bl "savingThrows" regex.savingThrows []
    (λ mt,
       savesText ← defined (Regex.group mt 1);
       mapM (λ x, x) (omap
         (λ saveType,
            match Regex.exec regex.saveType saveType with
            | Some typeMatch =>
                Some (a ← defined (Regex.group typeMatch 1);
                      mret {| Save.ability := JsString.toLowerCase a;
                              Save.bonus := JsNumber.parseInt (Regex.group typeMatch 2) |})
            | None => None
            end)
         (comma_items savesText))).

Definition _extractSkills (bl : block_map) : result (list Skill.t) :=
  first_match bl "skills" regex.skills []
    (λ mt,
       skillsText ← defined (Regex.group mt 1);
       mapM (λ x, x) (omap
         (λ skillType,
            match Regex.exec regex.skillType skillType with
            | Some typeMatch =>
                Some (n ← defined (Regex.group typeMatch 1);
                      mret {| Skill.name := JsString.trim n;
                              Skill.bonus := JsNumber.parseInt (Regex.group typeMatch 2) |})
            | None => None
            end)
         (comma_items skillsText))).

(** [regexMap[blockId]] of [_extractDamageCondition]. *)
Definition regexMap (blockId : string) : option Regex.regex :=
  if bool_decide (blockId ∈ ["damageVulnerabilities"; "damageResistances";
                             "damageImmunities"; "conditionImmunities";
                             "immunities2024"])
  then regex.get blockId else None.

(** A [blockId] outside [regexMap] makes [match(undefined)] match the
    empty string, and [match[1].split] then throws. *)
Definition _extractDamageCondition (bl : block_map) (blockId : string)
  : result (list string) :=
  match bl !! blockId with
  | Some (e :: _) =>
      match regexMap blockId with
      | Some r =>
          match Regex.exec r (TaggedLine.line e) with
          | Some mt =>
              t ← defined (Regex.group mt 1);
              mret (map (λ item, JsString.toLowerCase (JsString.trim item))
                        (JsString.split t ","))
          | None => Ok []
          end
      | None => t ← defined None; mret (JsString.split t ",")
      end
  | _ => Ok []
  end.

Definition _extractDamageVulnerabilities (bl : block_map) :=
  _extractDamageCondition bl "damageVulnerabilities".
Definition _extractDamageResistances (bl : block_map) :=
  _extractDamageCondition bl "damageResistances".
Definition _extractDamageImmunities (bl : block_map) :=
  _extractDamageCondition bl "damageImmunities".
Definition _extractConditionImmunities (bl : block_map) :=
  _extractDamageCondition bl "conditionImmunities".

Definition _extractSenses (bl : block_map) : result (list Sense.t) :=
  first_match bl "senses" regex.senses []
    (λ mt,
       sensesText ← defined (Regex.group mt 1);
       mapM
         (λ senseType,
            match Regex.exec regex.senseType senseType with
            | Some typeMatch =>
                t ← defined (Regex.group typeMatch 1);
                mret (Sense.Ranged (JsString.toLowerCase (JsString.trim t))
                        (JsNumber.parseInt (Regex.group typeMatch 2)))
            | None => mret (Sense.Special (JsString.toLowerCase senseType))
            end)
         (comma_items sensesText)).

Definition _extractLanguages (bl : block_map) : result (list string) :=
  first_match bl "languages" regex.languages []
    (λ mt, t ← defined (Regex.group mt 1); mret (comma_items t)).

(** Element [i] of an array of numbers in an arithmetic expression;
    [undefined] converts to NaN. *)
Definition num_at (l : list number) (i : nat) : number := default nan (l !! i).

Definition _extractChallenge (bl : block_map) : result Challenge.t :=
  first_match bl "challenge" regex.challenge
    {| Challenge.cr := 0%float; Challenge.xp := 0%float |}
    (λ mt,
       crString ← defined (Regex.group mt 1);
       let cr :=
         (* Handle fractional CR *)
         if JsString.includes crString "/" then
           let parts := map (λ n, JsNumber.parseInt (Some n))
                            (JsString.split crString "/") in
           JsNumber.div (num_at parts 0) (num_at parts 1)
         else JsNumber.parseInt (Some crString) in
       (* Extract XP *)
       xpText ← defined (Regex.group mt 2);
       xp ← match Regex.exec regex.xp xpText with
            | Some xpMatch =>
                g ← defined (Regex.group xpMatch 1);
                mret (JsNumber.parseInt
                        (Some (fst (Regex.replace regex.comma 0 g (λ _, "")))))
            | None => mret 0%float
            end;
       mret {| Challenge.cr := cr; Challenge.xp := xp |}).

(** The loop of [_extractNamedEntries] over [entries[1..]]. *)
Fixpoint named_loop (ls : list TaggedLine.t) (res : list NamedEntry.t)
    (currentEntry : option NamedEntry.t) : result (list NamedEntry.t) :=
  match ls with
  | [] =>
      (* Add the last entry if there is one *)
      Ok (match currentEntry with
          | Some e => res ++ [e]
          | None => res
          end)
  | l :: tl =>
      let line := TaggedLine.line l in
      match Regex.exec regex.title line with
      | Some titleMatch =>
          n ← defined (Regex.group titleMatch 1);
          d ← defined (Regex.group titleMatch 2);
          named_loop tl
            (match currentEntry with
             | Some e => res ++ [e]
             | None => res
             end)
            (Some {| NamedEntry.name := JsString.trim n;
                     NamedEntry.description := JsString.trim d |})
      | None =>
          named_loop tl res
            (match currentEntry with
             | Some e =>
                 Some {| NamedEntry.name := NamedEntry.name e;
                         NamedEntry.description :=
                           (NamedEntry.description e ++ " " ++ line)%string |}
             | None => None
             end)
      end
  end.

Definition _extractNamedEntries (bl : block_map) (blockId : string)
  : result (list NamedEntry.t) :=
  match bl !! blockId with
  | Some (_ :: tl) => named_loop tl [] None   (* Skip the header line *)
  | _ => Ok []
  end.

Definition _extractFeatures (bl : block_map) := _extractNamedEntries bl "features".
Definition _extractActions (bl : block_map) := _extractNamedEntries bl "actions".
Definition _extractBonusActions (bl : block_map) := _extractNamedEntries bl "bonusActions".
Definition _extractReactions (bl : block_map) := _extractNamedEntries bl "reactions".
Definition _extractLegendaryActions (bl : block_map) :=
  _extractNamedEntries bl "legendaryActions".
Definition _extractLairActions (bl : block_map) := _extractNamedEntries bl "lairActions".
Definition _extractMythicActions (bl : block_map) := _extractNamedEntries bl "mythicActions".
Definition _extractVillainActions (bl : block_map) :=
  _extractNamedEntries bl "villainActions".

Definition _extractOtherInfo (bl : block_map) : result (list string) :=
  match bl !! "otherBlock" with
  | Some (e :: tl) => Ok (map TaggedLine.line (e :: tl))
  | _ => Ok []
  end.

(** *** parseMonster *)

Section Parse.
(** [spbiUtils.stripMarkdownAndCleanInput], from [spbiUtils.js], which
    is not part of the sources at hand: it returns a string for a string,
    and may read and change the state of its module. *)
Variable U : Type.
Variable stripMarkdownAndCleanInput : string → U → string * U.

(** [_cleanInput].  The replacement template is ["$<header> "]. *)
Definition _cleanInput (σ : store U) (text : string) : string * store U :=
  let '(cleaned, u) := stripMarkdownAndCleanInput text (spbiUtils σ) in
  let '(cleaned, li) :=
    Regex.replace regex.removeNewLines (removeNewLines_lastIndex σ) cleaned
      (λ mt, (Regex.named regex.removeNewLines mt "header" ++ " ")%string) in
  (cleaned, {| removeNewLines_lastIndex := li; spbiUtils := u |}).

(** [cleanedText.split("\n").map(line => line.trim()).filter(line => line.length > 0)] *)
Definition nonblank_lines (cleanedText : string) : list string :=
  List.filter (λ line, negb (String.eqb line ""))
    (map JsString.trim (JsString.split cleanedText nl)).

(** The assembly of the record from the name and the tagged lines. *)
Definition assemble (name : string) (bl : block_map) : result MonsterData.t :=
  type ← _extractType bl;
  size ← _extractSize bl;
  alignment ← _extractAlignment bl;
  ac ← _extractAC bl;
  hp ← _extractHP bl;
  speed ← _extractSpeed bl;
  abilities ← _extractAbilities bl;
  savingThrows ← _extractSavingThrows bl;
  skills ← _extractSkills bl;
  damageVulnerabilities ← _extractDamageVulnerabilities bl;
  damageResistances ← _extractDamageResistances bl;
  damageImmunities ← _extractDamageImmunities bl;
  conditionImmunities ← _extractConditionImmunities bl;
  senses ← _extractSenses bl;
  languages ← _extractLanguages bl;
  challenge ← _extractChallenge bl;
  features ← _extractFeatures bl;
  actions ← _extractActions bl;
  bonusActions ← _extractBonusActions bl;
  reactions ← _extractReactions bl;
  legendaryActions ← _extractLegendaryActions bl;
  lairActions ← _extractLairActions bl;
  mythicActions ← _extractMythicActions bl;
  villainActions ← _extractVillainActions bl;
  otherInfo ← _extractOtherInfo bl;
  mret {| MonsterData.name := name;
          MonsterData.type := type;
          MonsterData.size := size;
          MonsterData.alignment := alignment;
          MonsterData.ac := ac;
          MonsterData.hp := hp;
          MonsterData.speed := speed;
          MonsterData.abilities := abilities;
          MonsterData.savingThrows := savingThrows;
          MonsterData.skills := skills;
          MonsterData.damageVulnerabilities := damageVulnerabilities;
          MonsterData.damageResistances := damageResistances;
          MonsterData.damageImmunities := damageImmunities;
          MonsterData.conditionImmunities := conditionImmunities;
          MonsterData.senses := senses;
          MonsterData.languages := languages;
          MonsterData.challenge := challenge;
          MonsterData.features := features;
          MonsterData.actions := actions;
          MonsterData.bonusActions := bonusActions;
          MonsterData.reactions := reactions;
          MonsterData.legendaryActions := legendaryActions;
          MonsterData.lairActions := lairActions;
          MonsterData.mythicActions := mythicActions;
          MonsterData.villainActions := villainActions;
          MonsterData.otherInfo := otherInfo |}.

(** [parseMonster] from the cleaned text on. *)
Definition parse_cleaned (cleanedText : string) : result MonsterData.t :=
  match nonblank_lines cleanedText with
  | [] => Throw (Error "No content to parse")
  | name :: lines => assemble name (_parseIntoBlocks lines)
  end.

Definition parseMonster (σ : store U) (content : string)
  : result MonsterData.t * store U :=
  let '(cleanedText, σ') := _cleanInput σ content in
  (parse_cleaned cleanedText, σ').
End Parse.

Arguments _cleanInput {U} _ _ _.
Arguments parseMonster {U} _ _ _.

End monsterParser.

(* ===================================================================== *)
(** ** contentDetector.js *)
(* ===================================================================== *)

Module ContentBlock.
(** [{ type, content }] *)
Record t : Type := { type : string; content : string }.
End ContentBlock.

Module contentDetector.

Module regex.
Definition spellBlockPattern : Regex.regex := Eval vm_compute in Regex.rx
  "^([\w\s'-]+)\s*(?:\r?\n)((?:(?:\d+)(?:st|nd|rd|th))?[-\s]?(?:level)?\s*(?:abjuration|conjuration|divination|enchantment|evocation|illusion|necromancy|transmutation)\s*(?:spell|cantrip)?(?:\s*\(ritual\))?)\s*(?:\r?\n)" "im".
Definition itemBlockPattern : Regex.regex := Eval vm_compute in Regex.rx
  "^([\w\s'-]+)\s*(?:\r?\n)((?:(?:wondrous item|armor|weapon|ring|rod|staff|wand|potion|scroll|tool|kit|supplies|instrument))?\s*(?:\([\w\s]+\))?\s*(?:,)?\s*(?:(?:uncommon|common|rare|very rare|legendary|artifact))?)\s*(?:\r?\n)" "im".
Definition monsterBlockPattern : Regex.regex := Eval vm_compute in Regex.rx
  "^([\w\s'-]+)\s*(?:\r?\n)((?:(?:tiny|small|medium|large|huge|gargantuan)\s+(?:aberration|beast|celestial|construct|dragon|elemental|fey|fiend|giant|humanoid|monstrosity|ooze|plant|undead))\s*(?:\([^\)]+\))?\s*(?:,)?\s*(?:(?:unaligned|lawful good|neutral good|chaotic good|lawful neutral|neutral|chaotic neutral|lawful evil|neutral evil|chaotic evil|any alignment|any non-good alignment|any non-lawful alignment|any chaotic alignment))?)\s*(?:\r?\n)" "im".
Definition classFeaturePattern : Regex.regex := Eval vm_compute in Regex.rx
  "^([\w\s'-]+)\s*(?:\r?\n)((?:(?:\d+)(?:st|nd|rd|th))?[-\s]?level\s*(?:feature|class feature))\s*(?:\r?\n)" "im".
Definition featPattern : Regex.regex := Eval vm_compute in Regex.rx
  "^([\w\s'-]+)\s*(?:\r?\n)((?:feat|prerequisite:))\s*(?:\r?\n)" "im".
Definition backgroundPattern : Regex.regex := Eval vm_compute in Regex.rx
  "^([\w\s'-]+)\s*(?:\r?\n)(background)\s*(?:\r?\n)" "im".

(** [blockSeparators] of [_splitIntoBlocks]; the array and its objects
    are created anew by every call.  The bullet of the fourth one is
    U+2022, written here as an escape. *)
Definition blockSeparators : list Regex.regex := Eval vm_compute in [
  Regex.rx "\n{3,}" "g";
  Regex.rx "\n[-_]{3,}\n" "g";
  Regex.rx "\n[\s]*\d+[\s]*\n" "g";
  Regex.rx "\n[\s]*\u2022[\s]*\n" "g"
].

(** [_looksLikeBlockStart] *)
Definition allCaps : Regex.regex := Eval vm_compute in Regex.rx
  "^[A-Z][A-Z\s]+$" "".
Definition typeIndicator : Regex.regex := Eval vm_compute in Regex.rx
  "(?:spell|cantrip|item|weapon|armor|monster|feat)" "i".
Definition titleCase : Regex.regex := Eval vm_compute in Regex.rx
  "^[A-Z][a-z]+(?:\s+[A-Z][a-z]+)*$" "".
Definition spellLevelSchool : Regex.regex := Eval vm_compute in Regex.rx
  "(?:\d+(?:st|nd|rd|th)[-\s]level|cantrip)\s+(?:abjuration|conjuration|divination|enchantment|evocation|illusion|necromancy|transmutation)" "i".
Definition itemRarity : Regex.regex := Eval vm_compute in Regex.rx
  "(?:wondrous item|armor|weapon|ring|rod|staff|wand|potion|scroll)\s*(?:,)?\s*(?:uncommon|common|rare|very rare|legendary|artifact)" "i".
Definition monsterType : Regex.regex := Eval vm_compute in Regex.rx
  "(?:tiny|small|medium|large|huge|gargantuan)\s+(?:aberration|beast|celestial|construct|dragon|elemental|fey|fiend|giant|humanoid|monstrosity|ooze|plant|undead)" "i".

(** [_identifyBlockType] *)
Definition acOrHp : Regex.regex := Eval vm_compute in Regex.rx
  "armor class\s+\d+|hit points\s+\d+\s*\([\dd\+\s]+\)" "i".
Definition strOrDex : Regex.regex := Eval vm_compute in Regex.rx
  "str\s+\d+\s*\([+-]\d+\)|dex\s+\d+\s*\([+-]\d+\)" "i".
Definition abilityPair : Regex.regex := Eval vm_compute in Regex.rx
  "\b(str|dex|con|int|wis|cha)\s+\d+\s*\([+-]\d+\)\s+(str|dex|con|int|wis|cha)\s+\d+\s*\([+-]\d+\)" "i".
Definition challengeXp : Regex.regex := Eval vm_compute in Regex.rx
  "challenge\s+([\d\/]+)\s*\([\d,]+\s*xp\)" "i".
Definition spellWords : Regex.regex := Eval vm_compute in Regex.rx
  "casting time|components|duration|range" "i".
Definition school : Regex.regex := Eval vm_compute in Regex.rx
  "(?:abjuration|conjuration|divination|enchantment|evocation|illusion|necromancy|transmutation)" "i".
Definition toolWords : Regex.regex := Eval vm_compute in Regex.rx
  "(?:tool|kit|supplies)" "i".
Definition toolKinds : Regex.regex := Eval vm_compute in Regex.rx
  "(?:artisan|thieves|herbalism|musical instrument)" "i".
Definition weaponWords : Regex.regex := Eval vm_compute in Regex.rx
  "(?:weapon|sword|axe|bow|crossbow)" "i".
Definition weaponProps : Regex.regex := Eval vm_compute in Regex.rx
  "(?:damage|attack|range|properties)" "i".
Definition armorWords : Regex.regex := Eval vm_compute in Regex.rx
  "(?:armor|shield|plate|mail)" "i".
Definition acWords : Regex.regex := Eval vm_compute in Regex.rx
  "(?:ac|armor class)" "i".
Definition itemWords : Regex.regex := Eval vm_compute in Regex.rx
  "(?:wondrous item|armor|weapon|ring|rod|staff|wand|potion|scroll)" "i".
Definition itemProps : Regex.regex := Eval vm_compute in Regex.rx
  "(?:attunement|rarity|requires)" "i".
Definition monsterWords : Regex.regex := Eval vm_compute in Regex.rx
  "armor class|hit points|speed|str|dex|con|int|wis|cha" "i".
Definition actionWords : Regex.regex := Eval vm_compute in Regex.rx
  "(?:actions|legendary actions|lair actions)" "i".
Definition backgroundWord : Regex.regex := Eval vm_compute in Regex.rx
  "background" "i".
Definition backgroundProps : Regex.regex := Eval vm_compute in Regex.rx
  "(?:skill proficiencies|feature:|equipment|suggested characteristics)" "i".
End regex.

Definition _looksLikeBlockStart (line context : string) : bool :=
  (* All caps title followed by type indicator *)
  if Regex.test regex.allCaps line && Regex.test regex.typeIndicator context
  then true
  (* Title case name followed by spell level and school *)
  else if Regex.test regex.titleCase line
          && Regex.test regex.spellLevelSchool context
  then true
  (* Title case name followed by item rarity *)
  else if Regex.test regex.titleCase line && Regex.test regex.itemRarity context
  then true
  (* Title case name followed by monster type *)
  else if Regex.test regex.titleCase line && Regex.test regex.monsterType context
  then true
  else false.

(** [s.trim().length > 0] *)
Definition nonblank (s : string) : bool := negb (String.eqb (JsString.trim s) "").

(** The inner loop of [_refineBlocks] from [lines[i]] on; [lines] is the
    rest of the array, so [lines.slice(i, i + 3)] is [take 3 lines]. *)
Fixpoint refine_loop (lines : list string) (i blockStart : nat)
    (currentBlock : string) (refinedBlocks : list string) : list string :=
  match lines with
  | [] =>
      (* Add the last block *)
      if nonblank currentBlock
      then refinedBlocks ++ [JsString.trim currentBlock]
      else refinedBlocks
  | l :: tl =>
      let line := JsString.trim l in
      if (blockStart + 3 <? i)
         && _looksLikeBlockStart line (JsString.join nl (take 3 lines))
      then
        refine_loop tl (S i) i line
          (if nonblank currentBlock
           then refinedBlocks ++ [JsString.trim currentBlock]
           else refinedBlocks)
      else
        refine_loop tl (S i) blockStart (currentBlock ++ nl ++ line)%string
          refinedBlocks
  end.

Fixpoint _refineBlocks_from (blocks : list string) (refinedBlocks : list string)
  : list string :=
  match blocks with
  | [] => refinedBlocks
  | block :: tl =>
      if nonblank block
      then _refineBlocks_from tl
             (refine_loop (JsString.split block nl) 0 0 "" refinedBlocks)
      else _refineBlocks_from tl refinedBlocks
  end.

Definition _refineBlocks (blocks : list string) : list string :=
  _refineBlocks_from blocks [].

Definition _splitIntoBlocks (text : string) : list string :=
  let processedText :=
    fold_left
      (λ processedText separator,
         fst (Regex.replace separator 0 processedText
                (λ _, (nl ++ "###BLOCK_SEPARATOR###" ++ nl)%string)))
      regex.blockSeparators text in
  _refineBlocks (JsString.split processedText "###BLOCK_SEPARATOR###").

Definition _identifyBlockType (block : string) : option string :=
  (* Check for spell blocks *)
  if Regex.test regex.spellBlockPattern block then Some "spell"
  (* Check for item blocks *)
  else if Regex.test regex.itemBlockPattern block then Some "item"
  (* Check for monster blocks *)
  else if Regex.test regex.monsterBlockPattern block then Some "monster"
  (* Additional monster detection patterns *)
  else if Regex.test regex.acOrHp block && Regex.test regex.strOrDex block
  then Some "monster"
  else if Regex.test regex.abilityPair block then Some "monster"
  else if Regex.test regex.challengeXp block then Some "monster"
  (* Check for class feature, feat and background blocks *)
  else if Regex.test regex.classFeaturePattern block then Some "classFeature"
  else if Regex.test regex.featPattern block then Some "feat"
  else if Regex.test regex.backgroundPattern block then Some "background"
  (* Check for spell-like content *)
  else if Regex.test regex.spellWords block && Regex.test regex.school block
  then Some "spell"
  (* Tool, weapon and armor indicators *)
  else if Regex.test regex.toolWords block && Regex.test regex.toolKinds block
  then Some "item"
  else if Regex.test regex.weaponWords block && Regex.test regex.weaponProps block
  then Some "item"
  else if Regex.test regex.armorWords block && Regex.test regex.acWords block
  then Some "item"
  (* Check for item-like content *)
  else if Regex.test regex.itemWords block && Regex.test regex.itemProps block
  then Some "item"
  (* Check for monster-like content *)
  else if Regex.test regex.monsterWords block && Regex.test regex.actionWords block
  then Some "monster"
  (* Check for background-like content *)
  else if Regex.test regex.backgroundWord block
          && Regex.test regex.backgroundProps block
  then Some "background"
  (* Unknown block type *)
  else None.

Definition detectContentBlocks (text : string) : list ContentBlock.t :=
  omap
    (λ block,
       if String.length (JsString.trim block) <? 10 then None
       else match _identifyBlockType block with
            | Some blockType =>
                Some {| ContentBlock.type := blockType;
                        ContentBlock.content := JsString.trim block |}
            | None => None
            end)
    (_splitIntoBlocks text).

End contentDetector.

(* ===================================================================== *)
(** ** The consumers of the ability scores *)
(* ===================================================================== *)

Definition abilityNames : list string := ["str"; "dex"; "con"; "int"; "wis"; "cha"].

Module contentParser.

Module regex.
Definition anyAbility : Regex.regex := Eval vm_compute in Regex.rx
  "str|dex|con|int|wis|cha" "i".
Definition str : Regex.regex := Eval vm_compute in Regex.rx "str\s*[:\t]?\s*(\d+)" "i".
Definition dex : Regex.regex := Eval vm_compute in Regex.rx "dex\s*[:\t]?\s*(\d+)" "i".
Definition con : Regex.regex := Eval vm_compute in Regex.rx "con\s*[:\t]?\s*(\d+)" "i".
Definition int : Regex.regex := Eval vm_compute in Regex.rx "int\s*[:\t]?\s*(\d+)" "i".
Definition wis : Regex.regex := Eval vm_compute in Regex.rx "wis\s*[:\t]?\s*(\d+)" "i".
Definition cha : Regex.regex := Eval vm_compute in Regex.rx "cha\s*[:\t]?\s*(\d+)" "i".
End regex.

(** [const m = line.match(r); if (m) abilities[key] = parseInt(m[1]);] *)
Definition set_score (key : string) (r : Regex.regex) (line : string)
    (abilities : gmap string number) : gmap string number :=
  match Regex.exec r line with
  | Some mt => <[key := JsNumber.parseInt (Regex.group mt 1)]> abilities
  | None => abilities
  end.

(** The fallback extractor, used when [monsterParser.parseMonster]
    throws. *)
Definition _extractAbilityScores (lines : list string) : gmap string number :=
  fold_left
    (λ abilities line,
       if Regex.test regex.anyAbility line then
         set_score "cha" regex.cha line
           (set_score "wis" regex.wis line
              (set_score "int" regex.int line
                 (set_score "con" regex.con line
                    (set_score "dex" regex.dex line
                       (set_score "str" regex.str line abilities)))))
       else abilities)
    lines
    (list_to_map (map (λ a, (a, 10%float)) abilityNames)).

End contentParser.

Module AbilityValue.
(** [{ value }], the entry of one ability in the actor data. *)
Record t : Type := { value : number }.
End AbilityValue.

Module actorBuilder.

(** [result[ability] = { value: abilities[ability] || defaultScore }] for
    the six abilities. *)
Definition _buildAbilities (abilities : gmap string number)
  : gmap string AbilityValue.t :=
  let defaultScore := 10%float in
  fold_left
    (λ res ability,
       <[ability := {| AbilityValue.value :=
                         match abilities !! ability with
                         | Some v => if JsNumber.truthy v then v else defaultScore
                         | None => defaultScore
                         end |}]> res)
    abilityNames ∅.

End actorBuilder.

(* ===================================================================== *)
(** ** Invocations *)
(* ===================================================================== *)

(** The two entry points, called one after the other in any order: each
    call starts from the static state the previous one left. *)
Module Invocation.

Inductive call : Type :=
| Detect (text : string)
| Parse (content : string).

Inductive output : Type :=
| Blocks (bs : list ContentBlock.t)
| Parsed (r : result MonsterData.t).

Section Run.
Context {U : Type}.
Variable stripMarkdownAndCleanInput : string → U → string * U.

(** [detectContentBlocks] matches with objects that have no [g] flag and
    with objects it creates anew: it leaves the static state alone. *)
Definition invoke (σ : store U) (c : call) : output * store U :=
  match c with
  | Detect text => (Blocks (contentDetector.detectContentBlocks text), σ)
  | Parse content =>
      let '(r, σ') :=
        monsterParser.parseMonster stripMarkdownAndCleanInput σ content in
      (Parsed r, σ')
  end.

(** The static state after the calls of [history]. *)
Fixpoint after (σ : store U) (history : list call) : store U :=
  match history with
  | [] => σ
  | c :: tl => after (snd (invoke σ c)) tl
  end.

End Run.


End Invocation.

(* ===================================================================== *)
(** ** A relational reading of the matcher *)
(* ===================================================================== *)

(** [matches r st st'] holds when [r] can consume the input between the
    states [st] and [st'].  Every successful run of the matcher is an
    instance of it. *)
Module RegexSem.
Import Regex.

Fixpoint iter (R : mstate → mstate → Prop) (n : nat) (st st' : mstate) : Prop :=
  match n with
  | O => st' = st
  | S n' => ∃ mid, R st mid ∧ iter R n' mid st'
  end.

Definition stepped (p : ascii → bool) (st st' : mstate) : Prop :=
  ∃ c tl, rest st = c :: tl ∧ p c = true ∧ st' = MState (Some c) tl (caps st).

Section Sem.
Variables ic ml : bool.

Fixpoint matches (r : re) (st st' : mstate) : Prop :=
  match r with
  | RChar a => stepped (chr_mem ic a) st st'
  | RSet neg items => stepped (set_mem ic neg items) st st'
  | RDot => stepped (λ c, negb (Char.is_line_terminator c)) st st'
  | RBol => at_bol ml st = true ∧ st' = st
  | REol => at_eol ml st = true ∧ st' = st
  | RWordB => at_word_boundary st = true ∧ st' = st
  | REmpty => st' = st
  | RSeq a b => ∃ mid, matches a st mid ∧ matches b mid st'
  | RAlt a b => matches a st st' ∨ matches b st st'
  | RGroup n a => ∃ st1, matches a st st1 ∧ st' = set_cap n (consumed st st1) st1
  | RRep a lo hi =>
      ∃ j, (lo ≤ j ∧ match hi with
                     | Some h => j ≤ lo + (h - lo)
                     | None => True
                     end)
           ∧ iter (λ s s', matches a (clear_caps (groups a) s) s') j st st'
  end.
End Sem.

(** [always_sets n r]: every match of [r] leaves group [n] defined. *)
Fixpoint always_sets (n : nat) (r : re) : bool :=
  match r with
  | RSeq a b =>
      (always_sets n a && negb (bool_decide (n ∈ groups b))) || always_sets n b
  | RAlt a b => always_sets n a && always_sets n b
  | RGroup k a => (k =? n) || always_sets n a
  | RRep a lo _ => (0 <? lo) && always_sets n a
  | _ => false
  end.

End RegexSem.

(* ===================================================================== *)
(** ** Vocabulary of the statements *)
(* ===================================================================== *)

Module NamedEntries.
Import monsterParser.

(** The entry a line of the title shape starts; [None] when the line
    does not have the shape. *)
Definition title_entry (line : string) : option NamedEntry.t :=
  match Regex.exec regex.title line with
  | Some mt =>
      Some {| NamedEntry.name := JsString.trim (or_empty (Regex.group mt 1));
              NamedEntry.description := JsString.trim (or_empty (Regex.group mt 2)) |}
  | None => None
  end.

(** An entry with one more line appended to its description. *)
Definition append_line (e : NamedEntry.t) (l : TaggedLine.t) : NamedEntry.t :=
  {| NamedEntry.name := NamedEntry.name e;
     NamedEntry.description :=
       (NamedEntry.description e ++ " " ++ TaggedLine.line l)%string |}.

(** An entry followed by its continuation lines. *)
Definition continued (e : NamedEntry.t) (cs : list TaggedLine.t) : NamedEntry.t :=
  fold_left append_line cs e.

(** The entries the loop adds to [result] from the lines [ls], entered
    with [currentEntry = cur]. *)
Fixpoint entries_from (ls : list TaggedLine.t) (cur : option NamedEntry.t)
  : list NamedEntry.t :=
  match ls with
  | [] => option_list cur
  | l :: tl =>
      match title_entry (TaggedLine.line l) with
      | Some e => option_list cur ++ entries_from tl (Some e)
      | None => entries_from tl ((λ e, append_line e l) <$> cur)
      end
  end.

Definition tl_ (i : nat) (s : string) : TaggedLine.t :=
  {| TaggedLine.lineNumber := i; TaggedLine.line := s |}.
End NamedEntries.

Module Sections.
Import monsterParser.

(** The section [id] is missing (it has no buffer, or an empty one). *)
Definition missing (bl : gmap string (list TaggedLine.t)) (id : string) : Prop :=
  bl !! id = None ∨ bl !! id = Some [].

(** The section [id] is missing or its first line does not match the
    pattern [r] of the section. *)
Definition unmatched (bl : gmap string (list TaggedLine.t)) (id : string)
    (r : Regex.regex) : Prop :=
  missing bl id
  ∨ ∃ e tl, bl !! id = Some (e :: tl) ∧ Regex.exec r (TaggedLine.line e) = None.

(** The section [id] is missing or none of its lines matches [r]. *)
Definition no_line_matches (bl : gmap string (list TaggedLine.t)) (id : string)
    (r : Regex.regex) : Prop :=
  missing bl id
  ∨ ∃ ls, bl !! id = Some ls
          ∧ Forall (λ e, Regex.exec r (TaggedLine.line e) = None) ls.
End Sections.

Module Abilities.
Import monsterParser.

(** The line [e] is an ability line that sets the score of [a]. *)
Definition sets_score (a : string) (e : TaggedLine.t) : Prop :=
  ∃ mt t, Regex.exec regex.abilities (TaggedLine.line e) = Some mt
          ∧ Regex.group mt 1 = Some t ∧ JsString.toLowerCase t = a.

(** What [_buildAbilities] stores for an ability: [v || 10]. *)
Definition or_default (o : option number) : number :=
  match o with
  | Some v => if JsNumber.truthy v then v else 10%float
  | None => 10%float
  end.

(** The pattern [contentParser._extractAbilityScores] uses for each key. *)
Definition fallback_table : list (string * Regex.regex) :=
  [("str", contentParser.regex.str); ("dex", contentParser.regex.dex);
   ("con", contentParser.regex.con); ("int", contentParser.regex.int);
   ("wis", contentParser.regex.wis); ("cha", contentParser.regex.cha)].
End Abilities.

(** A static state to run the examples from. *)
Definition σ0 : store unit := {| removeNewLines_lastIndex := 0; spbiUtils := () |}.

(** A cleaner for the examples, which are plain text: it leaves the text
    as it is and keeps no state. *)
Definition plain (s : string) (u : unit) : string * unit := (s, u).


Module Digits.
(** A non-empty string of decimal digits. *)
Definition digit_string (s : string) : Prop :=
  s ≠ "" ∧ Forall (λ c, Char.is_digit c = true) (JsString.chars s).

(** The number a string of decimal digits denotes. *)
Definition decimal (s : string) : N :=
  fold_left (λ acc c, 10 * acc + JsNumber.digit_val c)%N (JsString.chars s) 0%N.

(** The groups [,ddd] that follow the first group of digits of a number
    written with commas. *)
Definition more_groups (ds : list string) : list ascii :=
  concat (map (λ d, ","%char :: JsString.chars d) ds).

(** The groups of digits written one after the other, without commas. *)
Definition ungrouped (ds : list string) : string :=
  fold_right String.append "" ds.
End Digits.

Module MatchShape.
Import Regex.

(** The code unit before the position reached after [w]. *)
Definition prev_after (pv : option ascii) (w : list ascii) : option ascii :=
  match last w with
  | Some c => Some c
  | None => pv
  end.

(** The patterns that consume exactly one code unit, with the set of
    code units they accept. *)
Definition char_pred (ic : bool) (a : re) : option (ascii → bool) :=
  match a with
  | RChar c => Some (chr_mem ic c)
  | RSet neg items => Some (set_mem ic neg items)
  | RDot => Some (λ c, negb (Char.is_line_terminator c))
  | _ => None
  end.

(** The input left does not start with a code unit of the set. *)
Definition stops (p : ascii → bool) (tl : list ascii) : Prop :=
  match tl with
  | [] => True
  | c :: _ => p c = false
  end.
End MatchShape.

Module Classifier.
Import contentDetector.

(** The block contains the name of a spell school. *)
Definition has_school (block : string) : Prop :=
  Regex.test regex.school block = true.

(** The block contains no armor-class, hit-point or ability-score line,
    in the sense of the three monster heuristics that look for them. *)
Definition no_stat_lines (block : string) : Prop :=
  Regex.test regex.acOrHp block = false
  ∧ Regex.test regex.strOrDex block = false
  ∧ Regex.test regex.abilityPair block = false.

(** None of the checks between the spell signature and the spell
    heuristic matches. *)
Definition no_earlier_kind (block : string) : Prop :=
  Regex.test regex.itemBlockPattern block = false
  ∧ Regex.test regex.monsterBlockPattern block = false
  ∧ (Regex.test regex.acOrHp block && Regex.test regex.strOrDex block) = false
  ∧ Regex.test regex.abilityPair block = false
  ∧ Regex.test regex.challengeXp block = false
  ∧ Regex.test regex.classFeaturePattern block = false
  ∧ Regex.test regex.featPattern block = false
  ∧ Regex.test regex.backgroundPattern block = false.

Definition evoker : string :=
  "Evoker
evocation spell damage
Challenge 9 (5,000 XP)".

Definition fireball_with_stats : string :=
  "Fireball
3rd-level evocation
Casting Time: 1 action
A bright streak deals 8d6 fire damage.
Armor Class 15
STR 10 (+0) DEX 12 (+1)".
End Classifier.

Module AbilityShape.
Local Open Scope char_scope.

(** The six abbreviations, in upper case. *)
Definition abbreviations : list (ascii * ascii * ascii) :=
  [("S", "T", "R"); ("D", "E", "X"); ("C", "O", "N");
   ("I", "N", "T"); ("W", "I", "S"); ("C", "H", "A")].

(** [\s] and [\d] under the [i] flag. *)
Definition blank (c : ascii) : Prop := Regex.set_mem true false [Regex.CSpace] c = true.
Definition digit (c : ascii) : Prop := Regex.set_mem true false [Regex.CDigit] c = true.

(** The shape of a line the ability pattern matches: an abbreviation in
    any case, white space, digits, optional white space and an opening
    parenthesis. *)
Definition shaped (l : list ascii) : Prop :=
  ∃ c1 c2 c3 w sp dg sp' tl,
    l = c1 :: c2 :: c3 :: (w :: sp) ++ dg ++ sp' ++ "(" :: tl
    ∧ (Char.to_upper c1, Char.to_upper c2, Char.to_upper c3) ∈ abbreviations
    ∧ Forall blank (w :: sp) ∧ Forall digit dg ∧ Forall blank sp'.

(** The header patterns [_getFirstMatch] tries, but for the ability
    pattern. *)
Definition other_headers : list Regex.regex :=
  [ monsterParser.regex.actions; monsterParser.regex.armor;
    monsterParser.regex.bonusActions; monsterParser.regex.challenge;
    monsterParser.regex.conditionImmunities; monsterParser.regex.damageImmunities;
    monsterParser.regex.immunities2024; monsterParser.regex.damageResistances;
    monsterParser.regex.damageVulnerabilities; monsterParser.regex.health;
    monsterParser.regex.lairActions; monsterParser.regex.languages;
    monsterParser.regex.legendaryActions; monsterParser.regex.mythicActions;
    monsterParser.regex.racialDetails; monsterParser.regex.reactions;
    monsterParser.regex.savingThrows; monsterParser.regex.senses;
    monsterParser.regex.skills; monsterParser.regex.speed;
    monsterParser.regex.villainActions ].

(** [[\w\s]], the class of the title patterns. *)
Definition word_or_space (c : ascii) : bool := Char.is_word c || Char.is_space c.
End AbilityShape.

Module Tagging.
Import monsterParser.

(** The ids [_getFirstMatch] goes through, in the order of the keys of
    [Blocks]. *)
Definition header_ids : list string := Eval vm_compute in
  List.filter (λ b, negb (bool_decide (b ∈ ["name"; "features"; "otherBlock"])))
    (map fst Blocks).

(** The object the loop pushes for [lines[i]]. *)
Definition entry (i : nat) (raw : string) : TaggedLine.t :=
  {| TaggedLine.lineNumber := i; TaggedLine.line := JsString.trim raw |}.

(** The objects of consecutive lines, from index [i] on. *)
Fixpoint entries (i : nat) (raws : list string) : list TaggedLine.t :=
  match raws with
  | [] => []
  | raw :: tl => entry i raw :: entries (S i) tl
  end.

(** A line the loop does not skip: not blank and not starting with an
    asterisk. *)
Definition kept (raw : string) : Prop :=
  String.eqb (JsString.trim raw) "" = false
  ∧ JsString.startsWith (JsString.trim raw) "*" = false.

(** A line the ability pattern matches. *)
Definition ability_line (raw : string) : Prop :=
  Regex.test regex.abilities (JsString.trim raw) = true.

(** A line made of an upper-case letter, a run [u] of word characters and
    white space, and a full stop. *)
Definition titled (l u : list ascii) : Prop :=
  ∃ c tl, l = c :: u ++ "."%char :: tl
          ∧ Char.is_upper c = true
          ∧ Forall (λ x, AbilityShape.word_or_space x = true) u.
End Tagging.

Module TaggedLines.
Import monsterParser.

(** The line object [e] stands for a line of the input that the loop
    does not skip: [lines[e.lineNumber].trim()] is [e.line]. *)
Definition from_input (lines : list string) (e : TaggedLine.t) : Prop :=
  ∃ raw, lines !! TaggedLine.lineNumber e = Some raw
         ∧ TaggedLine.line e = JsString.trim raw
         ∧ Tagging.kept raw.

(** Line numbers strictly increase along the list. *)
Fixpoint increasing (ls : list TaggedLine.t) : Prop :=
  match ls with
  | [] => True
  | e :: tl =>
      Forall (λ x, TaggedLine.lineNumber e < TaggedLine.lineNumber x) tl
      ∧ increasing tl
  end.

(** Before [lines[i]] is read, every tagged line comes from an earlier
    line of the input and every block is in input order. *)
Definition tidy (lines : list string) (i : nat) (st : tagger) : Prop :=
  ∀ b ls, blocks st !! b = Some ls →
    Forall (λ e, TaggedLine.lineNumber e < i ∧ from_input lines e) ls
    ∧ increasing ls.

(** The state of the loop after [STR 18 (+4)] and [DEX 12 (+1)]. *)
Definition after_two_abilities : tagger :=
  tag_lines tagger_init 0 ["STR 18 (+4)"; "DEX 12 (+1)"].
End TaggedLines.

Module Detection.

(** The values [_identifyBlockType] can return, [null] apart. *)
Definition kinds : list string :=
  ["spell"; "item"; "monster"; "classFeature"; "feat"; "background"].

(** A string that is not empty and that [trim] leaves as it is. *)
Definition trimmed (s : string) : Prop := s ≠ "" ∧ JsString.trim s = s.

(** [block.type === "monster"] *)
Definition is_monster (b : ContentBlock.t) : bool :=
  String.eqb (ContentBlock.type b) "monster".
End Detection.

Module AbilityGroups.
Import Regex.
Local Open Scope char_scope.

(** The alternation of the six abbreviations, and what follows it, in
    the ability pattern. *)
Definition abbreviation : re := Eval vm_compute in
  match ast monsterParser.regex.abilities with
  | RSeq _ (RSeq (RGroup _ a) _) => a
  | _ => REmpty
  end.

Definition after_abbreviation : re := Eval vm_compute in
  match ast monsterParser.regex.abilities with
  | RSeq _ (RSeq _ t) => t
  | _ => REmpty
  end.

(** An ability line as the pattern reads it: the abbreviation [c1 c2 c3]
    in any case, white space [sp], the score [dg], optional white space
    [sp'], and the modifier, a sign [sg] and digits [md], in
    parentheses; [tl] is what follows. *)
Definition written (c1 c2 c3 : ascii) (sp dg sp' : list ascii) (sg : ascii)
    (md tl : list ascii) : string :=
  JsString.of_chars
    (c1 :: c2 :: c3 :: sp ++ dg ++ sp' ++ "(" :: sg :: md ++ ")" :: tl).

Definition digits (l : list ascii) : Prop :=
  l ≠ [] ∧ Forall (λ c, Char.is_digit c = true) l.

Definition blanks (l : list ascii) : Prop :=
  Forall (λ c, Char.is_space c = true) l.

(** The key [abilityType.toLowerCase()] of an abbreviation. *)
Definition key (c1 c2 c3 : ascii) : string :=
  JsString.toLowerCase (JsString.of_chars [c1; c2; c3]).
End AbilityGroups.

Module Captures.
Import Regex.

(** The pattern [\d+]. *)
Definition digit_run (r : re) : bool :=
  match r with
  | RRep (RSet false [CDigit]) 1 None => true
  | _ => false
  end.

(** Every match of [r] goes through a group [n] written [(\d+)], and
    nothing after it sets the group again. *)
Fixpoint digits_group (n : nat) (r : re) : bool :=
  match r with
  | RGroup k a => (k =? n) && digit_run a
  | RSeq a b =>
      (digits_group n a && negb (bool_decide (n ∈ groups b))) || digits_group n b
  | _ => false
  end.

End Captures.

Module Titles.
Local Open Scope char_scope.

(** A line with a full stop after at least one other code unit: [pre] is
    what stands before the first full stop, [post] what follows it. *)
Definition dotted (l pre post : list ascii) : Prop :=
  l = pre ++ "." :: post ∧ pre ≠ [] ∧ Forall (λ c, c ≠ ".") pre.

(** No line terminator. *)
Definition one_line (l : list ascii) : Prop :=
  Forall (λ c, Char.is_line_terminator c = false) l.

(** The names of the entries that the title lines of [ls] start. *)
Definition titles (ls : list TaggedLine.t) : list string :=
  omap (λ l, NamedEntry.name <$> NamedEntries.title_entry (TaggedLine.line l)) ls.
End Titles.

Module ChallengeShape.
Local Open Scope char_scope.

(** The input left does not start with a slash. *)
Definition no_slash (l : list ascii) : Prop :=
  match l with
  | c :: _ => c ≠ "/"
  | [] => True
  end.
End ChallengeShape.

Module Listed.

(** A header followed by white space [sp] and the text [text] of the
    list, which has no line terminator and does not start with white
    space. *)
Definition line_of (header : string) (sp text : list ascii) : string :=
  (header ++ JsString.of_chars (sp ++ text))%string.

Definition proper (sp text : list ascii) : Prop :=
  sp ≠ [] ∧ AbilityGroups.blanks sp
  ∧ text ≠ [] ∧ Titles.one_line text
  ∧ MatchShape.stops Char.is_space text.

(** [text.split(",").map(s => s.trim())] *)
Definition items (text : list ascii) : list string :=
  map JsString.trim (JsString.split (JsString.of_chars text) ",").
End Listed.

Module SignedCaptures.
Import Regex.

(** The pattern [[+-]\d+]. *)
Definition signed_run (r : re) : bool :=
  match r with
  | RSeq (RSet false [CChar x; CChar y]) d =>
      Ascii.eqb x "+" && Ascii.eqb y "-" && Captures.digit_run d
  | _ => false
  end.

(** Every match of [r] goes through a group [n] written [([+-]\d+)], and
    nothing after it sets the group again. *)
Fixpoint signed_group (n : nat) (r : re) : bool :=
  match r with
  | RGroup k a => (k =? n) && signed_run a
  | RSeq a b =>
      (signed_group n a && negb (bool_decide (n ∈ groups b))) || signed_group n b
  | _ => false
  end.

End SignedCaptures.

Module Text.

(** Every code unit is white space (a line feed is one): the text has no
    line that is not blank. *)
Definition blank (s : string) : Prop :=
  Forall (λ c, Char.is_space c = true) (JsString.chars s).

(** The text is not empty and neither starts nor ends with white
    space. *)
Definition tight (s : string) : Prop :=
  ∃ c d, head (JsString.chars s) = Some c ∧ last (JsString.chars s) = Some d
         ∧ Char.is_space c = false ∧ Char.is_space d = false.

Definition no_line_feed (s : string) : Prop :=
  Forall (λ c, c ≠ "010"%char) (JsString.chars s).

(** [name] is the first non-blank line of [text], without the white
    space around it: only white space stands before it, and only white
    space follows it up to the next line feed or the end of the text. *)
Definition first_line (text name : string) : Prop :=
  ∃ pre sp post,
    text = (pre ++ name ++ sp ++ post)%string
    ∧ blank pre
    ∧ tight name ∧ no_line_feed name
    ∧ blank sp ∧ no_line_feed sp
    ∧ (post = "" ∨ ∃ post', post = (nl ++ post')%string).
End Text.

Module Defaults.
(** The record of a statblock that has a name and nothing else. *)
Definition record (name : string) : MonsterData.t :=
  {| MonsterData.name := name;
     MonsterData.type := "";
     MonsterData.size := "";
     MonsterData.alignment := "";
     MonsterData.ac := {| ValueFormula.value := 10%float; ValueFormula.formula := "" |};
     MonsterData.hp := {| ValueFormula.value := 0%float; ValueFormula.formula := "" |};
     MonsterData.speed := [];
     MonsterData.abilities := ∅;
     MonsterData.savingThrows := [];
     MonsterData.skills := [];
     MonsterData.damageVulnerabilities := [];
     MonsterData.damageResistances := [];
     MonsterData.damageImmunities := [];
     MonsterData.conditionImmunities := [];
     MonsterData.senses := [];
     MonsterData.languages := [];
     MonsterData.challenge := {| Challenge.cr := 0%float; Challenge.xp := 0%float |};
     MonsterData.features := [];
     MonsterData.actions := [];
     MonsterData.bonusActions := [];
     MonsterData.reactions := [];
     MonsterData.legendaryActions := [];
     MonsterData.lairActions := [];
     MonsterData.mythicActions := [];
     MonsterData.villainActions := [];
     MonsterData.otherInfo := [] |}.
End Defaults.

Module AbilityScores.
Import AbilityGroups.

(** The parts of a line written as the ability pattern expects. *)
Definition well_written (c1 c2 c3 : ascii) (sp dg sp' : list ascii) (sg : ascii)
    (md : list ascii) : Prop :=
  (Char.to_upper c1, Char.to_upper c2, Char.to_upper c3) ∈ AbilityShape.abbreviations
  ∧ sp ≠ [] ∧ blanks sp ∧ digits dg ∧ blanks sp'
  ∧ (sg = "-"%char ∨ sg = "+"%char) ∧ digits md.

(** The line [e] gives the ability [a] the score [v]: it is written as
    the ability pattern expects, with the abbreviation of [a] in any
    case, and [v] is the number its digits denote. *)
Definition gives (a : string) (v : number) (e : TaggedLine.t) : Prop :=
  ∃ c1 c2 c3 sp dg sp' sg md tl,
    TaggedLine.line e = written c1 c2 c3 sp dg sp' sg md tl
    ∧ well_written c1 c2 c3 sp dg sp' sg md
    ∧ key c1 c2 c3 = a
    ∧ v = JsNumber.of_N (Digits.decimal (JsString.of_chars dg)).
End AbilityScores.

Module Scalars.
Import AbilityGroups.
Local Open Scope char_scope.

(** The text of a note in parentheses: not empty, and without a closing
    parenthesis. *)
Definition note (f : list ascii) : Prop := f ≠ [] ∧ Forall (λ c, c ≠ ")") f.

(** White space [sp'] and a note [f] in parentheses, followed by
    [more]. *)
Definition noted (sp' f more : list ascii) : list ascii :=
  sp' ++ "(" :: f ++ ")" :: more.

(** What follows the digits starts neither with a digit nor with white
    space. *)
Definition ends (tail : list ascii) : Prop :=
  MatchShape.stops Char.is_digit tail ∧ MatchShape.stops Char.is_space tail.

(** The number a run of digits denotes. *)
Definition number_of (dg : list ascii) : number :=
  JsNumber.of_N (Digits.decimal (JsString.of_chars dg)).

(** The armor and the hit points patterns after their headers. *)
Definition armor_tail : Regex.re := Eval vm_compute in
  Nat.iter 12 (λ r, match r with Regex.RSeq _ t => t | x => x end)
    (Regex.ast monsterParser.regex.armor).

Definition health_tail : Regex.re := Eval vm_compute in
  Nat.iter 11 (λ r, match r with Regex.RSeq _ t => t | x => x end)
    (Regex.ast monsterParser.regex.health).
End Scalars.

Module Fallback.
Import AbilityGroups.
Local Open Scope char_scope.

(** What may stand between an abbreviation and its score: white space,
    with at most one colon in it. *)
Definition separator (sep : list ascii) : Prop :=
  blanks sep ∨ ∃ sp sp', sep = sp ++ ":" :: sp' ∧ blanks sp ∧ blanks sp'.

(** A line that starts with the abbreviation [c1 c2 c3], in any case,
    followed by a separator, the digits [dg] and [tail]. *)
Definition scored (c1 c2 c3 : ascii) (sep dg tail : list ascii) : string :=
  JsString.of_chars (c1 :: c2 :: c3 :: sep ++ dg ++ tail).

(** The patterns of [_extractAbilityScores] after the abbreviation. *)
Definition score_tail : Regex.re := Eval vm_compute in
  Nat.iter 3 (λ r, match r with Regex.RSeq _ t => t | x => x end)
    (Regex.ast contentParser.regex.str).

(** One turn of the loop of [_extractAbilityScores]. *)
Definition step (abilities : gmap string number) (line : string)
  : gmap string number :=
  if Regex.test contentParser.regex.anyAbility line then
    contentParser.set_score "cha" contentParser.regex.cha line
      (contentParser.set_score "wis" contentParser.regex.wis line
         (contentParser.set_score "int" contentParser.regex.int line
            (contentParser.set_score "con" contentParser.regex.con line
               (contentParser.set_score "dex" contentParser.regex.dex line
                  (contentParser.set_score "str" contentParser.regex.str
                     line abilities)))))
  else abilities.
End Fallback.

(* ===================================================================== *)
(** * Properties *)
(* ===================================================================== *)

(** ** The matcher *)

Module RegexFacts.
Import Regex RegexSem.

Section Sound.
Variables ic ml : bool.

Lemma iter_app R i j st mid st' :
  iter R i st mid → iter R j mid st' → iter R (i + j) st st'.
Proof.
  revert st. induction i as [|i IH]; intros st; simpl.
  - intros ->. done.
  - intros (x & Hx & Hi) Hj. exists x. split; [done|]. by apply IH.
Qed.

Lemma step_char_sound p k st x :
  step_char p k st = Some x → ∃ st', stepped p st st' ∧ k st' = Some x.
Proof.
  unfold step_char, stepped. destruct (rest st) as [|c tl] eqn:E; [done|].
  destruct (p c) eqn:Hp; [|done]. intros Hk.
  exists (MState (Some c) tl (caps st)). split; [|done]. by exists c, tl.
Qed.

Section Rep.
Variable step : cont → cont.
Variable R : mstate → mstate → Prop.
Hypothesis step_sound : ∀ k st x,
  step k st = Some x → ∃ st', R st st' ∧ k st' = Some x.

Lemma rep_lo_sound n k st x :
  rep_lo step n k st = Some x → ∃ st', iter R n st st' ∧ k st' = Some x.
Proof.
  revert st. induction n as [|n IH]; intros st; simpl.
  - intros H. by exists st.
  - intros H. apply step_sound in H as (mid & HR & H).
    apply IH in H as (st' & Hi & Hk). exists st'. split; [|done].
    by exists mid.
Qed.

Lemma rep_hi_sound n k st x :
  rep_hi step n k st = Some x →
  ∃ j st', j ≤ n ∧ iter R j st st' ∧ k st' = Some x.
Proof.
  revert st. induction n as [|n IH]; intros st; simpl.
  - intros H. by exists 0, st.
  - destruct (step _ st) as [y|] eqn:E.
    + intros [= ->]. apply step_sound in E as (mid & HR & H).
      destruct (_ <? _)%nat; [|done].
      apply IH in H as (j & st' & Hj & Hi & Hk).
      exists (S j), st'. split; [lia|]. split; [|done]. by exists mid.
    + intros H. exists 0, st. split; [lia|]. done.
Qed.
End Rep.

(** Soundness of the matcher for the relational reading. *)
Lemma m_sound r : ∀ k st x,
  m ic ml r k st = Some x → ∃ st', matches ic ml r st st' ∧ k st' = Some x.
Proof.
  induction r as [a|neg items| | | | | |a IHa b IHb|a IHa b IHb|n a IHa|a IHa lo hi];
    intros k st x; simpl.
  - apply step_char_sound.
  - apply step_char_sound.
  - apply step_char_sound.
  - destruct (at_bol ml st) eqn:E; [|done]. intros H. by exists st.
  - destruct (at_eol ml st) eqn:E; [|done]. intros H. by exists st.
  - destruct (at_word_boundary st) eqn:E; [|done]. intros H. by exists st.
  - intros H. by exists st.
  - intros H. apply IHa in H as (mid & Ha & H).
    apply IHb in H as (st' & Hb & H). exists st'. split; [|done]. by exists mid.
  - destruct (m ic ml a k st) as [y|] eqn:E.
    + intros [= ->]. apply IHa in E as (st' & Ha & H). exists st'. auto.
    + intros H. apply IHb in H as (st' & Hb & H). exists st'. auto.
  - intros H. apply IHa in H as (st1 & Ha & H).
    exists (set_cap n (consumed st st1) st1). split; [|done]. by exists st1.
  - intros H.
    set (step := λ k' st', m ic ml a k' (clear_caps (groups a) st')) in *.
    assert (Hstep : ∀ k st x, step k st = Some x →
              ∃ st', matches ic ml a (clear_caps (groups a) st) st' ∧ k st' = Some x).
    { intros k0 st0 x0. unfold step. apply IHa. }
    apply (rep_lo_sound step _ Hstep) in H as (mid & Hlo & H).
    apply (rep_hi_sound step _ Hstep) in H as (j & st' & Hj & Hhi & H).
    exists st'. split; [|done]. exists (lo + j). split.
    + split; [lia|]. destruct hi as [h|]; [lia|done].
    + by eapply iter_app.
Qed.

(** A successful search is a successful run from some position. *)
Lemma search_inv r : ∀ s p i j st,
  search ic ml r p s i = Some (j, st) →
  ∃ p' s', m ic ml r Some (MState p' s' ∅) = Some st
           ∧ length s = (j - i) + length s' ∧ i ≤ j
           ∧ (j = i → p' = p ∧ s' = s).
Proof.
  induction s as [|c tl IH]; intros p i j st; simpl.
  - destruct (m ic ml r Some _) eqn:E; [|done]. intros [= <- <-].
    exists p, []. split; [done|]. split; [simpl; lia|]. done.
  - destruct (m ic ml r Some _) eqn:E.
    + intros [= <- <-]. exists p, (c :: tl). split; [done|].
      split; [simpl; lia|]. done.
    + intros H. apply IH in H as (p' & s' & Hm & Hl & Hij & _).
      exists p', s'. split; [done|]. split; [simpl; lia|].
      split; [lia|]. lia.
Qed.
End Sound.

(** *** Captures that every match defines *)

Lemma clear_caps_other gs st n :
  n ∉ gs → caps (clear_caps gs st) !! n = caps st !! n.
Proof.
  unfold clear_caps. simpl. induction gs as [|g gs IH]; simpl; [done|].
  intros [Hne Hn]%not_elem_of_cons. rewrite lookup_delete_ne by done. by apply IH.
Qed.

Section Caps.
Variables ic ml : bool.

Lemma stepped_caps p st st' : stepped p st st' → caps st' = caps st.
Proof. by intros (c & tl & _ & _ & ->). Qed.

Lemma matches_caps n r : ∀ st st',
  matches ic ml r st st' →
  (always_sets n r = true → is_Some (caps st' !! n))
  ∧ (n ∉ groups r → caps st' !! n = caps st !! n).
Proof.
  induction r as [a|neg items| | | | | |a IHa b IHb|a IHa b IHb|k a IHa|a IHa lo hi];
    intros st st'; simpl.
  - intros H%stepped_caps. rewrite H. done.
  - intros H%stepped_caps. rewrite H. done.
  - intros H%stepped_caps. rewrite H. done.
  - by intros [_ ->].
  - by intros [_ ->].
  - by intros [_ ->].
  - by intros ->.
  - intros (mid & Ha & Hb).
    pose proof (IHa _ _ Ha) as [Ha1 Ha2]. pose proof (IHb _ _ Hb) as [Hb1 Hb2].
    split.
    + intros [[H1 H2%negb_true_iff%bool_decide_eq_false]%andb_true_iff|H]%orb_true_iff.
      * rewrite Hb2; auto.
      * auto.
    + intros [Hna Hnb]%not_elem_of_app. by rewrite Hb2, Ha2.
  - intros [H|H].
    + pose proof (IHa _ _ H) as [H1 H2]. split.
      * intros [? ?]%andb_true_iff. auto.
      * intros [Hna Hnb]%not_elem_of_app. by apply H2.
    + pose proof (IHb _ _ H) as [H1 H2]. split.
      * intros [? ?]%andb_true_iff. auto.
      * intros [Hna Hnb]%not_elem_of_app. by apply H2.
  - intros (st1 & Ha & ->). pose proof (IHa _ _ Ha) as [H1 H2]. simpl. split.
    + intros [->%Nat.eqb_eq|H]%orb_true_iff.
      * rewrite lookup_insert_eq. eauto.
      * destruct (decide (k = n)) as [->|Hne].
        -- rewrite lookup_insert_eq. eauto.
        -- rewrite lookup_insert_ne; auto.
    + intros [Hne Hna]%not_elem_of_cons. rewrite lookup_insert_ne by done.
      by apply H2.
  - intros (j & [Hj _] & Hit). split.
    + intros [Hlo%Nat.ltb_lt Hs]%andb_true_iff.
      assert (Hpos : 0 < j) by lia. clear Hj Hlo.
      revert st Hit Hpos. induction j as [|j IHj]; intros st Hit Hpos; [lia|].
      destruct Hit as (mid & Hm & Hit).
      destruct j as [|j].
      * simpl in Hit. subst st'. by apply (IHa _ _ Hm).
      * apply (IHj mid); [done|lia].
    + intros Hn. clear Hj.
      revert st Hit. induction j as [|j IHj]; intros st Hit.
      * simpl in Hit. by subst.
      * destruct Hit as (mid & Hm & Hit). rewrite (IHj _ Hit).
        pose proof (IHa _ _ Hm) as [_ H2]. rewrite H2 by done.
        by apply clear_caps_other.
Qed.
End Caps.

(** A group that every match of the pattern defines is defined in the
    array [exec] returns. *)
Lemma exec_group_defined r s mt n :
  always_sets n (ast r) = true → exec r s = Some mt → is_Some (group mt n).
Proof.
  intros Hs. unfold exec, exec_from.
  destruct (_ <? _)%nat; [done|].
  destruct (search _ _ _ _ _ _) as [[i st]|] eqn:E; [|done].
  intros [= <-]. unfold group, mk_match. simpl.
  apply search_inv in E as (p' & s' & Hm & _).
  apply m_sound in Hm as (st' & Hmt & [= ->]).
  apply (matches_caps _ _ n) in Hmt as [H _].
  rewrite lookup_fmap. destruct (H Hs) as [w ->]. by eexists.
Qed.

End RegexFacts.

(** ** Named-entry extraction *)

Module NamedEntriesFacts.
Import monsterParser NamedEntries.

Lemma title_groups line mt :
  Regex.exec regex.title line = Some mt →
  ∃ n d, Regex.group mt 1 = Some n ∧ Regex.group mt 2 = Some d.
Proof.
  intros H.
  destruct (RegexFacts.exec_group_defined regex.title line mt 1 eq_refl H) as [n Hn].
  destruct (RegexFacts.exec_group_defined regex.title line mt 2 eq_refl H) as [d Hd].
  eauto.
Qed.

(** The loop of the source computes [entries_from]. *)
Lemma named_loop_entries ls : ∀ res cur,
  named_loop ls res cur = Ok (res ++ entries_from ls cur).
Proof.
  induction ls as [|l tl IH]; intros res cur; simpl.
  - destruct cur; simpl; [done|]. by rewrite app_nil_r.
  - unfold title_entry.
    destruct (Regex.exec regex.title (TaggedLine.line l)) as [mt|] eqn:E.
    + destruct (title_groups _ _ E) as (n & d & Hn & Hd).
      rewrite Hn, Hd. simpl. rewrite IH. destruct cur; simpl.
      * by rewrite <- app_assoc.
      * done.
    + rewrite IH. destruct cur; done.
Qed.

Lemma extract_entries (bl : gmap string (list TaggedLine.t)) id h ls :
  bl !! id = Some (h :: ls) →
  _extractNamedEntries bl id = Ok (entries_from ls None).
Proof.
  intros H. unfold _extractNamedEntries. rewrite H. apply named_loop_entries.
Qed.

Lemma entries_title l tl cur e :
  title_entry (TaggedLine.line l) = Some e →
  entries_from (l :: tl) cur = option_list cur ++ entries_from tl (Some e).
Proof. intros H. simpl. by rewrite H. Qed.

(** Everything before a title line is settled when that line is reached. *)
Lemma entries_split_at_title pre : ∀ t tl cur,
  is_Some (title_entry (TaggedLine.line t)) →
  entries_from (pre ++ t :: tl) cur
  = entries_from pre cur ++ entries_from (t :: tl) None.
Proof.
  induction pre as [|p pre IH]; intros t tl cur [e He].
  - simpl. rewrite He. done.
  - simpl. destruct (title_entry (TaggedLine.line p)) as [e'|].
    + rewrite IH by eauto. by rewrite app_assoc.
    + apply IH. eauto.
Qed.

(** Lines that are not titles extend the current entry. *)
Lemma entries_continue cs : ∀ post e,
  Forall (λ c, title_entry (TaggedLine.line c) = None) cs →
  entries_from (cs ++ post) (Some e) = entries_from post (Some (continued e cs)).
Proof.
  induction cs as [|c cs IH]; intros post e Hcs; [done|].
  inversion Hcs as [|?? Hc Hcs']; subst. simpl. rewrite Hc. simpl.
  by rewrite IH.
Qed.

(** Without a current entry, lines that are not titles are dropped. *)
Lemma entries_drop pre : ∀ post,
  Forall (λ c, title_entry (TaggedLine.line c) = None) pre →
  entries_from (pre ++ post) None = entries_from post None.
Proof.
  induction pre as [|c pre IH]; intros post Hpre; [done|].
  inversion Hpre as [|?? Hc Hpre']; subst. simpl. rewrite Hc. simpl.
  by apply IH.
Qed.

Lemma entries_group pre t cs post e :
  title_entry (TaggedLine.line t) = Some e →
  Forall (λ c, title_entry (TaggedLine.line c) = None) cs →
  (post = [] ∨ ∃ t' post', post = t' :: post'
                          ∧ is_Some (title_entry (TaggedLine.line t'))) →
  entries_from (pre ++ t :: cs ++ post) None
  = entries_from pre None ++ continued e cs :: entries_from post None.
Proof.
  intros He Hcs Hpost.
  rewrite entries_split_at_title by eauto. f_equal.
  rewrite (entries_title _ _ _ _ He). simpl.
  rewrite entries_continue by done.
  destruct Hpost as [->|(t' & post' & -> & [e' He'])]; [done|].
  rewrite !(entries_title _ _ _ _ He'). done.
Qed.
End NamedEntriesFacts.

(** C4.  Named-entry continuation.  With any header line, the two lines
    "Multiattack. The creature makes two attacks." and "Bite. Melee Weapon
    Attack: +5 to hit..." give exactly two entries.  In general, a title
    line [t] of a section starts a new entry; the lines [cs] after it that
    are not titles are appended to its description, each after a single
    space, up to the next title line or the end of the section; what comes
    before and after [t] and [cs] gives the entries it would give alone. *)
Theorem named_entry_continuation :
  (∀ (bl : gmap string (list TaggedLine.t)) id h i j,
     bl !! id = Some [h;
       NamedEntries.tl_ i "Multiattack. The creature makes two attacks.";
       NamedEntries.tl_ j "Bite. Melee Weapon Attack: +5 to hit..."] →
     monsterParser._extractNamedEntries bl id
     = Ok [ {| NamedEntry.name := "Multiattack";
               NamedEntry.description := "The creature makes two attacks." |};
            {| NamedEntry.name := "Bite";
               NamedEntry.description := "Melee Weapon Attack: +5 to hit..." |} ])
  ∧
  (∀ (bl : gmap string (list TaggedLine.t)) id h pre t cs post e,
     bl !! id = Some (h :: pre ++ t :: cs ++ post) →
     NamedEntries.title_entry (TaggedLine.line t) = Some e →
     Forall (λ c, NamedEntries.title_entry (TaggedLine.line c) = None) cs →
     (post = [] ∨ ∃ t' post', post = t' :: post'
        ∧ is_Some (NamedEntries.title_entry (TaggedLine.line t'))) →
     ∃ before after,
       monsterParser._extractNamedEntries (<[id := h :: pre]> bl) id = Ok before
       ∧ monsterParser._extractNamedEntries (<[id := h :: post]> bl) id = Ok after
       ∧ monsterParser._extractNamedEntries bl id
         = Ok (before ++ NamedEntries.continued e cs :: after)).
Proof.
  split.
  - intros bl id h i j H.
    rewrite (NamedEntriesFacts.extract_entries _ _ _ _ H). by vm_compute.
  - intros bl id h pre t cs post e H He Hcs Hpost.
    exists (NamedEntries.entries_from pre None), (NamedEntries.entries_from post None).
    split; [|split].
    + apply (NamedEntriesFacts.extract_entries _ _ h). apply lookup_insert_eq.
    + apply (NamedEntriesFacts.extract_entries _ _ h). apply lookup_insert_eq.
    + rewrite (NamedEntriesFacts.extract_entries _ _ _ _ H).
      f_equal. by apply NamedEntriesFacts.entries_group.
Qed.

Lemma named_entry_continuation_witness :
  monsterParser._extractNamedEntries
    {[ "actions" := [NamedEntries.tl_ 0 "Actions";
                     NamedEntries.tl_ 1 "Bite. Melee Weapon Attack.";
                     NamedEntries.tl_ 2 "Hit: 5 piercing damage"] ]} "actions"
  = Ok [ {| NamedEntry.name := "Bite";
            NamedEntry.description := "Melee Weapon Attack. Hit: 5 piercing damage" |} ].
Proof.
  destruct named_entry_continuation as [_ H].
  edestruct (H {[ "actions" := [NamedEntries.tl_ 0 "Actions";
                                NamedEntries.tl_ 1 "Bite. Melee Weapon Attack.";
                                NamedEntries.tl_ 2 "Hit: 5 piercing damage"] ]}
               "actions" (NamedEntries.tl_ 0 "Actions") []
               (NamedEntries.tl_ 1 "Bite. Melee Weapon Attack.")
               [NamedEntries.tl_ 2 "Hit: 5 piercing damage"] [])
    as (before & after & Hb & Ha & Hr).
  - vm_compute. reflexivity.
  - vm_compute. reflexivity.
  - repeat constructor.
  - left. reflexivity.
  - rewrite Hr. vm_compute in Hb, Ha.
    injection Hb as <-. injection Ha as <-. vm_compute. reflexivity.
Defined.

(** C10.  The first line of a section's buffer is skipped whatever it is;
    the lines after it that precede the first title line belong to no
    entry; so a buffer whose first line is itself a titled entry loses
    that entry, together with its continuation lines. *)
Theorem header_line_skipped :
  (∀ (bl : gmap string (list TaggedLine.t)) id h h' rest,
     bl !! id = Some (h :: rest) →
     monsterParser._extractNamedEntries bl id
     = monsterParser._extractNamedEntries (<[id := h' :: rest]> bl) id)
  ∧
  (∀ (bl : gmap string (list TaggedLine.t)) id h pre rest,
     bl !! id = Some (h :: pre ++ rest) →
     Forall (λ c, NamedEntries.title_entry (TaggedLine.line c) = None) pre →
     monsterParser._extractNamedEntries bl id
     = monsterParser._extractNamedEntries (<[id := h :: rest]> bl) id)
  ∧
  (∀ (bl : gmap string (list TaggedLine.t)) id t cs rest h',
     bl !! id = Some (t :: cs ++ rest) →
     is_Some (NamedEntries.title_entry (TaggedLine.line t)) →
     Forall (λ c, NamedEntries.title_entry (TaggedLine.line c) = None) cs →
     monsterParser._extractNamedEntries bl id
     = monsterParser._extractNamedEntries (<[id := h' :: rest]> bl) id)
  ∧
  monsterParser._extractNamedEntries
    {[ "features" := [NamedEntries.tl_ 0 "Keen Smell. The wolf has advantage on";
                      NamedEntries.tl_ 1 "Perception checks that rely on smell";
                      NamedEntries.tl_ 2 "Pack Tactics. The wolf has advantage"] ]}
    "features"
  = Ok [ {| NamedEntry.name := "Pack Tactics";
            NamedEntry.description := "The wolf has advantage" |} ].
Proof.
  split; [|split; [|split]].
  - intros bl id h h' rest H.
    rewrite (NamedEntriesFacts.extract_entries _ _ _ _ H).
    symmetry. apply (NamedEntriesFacts.extract_entries _ _ h'). apply lookup_insert_eq.
  - intros bl id h pre rest H Hpre.
    rewrite (NamedEntriesFacts.extract_entries _ _ _ _ H).
    rewrite NamedEntriesFacts.entries_drop by done.
    symmetry. apply (NamedEntriesFacts.extract_entries _ _ h). apply lookup_insert_eq.
  - intros bl id t cs rest h' H _ Hcs.
    rewrite (NamedEntriesFacts.extract_entries _ _ _ _ H).
    rewrite NamedEntriesFacts.entries_drop by done.
    symmetry. apply (NamedEntriesFacts.extract_entries _ _ h'). apply lookup_insert_eq.
  - by vm_compute.
Qed.

Lemma header_line_skipped_witness :
  monsterParser._extractNamedEntries
    {[ "features" := [NamedEntries.tl_ 0 "Keen Smell. The wolf smells well."] ]}
    "features"
  = monsterParser._extractNamedEntries
      (<["features" := [NamedEntries.tl_ 7 "Features"] ]>
         {[ "features" := [NamedEntries.tl_ 0 "Keen Smell. The wolf smells well."] ]})
      "features".
Proof.
  destruct header_line_skipped as [H _].
  apply (H {[ "features" := [NamedEntries.tl_ 0 "Keen Smell. The wolf smells well."] ]}
           "features" (NamedEntries.tl_ 0 "Keen Smell. The wolf smells well.")
           (NamedEntries.tl_ 7 "Features") []).
  vm_compute. reflexivity.
Defined.

(** ** Failure semantics of the extractors and of [parseMonster] *)

Module ExtractorFacts.
Import monsterParser Sections.

Lemma defined_ok r s mt n :
  RegexSem.always_sets n (Regex.ast r) = true →
  Regex.exec r s = Some mt →
  ∃ t, Regex.group mt n = Some t ∧ defined (Regex.group mt n) = Ok t.
Proof.
  intros Hs H.
  destruct (RegexFacts.exec_group_defined r s mt n Hs H) as [t Ht].
  exists t. by rewrite Ht.
Qed.

Lemma first_match_ok {A} (bl : gmap string (list TaggedLine.t)) id r (d : A) f :
  (∀ s mt, Regex.exec r s = Some mt → ∃ v, f mt = Ok v) →
  ∃ v, first_match bl id r d f = Ok v.
Proof.
  intros Hf. unfold first_match.
  destruct (bl !! id) as [[|e tl]|]; eauto.
  destruct (Regex.exec r (TaggedLine.line e)) eqn:E; eauto.
Qed.

Lemma first_match_default {A} (bl : gmap string (list TaggedLine.t)) id r (d : A) f :
  unmatched bl id r → first_match bl id r d f = Ok d.
Proof.
  unfold first_match. intros [[->| ->]|(e & tl & -> & ->)]; done.
Qed.

(** A loop of [push]es over results that are all [Ok]. *)
Lemma mapM_id_ok {A} (l : list (result A)) :
  Forall (λ x, ∃ v, x = Ok v) l → ∃ vs, mapM (λ x, x) l = Ok vs.
Proof.
  induction 1 as [|x l [v ->] _ [vs IH]]; simpl; [by eexists|].
  rewrite IH. simpl. by eexists.
Qed.

Lemma mapM_ok {A B} (f : A → result B) (l : list A) :
  (∀ x, ∃ v, f x = Ok v) → ∃ vs, mapM f l = Ok vs.
Proof.
  intros Hf. induction l as [|x l [vs IH]]; simpl; [by eexists|].
  destruct (Hf x) as [v ->]. simpl. rewrite IH. simpl. by eexists.
Qed.

Lemma Forall_omap_ok {A B} (g : A → option (result B)) l :
  (∀ x y, g x = Some y → ∃ v, y = Ok v) →
  Forall (λ y, ∃ v, y = Ok v) (omap g l).
Proof.
  intros Hg. induction l as [|x l IH]; simpl; [constructor|].
  destruct (g x) eqn:E; [|done]. constructor; eauto.
Qed.

Ltac use_group r n H :=
  let t := fresh "t" in
  let Ht := fresh "Ht" in
  let Hd := fresh "Hd" in
  destruct (defined_ok r _ _ n eq_refl H) as (t & Ht & Hd); rewrite Hd; simpl.

Lemma _extractType_ok bl : ∃ v, _extractType bl = Ok v.
Proof.
  apply first_match_ok. intros s mt H. use_group regex.racialDetails 2 H.
  by eexists.
Qed.

Lemma _extractSize_ok bl : ∃ v, _extractSize bl = Ok v.
Proof.
  apply first_match_ok. intros s mt H. use_group regex.racialDetails 1 H.
  by eexists.
Qed.

Lemma _extractAlignment_ok bl : ∃ v, _extractAlignment bl = Ok v.
Proof.
  apply first_match_ok. intros s mt H. use_group regex.racialDetails 5 H.
  by eexists.
Qed.

Lemma _extractAC_ok bl : ∃ v, _extractAC bl = Ok v.
Proof. apply first_match_ok. intros s mt H. by eexists. Qed.

Lemma _extractHP_ok bl : ∃ v, _extractHP bl = Ok v.
Proof. apply first_match_ok. intros s mt H. by eexists. Qed.

Lemma _extractSpeed_ok bl : ∃ v, _extractSpeed bl = Ok v.
Proof.
  apply first_match_ok. intros s mt H. use_group regex.speed 1 H. by eexists.
Qed.

Lemma abilities_loop_ok ls : ∀ acc, ∃ v, abilities_loop ls acc = Ok v.
Proof.
  induction ls as [|l ls IH]; intros acc; simpl; [by eexists|].
  destruct (Regex.exec regex.abilities (TaggedLine.line l)) as [mt|] eqn:E; [|done].
  use_group regex.abilities 1 E. apply IH.
Qed.

Lemma _extractAbilities_ok bl : ∃ v, _extractAbilities bl = Ok v.
Proof.
  unfold _extractAbilities. destruct (bl !! "abilities") as [[|e tl]|]; eauto.
  apply abilities_loop_ok.
Qed.

Lemma _extractSavingThrows_ok bl : ∃ v, _extractSavingThrows bl = Ok v.
Proof.
  apply first_match_ok. intros s mt H. use_group regex.savingThrows 1 H.
  apply mapM_id_ok, Forall_omap_ok. intros x y.
  destruct (Regex.exec regex.saveType x) as [tm|] eqn:E; [|done].
  intros [= <-]. use_group regex.saveType 1 E. by eexists.
Qed.

Lemma _extractSkills_ok bl : ∃ v, _extractSkills bl = Ok v.
Proof.
  apply first_match_ok. intros s mt H. use_group regex.skills 1 H.
  apply mapM_id_ok, Forall_omap_ok. intros x y.
  destruct (Regex.exec regex.skillType x) as [tm|] eqn:E; [|done].
  intros [= <-]. use_group regex.skillType 1 E. by eexists.
Qed.

Lemma _extractDamageCondition_ok bl id r :
  regexMap id = Some r → RegexSem.always_sets 1 (Regex.ast r) = true →
  ∃ v, _extractDamageCondition bl id = Ok v.
Proof.
  intros Hr Hs. unfold _extractDamageCondition. rewrite Hr.
  destruct (bl !! id) as [[|e tl]|]; eauto.
  destruct (Regex.exec r (TaggedLine.line e)) as [mt|] eqn:E; eauto.
  destruct (defined_ok r _ _ 1 Hs E) as (t & Ht & ->). simpl. by eexists.
Qed.

Lemma _extractSenses_ok bl : ∃ v, _extractSenses bl = Ok v.
Proof.
  apply first_match_ok. intros s mt H. use_group regex.senses 1 H.
  apply mapM_ok. intros x.
  destruct (Regex.exec regex.senseType x) as [tm|] eqn:E; [|by eexists].
  use_group regex.senseType 1 E. by eexists.
Qed.

Lemma _extractLanguages_ok bl : ∃ v, _extractLanguages bl = Ok v.
Proof.
  apply first_match_ok. intros s mt H. use_group regex.languages 1 H.
  by eexists.
Qed.

Lemma _extractChallenge_ok bl : ∃ v, _extractChallenge bl = Ok v.
Proof.
  apply first_match_ok. intros s mt H.
  use_group regex.challenge 1 H. use_group regex.challenge 2 H.
  destruct (Regex.exec regex.xp t0) as [xm|] eqn:E.
  - use_group regex.xp 1 E. by eexists.
  - simpl. by eexists.
Qed.

Lemma _extractNamedEntries_ok bl id : ∃ v, _extractNamedEntries bl id = Ok v.
Proof.
  unfold _extractNamedEntries. destruct (bl !! id) as [[|e tl]|]; eauto.
  rewrite NamedEntriesFacts.named_loop_entries. by eexists.
Qed.

Lemma _extractOtherInfo_ok bl : ∃ v, _extractOtherInfo bl = Ok v.
Proof.
  unfold _extractOtherInfo. destruct (bl !! "otherBlock") as [[|e tl]|]; eauto.
Qed.

(** The assembled record holds what the extractors return. *)
Lemma assemble_fields name bl rec :
  assemble name bl = Ok rec →
  MonsterData.name rec = name
  ∧ _extractType bl = Ok (MonsterData.type rec)
  ∧ _extractSize bl = Ok (MonsterData.size rec)
  ∧ _extractAlignment bl = Ok (MonsterData.alignment rec)
  ∧ _extractAC bl = Ok (MonsterData.ac rec)
  ∧ _extractHP bl = Ok (MonsterData.hp rec)
  ∧ _extractSpeed bl = Ok (MonsterData.speed rec)
  ∧ _extractAbilities bl = Ok (MonsterData.abilities rec)
  ∧ _extractSavingThrows bl = Ok (MonsterData.savingThrows rec)
  ∧ _extractSkills bl = Ok (MonsterData.skills rec)
  ∧ _extractDamageVulnerabilities bl = Ok (MonsterData.damageVulnerabilities rec)
  ∧ _extractDamageResistances bl = Ok (MonsterData.damageResistances rec)
  ∧ _extractDamageImmunities bl = Ok (MonsterData.damageImmunities rec)
  ∧ _extractConditionImmunities bl = Ok (MonsterData.conditionImmunities rec)
  ∧ _extractSenses bl = Ok (MonsterData.senses rec)
  ∧ _extractLanguages bl = Ok (MonsterData.languages rec)
  ∧ _extractChallenge bl = Ok (MonsterData.challenge rec)
  ∧ _extractFeatures bl = Ok (MonsterData.features rec)
  ∧ _extractActions bl = Ok (MonsterData.actions rec)
  ∧ _extractBonusActions bl = Ok (MonsterData.bonusActions rec)
  ∧ _extractReactions bl = Ok (MonsterData.reactions rec)
  ∧ _extractLegendaryActions bl = Ok (MonsterData.legendaryActions rec)
  ∧ _extractLairActions bl = Ok (MonsterData.lairActions rec)
  ∧ _extractMythicActions bl = Ok (MonsterData.mythicActions rec)
  ∧ _extractVillainActions bl = Ok (MonsterData.villainActions rec)
  ∧ _extractOtherInfo bl = Ok (MonsterData.otherInfo rec).
Proof.
  unfold assemble. intros H.
  repeat match type of H with
         | (mbind _ ?x) = Ok _ =>
             let E := fresh "E" in
             destruct x eqn:E; simpl in H; [|discriminate H]
         end.
  simpl in H. injection H as <-. simpl. repeat split; assumption.
Qed.

Lemma assemble_ok name bl : ∃ rec, assemble name bl = Ok rec.
Proof.
  unfold assemble.
  destruct (_extractType_ok bl) as [? ->].
  destruct (_extractSize_ok bl) as [? ->].
  destruct (_extractAlignment_ok bl) as [? ->].
  destruct (_extractAC_ok bl) as [? ->].
  destruct (_extractHP_ok bl) as [? ->].
  destruct (_extractSpeed_ok bl) as [? ->].
  destruct (_extractAbilities_ok bl) as [? ->].
  destruct (_extractSavingThrows_ok bl) as [? ->].
  destruct (_extractSkills_ok bl) as [? ->].
  destruct (_extractDamageCondition_ok bl "damageVulnerabilities" _ eq_refl eq_refl)
    as [? H1]; unfold _extractDamageVulnerabilities; rewrite H1.
  destruct (_extractDamageCondition_ok bl "damageResistances" _ eq_refl eq_refl)
    as [? H2]; unfold _extractDamageResistances; rewrite H2.
  destruct (_extractDamageCondition_ok bl "damageImmunities" _ eq_refl eq_refl)
    as [? H3]; unfold _extractDamageImmunities; rewrite H3.
  destruct (_extractDamageCondition_ok bl "conditionImmunities" _ eq_refl eq_refl)
    as [? H4]; unfold _extractConditionImmunities; rewrite H4.
  destruct (_extractSenses_ok bl) as [? ->].
  destruct (_extractLanguages_ok bl) as [? ->].
  destruct (_extractChallenge_ok bl) as [? ->].
  unfold _extractFeatures, _extractActions, _extractBonusActions,
    _extractReactions, _extractLegendaryActions, _extractLairActions,
    _extractMythicActions, _extractVillainActions.
  destruct (_extractNamedEntries_ok bl "features") as [? ->].
  destruct (_extractNamedEntries_ok bl "actions") as [? ->].
  destruct (_extractNamedEntries_ok bl "bonusActions") as [? ->].
  destruct (_extractNamedEntries_ok bl "reactions") as [? ->].
  destruct (_extractNamedEntries_ok bl "legendaryActions") as [? ->].
  destruct (_extractNamedEntries_ok bl "lairActions") as [? ->].
  destruct (_extractNamedEntries_ok bl "mythicActions") as [? ->].
  destruct (_extractNamedEntries_ok bl "villainActions") as [? ->].
  destruct (_extractOtherInfo_ok bl) as [? ->].
  simpl. by eexists.
Qed.

(** Defaults of the sections that are not there. *)

Lemma _extractDamageCondition_default bl id r :
  regexMap id = Some r → unmatched bl id r → _extractDamageCondition bl id = Ok [].
Proof.
  intros Hr. unfold _extractDamageCondition. rewrite Hr.
  intros [[->| ->]|(e & tl & -> & ->)]; done.
Qed.

Lemma abilities_loop_none ls acc :
  Forall (λ e, Regex.exec regex.abilities (TaggedLine.line e) = None) ls →
  abilities_loop ls acc = Ok acc.
Proof.
  induction 1 as [|e ls He _ IH]; simpl; [done|]. by rewrite He.
Qed.

Lemma _extractAbilities_default bl :
  no_line_matches bl "abilities" regex.abilities → _extractAbilities bl = Ok ∅.
Proof.
  unfold _extractAbilities. intros [[->| ->]|(ls & -> & Hls)]; [done..|].
  destruct ls; [done|]. by apply abilities_loop_none.
Qed.

Lemma _extractNamedEntries_default bl id :
  missing bl id → _extractNamedEntries bl id = Ok [].
Proof. unfold _extractNamedEntries. by intros [->| ->]. Qed.

Lemma _extractOtherInfo_default bl :
  missing bl "otherBlock" → _extractOtherInfo bl = Ok [].
Proof. unfold _extractOtherInfo. by intros [->| ->]. Qed.
End ExtractorFacts.

Module ParseFacts.
Import monsterParser.

(** The result of [parseMonster] is that of [parse_cleaned] on the text
    [_cleanInput] returns. *)
Lemma parseMonster_cleaned {U} (strip : string → U → string * U) σ content :
  fst (parseMonster strip σ content)
  = parse_cleaned (fst (_cleanInput strip σ content)).
Proof.
  unfold parseMonster. by destruct (_cleanInput strip σ content).
Qed.
End ParseFacts.

(** ** Ability scores *)

Module AbilitiesFacts.
Import monsterParser Abilities.

Lemma abilities_loop_absent a ls : ∀ acc scores,
  Forall (λ e, ¬ sets_score a e) ls →
  abilities_loop ls acc = Ok scores → scores !! a = acc !! a.
Proof.
  induction ls as [|e ls IH]; intros acc scores Hls; simpl.
  - by intros [= ->].
  - inversion Hls as [|?? He Hls']; subst.
    destruct (Regex.exec regex.abilities (TaggedLine.line e)) as [mt|] eqn:E.
    + destruct (ExtractorFacts.defined_ok regex.abilities _ _ 1 eq_refl E)
        as (t & Ht & ->). simpl. intros H.
      rewrite (IH _ _ Hls' H). apply lookup_insert_ne.
      intros Heq. apply He. by exists mt, t.
    + by apply IH.
Qed.

Lemma _extractAbilities_absent a bl scores :
  (∀ ls, bl !! "abilities" = Some ls → Forall (λ e, ¬ sets_score a e) ls) →
  _extractAbilities bl = Ok scores → scores !! a = None.
Proof.
  unfold _extractAbilities. intros Hls.
  destruct (bl !! "abilities") as [[|e tl]|] eqn:E; try by intros [= <-].
  intros H. by rewrite (abilities_loop_absent a _ _ _ (Hls _ eq_refl) H).
Qed.

Lemma _buildAbilities_lookup scores a :
  a ∈ abilityNames →
  actorBuilder._buildAbilities scores !! a
  = Some {| AbilityValue.value := or_default (scores !! a) |}.
Proof.
  unfold actorBuilder._buildAbilities, abilityNames, or_default. simpl.
  intros H. repeat (apply elem_of_cons in H as [->|H]; [by simplify_map_eq|]).
  by apply elem_of_nil in H.
Qed.

Lemma set_score_other k r line m a :
  k ≠ a → contentParser.set_score k r line m !! a = m !! a.
Proof.
  intros Hne. unfold contentParser.set_score.
  destruct (Regex.exec r line); [|done]. by apply lookup_insert_ne.
Qed.

Lemma set_score_none k r line m :
  Regex.exec r line = None → contentParser.set_score k r line m = m.
Proof. intros H. unfold contentParser.set_score. by rewrite H. Qed.

Lemma fallback_keeps_default a r lines : ∀ acc,
  (a, r) ∈ fallback_table →
  Forall (λ l, Regex.exec r l = None) lines →
  fold_left
    (λ abilities line,
       if Regex.test contentParser.regex.anyAbility line then
         contentParser.set_score "cha" contentParser.regex.cha line
           (contentParser.set_score "wis" contentParser.regex.wis line
              (contentParser.set_score "int" contentParser.regex.int line
                 (contentParser.set_score "con" contentParser.regex.con line
                    (contentParser.set_score "dex" contentParser.regex.dex line
                       (contentParser.set_score "str" contentParser.regex.str
                          line abilities)))))
       else abilities) lines acc !! a
  = acc !! a.
Proof.
  intros acc Hr Hl. revert acc.
  induction Hl as [|l lines Hl _ IH]; intros acc; simpl; [done|].
  rewrite IH. destruct (Regex.test _ l); [|done].
  unfold fallback_table in Hr.
  repeat (apply elem_of_cons in Hr as [[= -> ->]|Hr];
          [repeat first [ rewrite (set_score_none _ _ _ _ Hl)
                        | rewrite set_score_other by done ]; done|]).
  by apply elem_of_nil in Hr.
Qed.
End AbilitiesFacts.

(** C5, as the code has it.  The abilities field of the record
    [parseMonster] assembles holds the scores of the ability lines that
    matched and nothing else: an ability that no line of the abilities
    section sets is absent from it.  The default of 10 is applied by the
    consumers: [actorBuilder._buildAbilities] gives each of the six
    abilities its parsed score when that is present and not 0 or NaN, and
    10 otherwise; the fallback [contentParser._extractAbilityScores] holds
    10 for each of the six whose pattern matches no line. *)
Theorem abilities_defaulted_downstream :
  (∀ (U : Type) (strip : string → U → string * U) (σ : store U) content rec a,
     fst (monsterParser.parseMonster strip σ content) = Ok rec →
     ∃ name lines,
       monsterParser.nonblank_lines
         (fst (monsterParser._cleanInput strip σ content)) = name :: lines
       ∧ ((∀ ls, monsterParser._parseIntoBlocks lines !! "abilities" = Some ls →
                 Forall (λ e, ¬ Abilities.sets_score a e) ls) →
          MonsterData.abilities rec !! a = None))
  ∧ (∀ scores a, a ∈ abilityNames →
       actorBuilder._buildAbilities scores !! a
       = Some {| AbilityValue.value := Abilities.or_default (scores !! a) |})
  ∧ (∀ lines a r, (a, r) ∈ Abilities.fallback_table →
       Forall (λ l, Regex.exec r l = None) lines →
       contentParser._extractAbilityScores lines !! a = Some 10%float).
Proof.
  split; [|split].
  - intros U strip σ content rec a.
    unfold monsterParser.parseMonster.
    destruct (monsterParser._cleanInput strip σ content) as [cleaned σ'] eqn:Ec.
    simpl. unfold monsterParser.parse_cleaned.
    destruct (monsterParser.nonblank_lines cleaned) as [|name lines]; [done|].
    intros H. exists name, lines. split; [done|]. intros Hls.
    apply ExtractorFacts.assemble_fields in H.
    destruct H as (_ & _ & _ & _ & _ & _ & _ & Hab & _).
    by apply (AbilitiesFacts._extractAbilities_absent a _ _ Hls).
  - apply AbilitiesFacts._buildAbilities_lookup.
  - intros lines a r Hr Hl. unfold contentParser._extractAbilityScores.
    rewrite (AbilitiesFacts.fallback_keeps_default a r lines _ Hr Hl).
    unfold Abilities.fallback_table in Hr.
    repeat (apply elem_of_cons in Hr as [[= -> ->]|Hr]; [by vm_compute|]).
    by apply elem_of_nil in Hr.
Qed.

Lemma abilities_defaulted_downstream_witness :
  actorBuilder._buildAbilities {[ "str" := 8%float ]} !! "dex"
  = Some {| AbilityValue.value := 10%float |}.
Proof.
  destruct abilities_defaulted_downstream as (_ & H & _).
  rewrite (H {[ "str" := 8%float ]} "dex").
  - vm_compute. reflexivity.
  - unfold abilityNames. repeat constructor.
Defined.

(** C5, as the specification has it, fails: a statblock with the single
    ability line [STR 8 (-1)] is parsed into a record whose abilities are
    [{str: 8}]; the other five scores are undefined, not 10. *)
Lemma abilities_left_undefined :
  ∃ rec,
    fst (monsterParser.parseMonster plain σ0 ("Goblin" ++ nl ++ "STR 8 (-1)")) = Ok rec
    ∧ MonsterData.abilities rec = {[ "str" := 8%float ]}
    ∧ MonsterData.abilities rec !! "dex" = None.
Proof. eexists. repeat apply conj; vm_compute; reflexivity. Qed.

(** ** Runs of the matcher on inputs of a known shape *)

Module MatchFacts.
Import Regex MatchShape.

Lemma chars_app s1 s2 :
  JsString.chars (s1 ++ s2) = JsString.chars s1 ++ JsString.chars s2.
Proof. induction s1 as [|c s1 IH]; simpl; [done|]. by rewrite <- IH. Qed.

Lemma of_chars_chars s : JsString.of_chars (JsString.chars s) = s.
Proof. apply string_of_list_ascii_of_string. Qed.

Lemma chars_of_chars l : JsString.chars (JsString.of_chars l) = l.
Proof. apply list_ascii_of_string_of_list_ascii. Qed.

Lemma of_chars_app l1 l2 :
  JsString.of_chars (l1 ++ l2)
  = (JsString.of_chars l1 ++ JsString.of_chars l2)%string.
Proof. induction l1 as [|c l1 IH]; simpl; [done|]. by rewrite IH. Qed.

Lemma clear_caps_nil st : clear_caps [] st = st.
Proof. by destruct st. Qed.

Lemma prev_after_cons pv c w : prev_after pv (c :: w) = prev_after (Some c) w.
Proof.
  unfold prev_after. rewrite last_cons. by destruct (last w).
Qed.

Lemma consumed_app pv pv' w tl cp cp' :
  consumed (MState pv (w ++ tl) cp) (MState pv' tl cp') = w.
Proof.
  unfold consumed. simpl. rewrite length_app.
  replace (length w + length tl - length tl) with (length w) by lia.
  by rewrite take_app_length.
Qed.

Section Greedy.
Variables ic ml : bool.

Lemma m_single a p k st :
  char_pred ic a = Some p →
  m ic ml a k (clear_caps (groups a) st) = step_char p k st.
Proof.
  destruct a; simpl; try done; intros [= <-]; by rewrite clear_caps_nil.
Qed.

(** The optional iterations of a quantified one-code-unit pattern take
    the whole run [w] when the continuation accepts what follows. *)
Lemma rep_hi_run a p k tl cp x : ∀ w n pv,
  char_pred ic a = Some p →
  Forall (λ c, p c = true) w → stops p tl → length w ≤ n →
  k (MState (prev_after pv w) tl cp) = Some x →
  rep_hi (λ k' st', m ic ml a k' (clear_caps (groups a) st')) n k
    (MState pv (w ++ tl) cp) = Some x.
Proof.
  intros w n pv Ha Hw Htl. revert n pv.
  induction Hw as [|c w Hc _ IH]; intros n pv Hn Hk.
  - destruct n as [|n]; simpl; [done|].
    rewrite (m_single _ _ _ _ Ha). unfold step_char. simpl.
    destruct tl as [|c tl']; [done|]. simpl in Htl. by rewrite Htl.
  - destruct n as [|n]; simpl in Hn; [lia|]. simpl.
    rewrite (m_single _ _ _ _ Ha). unfold step_char. simpl. rewrite Hc.
    simpl.
    replace (length (w ++ tl) <? S (length (w ++ tl)))%nat with true
      by (symmetry; apply Nat.ltb_lt; lia).
    rewrite prev_after_cons in Hk. by rewrite (IH n (Some c)); [|lia|].
Qed.

Lemma m_rep_run a p k tl cp x : ∀ lo w pv,
  char_pred ic a = Some p →
  Forall (λ c, p c = true) w → stops p tl → lo ≤ length w →
  k (MState (prev_after pv w) tl cp) = Some x →
  m ic ml (RRep a lo None) k (MState pv (w ++ tl) cp) = Some x.
Proof.
  intros lo w pv Ha Hw Htl. simpl.
  revert w pv Hw. induction lo as [|lo IH]; intros w pv Hw Hlo Hk.
  - simpl. by apply (rep_hi_run a p); [..|simpl; rewrite length_app; lia|].
  - destruct Hw as [|c w Hc Hw]; simpl in Hlo; [lia|].
    simpl. rewrite (m_single _ _ _ _ Ha). unfold step_char. simpl.
    rewrite Hc. rewrite prev_after_cons in Hk. apply IH; [done|lia|done].
Qed.

(** An optional pattern that cannot start here is skipped. *)
Lemma m_rep_skip a p k st hi x :
  char_pred ic a = Some p → stops p (rest st) → k st = Some x →
  m ic ml (RRep a 0 hi) k st = Some x.
Proof.
  intros Ha Hst Hk. simpl.
  destruct (match hi with Some h => h - 0 | None => length (rest st) end)
    as [|n]; simpl; [done|].
  rewrite (m_single _ _ _ _ Ha). unfold step_char.
  destruct (rest st) as [|c tl]; [done|]. simpl in Hst. by rewrite Hst.
Qed.
End Greedy.

(** A search that succeeds at the first position. *)
Lemma exec_at_start r s st :
  m (ignoreCase (rflags r)) (multiline (rflags r)) (ast r) Some
    (MState None (JsString.chars s) ∅) = Some st →
  exec r s = Some (mk_match 0 (JsString.chars s) st).
Proof.
  unfold exec, exec_from. generalize (JsString.chars s). intros l H.
  simpl in *. rewrite drop_0. destruct l as [|c l]; simpl; by rewrite H.
Qed.

(** [s.replace(/,/g, "")] removes the commas. *)
Lemma replace_comma_go s : ∀ p i,
  replace_go false false (RChar ",") (λ _, ""%string) p s i 0
  = List.filter (λ c, negb (Ascii.eqb "," c)) s.
Proof.
  induction s as [|c s IH]; intros p i; [done|].
  cbn -[Ascii.eqb Nat.sub]. destruct (Ascii.eqb "," c) eqn:E.
  - cbn -[Ascii.eqb Nat.sub].
    replace (S (length s) - length s) with 1 by lia. simpl. apply IH.
  - cbn -[Ascii.eqb Nat.sub]. f_equal. apply IH.
Qed.
End MatchFacts.

(** ** The challenge line *)

Module ChallengeFacts.
Import Regex MatchShape MatchFacts monsterParser Digits.
Local Open Scope char_scope.

Lemma m_lit_step ic ml a r k pv c tl cp :
  m ic ml (RSeq (RChar a) r) k (MState pv (c :: tl) cp)
  = if chr_mem ic a c then m ic ml r k (MState (Some c) tl cp) else None.
Proof. reflexivity. Qed.

Lemma m_char_step ic ml a k pv c tl cp :
  m ic ml (RChar a) k (MState pv (c :: tl) cp)
  = if chr_mem ic a c then k (MState (Some c) tl cp) else None.
Proof. reflexivity. Qed.

Lemma m_bol_start ic ml r k l cp :
  m ic ml (RSeq RBol r) k (MState None l cp) = m ic ml r k (MState None l cp).
Proof. reflexivity. Qed.

Lemma m_seq ic ml a b k st : m ic ml (RSeq a b) k st = m ic ml a (m ic ml b k) st.
Proof. reflexivity. Qed.

Lemma m_group ic ml n a k st :
  m ic ml (RGroup n a) k st
  = m ic ml a (λ st', k (set_cap n (consumed st st') st')) st.
Proof. reflexivity. Qed.

Lemma m_rep0 ic ml a k st :
  m ic ml (RRep a 0 None) k st
  = rep_hi (λ k' st', m ic ml a k' (clear_caps (groups a) st'))
      (length (rest st)) k st.
Proof. reflexivity. Qed.

Lemma m_alt_l ic ml a b k st x :
  m ic ml a k st = Some x → m ic ml (RAlt a b) k st = Some x.
Proof. intros H. simpl. by rewrite H. Qed.

Lemma prev_after_app pv w1 w2 :
  prev_after pv (w1 ++ w2) = prev_after (prev_after pv w1) w2.
Proof.
  revert pv. induction w1 as [|c w1 IH]; intros pv; [done|].
  simpl. by rewrite !prev_after_cons, IH.
Qed.

Lemma consumed_eq pv pv' l w tl cp cp' :
  l = w ++ tl → consumed (MState pv l cp) (MState pv' tl cp') = w.
Proof. intros ->. apply consumed_app. Qed.

Ltac lit_step :=
  first [rewrite m_lit_step | rewrite m_char_step];
  match goal with
  | |- context [chr_mem ?i ?a ?c] =>
      let b := eval vm_compute in (chr_mem i a c) in
      change (chr_mem i a c) with b
  end; cbv iota.

Ltac ascii_cases c :=
  destruct c as [[] [] [] [] [] [] [] []]; vm_compute;
  try reflexivity; try discriminate; try congruence.

Lemma digit_in_class c :
  Char.is_digit c = true → set_mem true false [CDigit] c = true.
Proof. ascii_cases c. Qed.

Lemma digit_not_space c :
  Char.is_digit c = true → set_mem true false [CSpace] c = false.
Proof. ascii_cases c. Qed.

Lemma not_paren_in_class c : c ≠ ")" → set_mem true true [CChar ")"] c = true.
Proof. ascii_cases c. Qed.

Lemma digits_in_class l :
  Forall (λ c, Char.is_digit c = true) l →
  Forall (λ c, set_mem true false [CDigit] c = true) l.
Proof. intros H. eapply Forall_impl; [exact H|]. apply digit_in_class. Qed.

Lemma stops_app p w tl :
  w ≠ [] → Forall (λ c, p c = false) w → stops p (w ++ tl).
Proof. destruct w as [|c w]; [done|]. intros _ H. by inversion H. Qed.

Lemma chars_nonempty s : s ≠ ""%string → JsString.chars s ≠ [].
Proof. by destruct s. Qed.

Lemma challenge_run a b g :
  digit_string a → digit_string b →
  g ≠ [] → Forall (λ c, c ≠ ")") g →
  ∃ st,
    m true false (ast regex.challenge) Some
      (MState None
         (JsString.chars "Challenge " ++ JsString.chars a ++ "/" :: JsString.chars b
          ++ " " :: "(" :: g ++ [")"]) ∅) = Some st
    ∧ caps st !! 1 = Some (JsString.chars a ++ "/" :: JsString.chars b)
    ∧ caps st !! 2 = Some g.
Proof.
  intros [Ha1%chars_nonempty Ha2] [Hb1%chars_nonempty Hb2] Hg1 Hg2.
  eexists. split.
  - unfold regex.challenge. cbn [ast]. cbn [JsString.chars list_ascii_of_string app].
    rewrite m_bol_start.
    do 9 lit_step. rewrite m_seq.
    eapply (m_rep_run true false) with (w := [" "]);
      [reflexivity|repeat constructor| |simpl; lia|].
    { apply stops_app; [done|]. eapply Forall_impl; [exact Ha2|].
      apply digit_not_space. }
    rewrite m_seq, m_group. apply m_alt_l.
    rewrite m_seq.
    eapply (m_rep_run true false) with (w := JsString.chars a);
      [reflexivity|by apply digits_in_class|reflexivity| |].
    { destruct (JsString.chars a); [done|simpl; lia]. }
    lit_step.
    eapply (m_rep_run true false) with (w := JsString.chars b);
      [reflexivity|by apply digits_in_class|reflexivity| |].
    { destruct (JsString.chars b); [done|simpl; lia]. }
    cbv beta.
    rewrite (consumed_eq _ _ _ (JsString.chars a ++ "/" :: JsString.chars b))
      by (by rewrite <- app_assoc).
    unfold set_cap. cbn [prev rest caps].
    rewrite m_seq.
    eapply (m_rep_run true false) with (w := [" "]);
      [reflexivity|repeat constructor|reflexivity|simpl; lia|].
    lit_step. rewrite m_seq, m_group.
    eapply (m_rep_run true false) with (w := g);
      [reflexivity| |reflexivity| |].
    { eapply Forall_impl; [exact Hg2|]. apply not_paren_in_class. }
    { destruct g; [done|simpl; lia]. }
    cbv beta. rewrite consumed_app. unfold set_cap. cbn [prev rest caps].
    rewrite m_seq.
    eapply (m_rep_run true false) with (w := []);
      [reflexivity|constructor|reflexivity|simpl; lia|].
    lit_step. reflexivity.
  - cbn [caps]. split.
    + rewrite lookup_insert_ne by done. apply lookup_insert_eq.
    + apply lookup_insert_eq.
Qed.


Lemma chars_join d ds :
  JsString.chars (JsString.join "," (d :: ds)) = JsString.chars d ++ more_groups ds.
Proof.
  revert d. induction ds as [|d' ds IH]; intros d.
  - simpl. by rewrite app_nil_r.
  - change (JsString.join "," (d :: d' :: ds))
      with (d ++ "," ++ JsString.join "," (d' :: ds))%string.
    rewrite !chars_app, IH. reflexivity.
Qed.

Lemma comma_groups_run k tl cp x : ∀ ds n pv,
  Forall digit_string ds →
  stops (chr_mem false ",") tl →
  stops (set_mem false false [CDigit]) tl →
  length (more_groups ds) ≤ n →
  k (MState (prev_after pv (more_groups ds)) tl cp) = Some x →
  rep_hi (λ k' st',
            m false false (RSeq (RChar ",") (RRep (RSet false [CDigit]) 1 None)) k'
              (clear_caps
                 (groups (RSeq (RChar ",") (RRep (RSet false [CDigit]) 1 None)))
                 st'))
    n k (MState pv (more_groups ds ++ tl) cp) = Some x.
Proof.
  intros ds n pv Hds Htl Htl'. revert n pv.
  induction Hds as [|d ds [Hd1%chars_nonempty Hd2] _ IH]; intros n pv Hn Hk.
  - cbn [more_groups map concat app] in *.
    destruct n as [|n]; [done|]. cbn [rep_hi groups app].
    rewrite clear_caps_nil. destruct tl as [|c tl]; [done|].
    rewrite m_lit_step. cbn [stops] in Htl. rewrite Htl. done.
  - cbn [more_groups map concat] in *. rewrite <- app_assoc.
    fold (more_groups ds) in *.
    destruct n as [|n]; [simpl in Hn; lia|].
    cbn [rep_hi groups app]. rewrite clear_caps_nil.
    cbn [app]. rewrite m_lit_step.
    change (chr_mem false "," ",") with true. cbv iota.
    erewrite (m_rep_run false false) with (w := JsString.chars d);
      [done|reflexivity| | | |].
    + eapply Forall_impl; [exact Hd2|]. intros c. by ascii_cases c.
    + destruct ds as [|d' ds]; [|reflexivity]. exact Htl'.
    + destruct (JsString.chars d); [done|simpl; lia].
    + cbn [rest].
      destruct (_ <? _)%nat eqn:E;
        [|apply Nat.ltb_ge in E; cbn [length] in E;
          rewrite !length_app in E; lia].
      apply IH.
      * rewrite length_app in Hn. simpl in Hn. lia.
      * rewrite prev_after_app, prev_after_cons in Hk. exact Hk.
Qed.

Lemma xp_run ds d :
  Forall digit_string (d :: ds) →
  ∃ st,
    m false false (ast regex.xp) Some
      (MState None (JsString.chars (JsString.join "," (d :: ds))
                    ++ JsString.chars " XP") ∅) = Some st
    ∧ caps st !! 1 = Some (JsString.chars (JsString.join "," (d :: ds))).
Proof.
  intros Hds. inversion Hds as [|?? [Hd1%chars_nonempty Hd2] Hds']; subst.
  rewrite chars_join, <- app_assoc. eexists. split.
  - unfold regex.xp. cbn [ast]. rewrite m_group, m_seq.
    eapply (m_rep_run false false) with (w := JsString.chars d);
      [reflexivity| | | |].
    + eapply Forall_impl; [exact Hd2|]. intros c. by ascii_cases c.
    + destruct ds as [|d' ds]; reflexivity.
    + destruct (JsString.chars d); [done|simpl; lia].
    + rewrite m_rep0. cbn [rest]. apply comma_groups_run;
        [done|reflexivity|reflexivity|rewrite length_app; lia|].
      rewrite (consumed_eq _ _ _ (JsString.chars d ++ more_groups ds))
        by (by rewrite <- app_assoc).
      reflexivity.
  - cbn [set_cap caps]. apply lookup_insert_eq.
Qed.
End ChallengeFacts.

Module ParseIntFacts.
Import Digits.
Local Open Scope char_scope.

Ltac ascii_cases c :=
  destruct c as [[] [] [] [] [] [] [] []]; vm_compute;
  try reflexivity; try discriminate; try congruence.

Lemma digits_fold s : ∀ acc seen,
  Forall (λ c, Char.is_digit c = true) (JsString.chars s) →
  seen = true ∨ s ≠ ""%string →
  JsNumber.digits s acc seen
  = Some (fold_left (λ acc c, 10 * acc + JsNumber.digit_val c)%N (JsString.chars s) acc).
Proof.
  induction s as [|c s IH]; intros acc seen Hs Hne.
  - destruct Hne as [->|]; done.
  - inversion Hs as [|?? Hc Hs']; subst. cbn [JsNumber.digits]. rewrite Hc.
    rewrite IH; [done|done|by left].
Qed.

Lemma hex_marker x :
  Char.is_digit x = true → (Ascii.eqb x "x" || Ascii.eqb x "X")%bool = false.
Proof. ascii_cases x. Qed.

Lemma unsigned_digits s :
  Forall (λ c, Char.is_digit c = true) (JsString.chars s) →
  JsNumber.unsigned s = JsNumber.digits s 0 false.
Proof.
  destruct s as [|c [|x s]]; [done| |].
  - intros _. by destruct c as [[] [] [] [] [] [] [] []].
  - intros H. inversion H as [|?? _ H']; subst.
    inversion H' as [|?? Hx _]; subst.
    destruct c as [[] [] [] [] [] [] [] []]; try reflexivity.
    unfold JsNumber.unsigned. by rewrite (hex_marker _ Hx).
Qed.

Lemma parseInt_string_digits c s :
  Char.is_digit c = true →
  JsNumber.parseInt_string (String c s)
  = JsNumber.of_opt false (JsNumber.unsigned (String c s)).
Proof.
  intros Hc. destruct c as [[] [] [] [] [] [] [] []];
    first [discriminate Hc | reflexivity].
Qed.

(** [parseInt] of a string of digits is the number it denotes. *)
Lemma parseInt_digits s :
  digit_string s → JsNumber.parseInt (Some s) = JsNumber.of_N (decimal s).
Proof.
  intros [Hne Hs]. destruct s as [|c s]; [done|].
  inversion Hs as [|?? Hc _]; subst. cbn [JsNumber.parseInt].
  rewrite (parseInt_string_digits _ _ Hc), (unsigned_digits _ Hs).
  rewrite (digits_fold _ _ _ Hs) by (by right). done.
Qed.
End ParseIntFacts.

Module StringFacts.
Local Open Scope char_scope.

Lemma includes_app s1 s2 p :
  JsString.startsWith s2 p = true → JsString.includes (s1 ++ s2) p = true.
Proof.
  intros H. induction s1 as [|c s1 IH].
  - change (JsString.includes s2 p = true).
    destruct s2; unfold JsString.includes; by rewrite H.
  - change (JsString.includes (String c (s1 ++ s2)) p = true).
    unfold JsString.includes; fold JsString.includes.
    rewrite IH. apply orb_true_r.
Qed.

Lemma split_go_cons sep c s cur :
  JsString.split_go sep (String c s) 0 cur
  = if JsString.startsWith (String c s) sep
    then JsString.of_chars (rev cur)
         :: JsString.split_go sep s (String.length sep - 1) []
    else JsString.split_go sep s 0 (c :: cur).
Proof. reflexivity. Qed.

Lemma startsWith_single (sep c : ascii) s :
  JsString.startsWith (String c s) (String sep "") = Ascii.eqb sep c.
Proof.
  change (JsString.startsWith (String c s) (String sep ""))
    with (Ascii.eqb sep c && JsString.startsWith s "")%bool.
  destruct s; apply andb_true_r.
Qed.

(** Splitting at a one-code-unit separator. *)
Lemma split_go_none (sep : ascii) s : ∀ cur,
  Forall (λ c, Ascii.eqb sep c = false) (JsString.chars s) →
  JsString.split_go (String sep "") s 0 cur
  = [JsString.of_chars (rev cur ++ JsString.chars s)].
Proof.
  induction s as [|c s IH]; intros cur Hs.
  - simpl. by rewrite app_nil_r.
  - inversion Hs as [|?? Hc Hs']; subst.
    rewrite split_go_cons, startsWith_single, Hc, IH by done.
    simpl. by rewrite <- app_assoc.
Qed.

Lemma split_go_first (sep : ascii) a b : ∀ cur,
  Forall (λ c, Ascii.eqb sep c = false) (JsString.chars a) →
  JsString.split_go (String sep "") (a ++ String sep b) 0 cur
  = JsString.of_chars (rev cur ++ JsString.chars a)
    :: JsString.split_go (String sep "") b 0 [].
Proof.
  induction a as [|c a IH]; intros cur Ha.
  - change (("" ++ String sep b)%string) with (String sep b).
    rewrite split_go_cons, startsWith_single, Ascii.eqb_refl.
    simpl. by rewrite app_nil_r.
  - inversion Ha as [|?? Hc Ha']; subst.
    change ((String c a ++ String sep b)%string)
      with (String c (a ++ String sep b)).
    rewrite split_go_cons, startsWith_single, Hc, IH by done.
    simpl. by rewrite <- app_assoc.
Qed.

Lemma split_two (sep : ascii) a b :
  Forall (λ c, Ascii.eqb sep c = false) (JsString.chars a) →
  Forall (λ c, Ascii.eqb sep c = false) (JsString.chars b) →
  JsString.split (a ++ String sep b) (String sep "") = [a; b].
Proof.
  intros Ha Hb. unfold JsString.split.
  rewrite split_go_first, split_go_none by done. simpl.
  by rewrite !MatchFacts.of_chars_chars.
Qed.
End StringFacts.

Module ChallengeExtract.
Import Regex MatchShape MatchFacts monsterParser Digits ChallengeFacts.
Local Open Scope char_scope.

Lemma digit_not c x :
  Char.is_digit x = false → Char.is_digit c = true → Ascii.eqb x c = false.
Proof.
  intros Hx Hc. destruct (Ascii.eqb x c) eqn:E; [|done].
  apply Ascii.eqb_eq in E. subst. congruence.
Qed.

Lemma digits_not x l :
  Char.is_digit x = false →
  Forall (λ c, Char.is_digit c = true) l → Forall (λ c, Ascii.eqb x c = false) l.
Proof. intros Hx H. eapply Forall_impl; [exact H|]. intros c. by apply digit_not. Qed.

Lemma filter_digits l :
  Forall (λ c, Char.is_digit c = true) l →
  List.filter (λ c, negb (Ascii.eqb "," c)) l = l.
Proof.
  induction 1 as [|c l Hc _ IH]; [done|]. cbn -[Ascii.eqb].
  rewrite (digit_not c "," eq_refl Hc). cbn -[Ascii.eqb]. by rewrite IH.
Qed.

Lemma filter_commas ds :
  Forall digit_string ds →
  List.filter (λ c, negb (Ascii.eqb "," c)) (more_groups ds)
  = JsString.chars (ungrouped ds).
Proof.
  induction 1 as [|d ds [_ Hd] Hds IH]; [done|].
  cbn [more_groups map concat ungrouped fold_right].
  fold (more_groups ds). fold (ungrouped ds).
  change (("," :: JsString.chars d) ++ more_groups ds)
    with ("," :: (JsString.chars d ++ more_groups ds)).
  cbn -[Ascii.eqb more_groups]. rewrite List.filter_app, IH, filter_digits by done.
  by rewrite chars_app.
Qed.

Lemma ungrouped_digits d ds :
  Forall digit_string (d :: ds) → digit_string (ungrouped (d :: ds)).
Proof.
  intros H. split.
  - inversion H as [|?? [Hne _] _]; subst. simpl. by destruct d.
  - induction H as [|x xs [_ Hx] _ IH]; [constructor|].
    cbn [ungrouped fold_right]. rewrite chars_app. by apply Forall_app.
Qed.

Lemma strip_commas d ds :
  Forall digit_string (d :: ds) →
  fst (Regex.replace regex.comma 0 (JsString.join "," (d :: ds)) (λ _, ""%string))
  = ungrouped (d :: ds).
Proof.
  intros H. unfold Regex.replace. cbn [fst]. 
  change (global (rflags regex.comma)) with true. cbv iota. cbn [fst].
  change (ignoreCase (rflags regex.comma)) with false.
  change (multiline (rflags regex.comma)) with false.
  change (ast regex.comma) with (RChar ",").
  rewrite replace_comma_go, chars_join.
  inversion H as [|?? [_ Hd] Hds]; subst.
  rewrite List.filter_app, filter_digits, filter_commas by done.
  cbn [ungrouped fold_right]. by rewrite <- chars_app, of_chars_chars.
Qed.

Lemma challenge_line_chars a b t :
  JsString.chars ("Challenge " ++ a ++ "/" ++ b ++ " (" ++ t ++ ")")%string
  = JsString.chars "Challenge " ++ JsString.chars a ++ "/" :: JsString.chars b
    ++ " " :: "(" :: JsString.chars t ++ [")"].
Proof. by rewrite !chars_app. Qed.

(** The captures of the challenge pattern on a line of the shape
    [Challenge a/b (t)]. *)
Lemma challenge_exec a b t :
  digit_string a → digit_string b →
  t ≠ ""%string → Forall (λ c, c ≠ ")") (JsString.chars t) →
  ∃ mt,
    Regex.exec regex.challenge ("Challenge " ++ a ++ "/" ++ b ++ " (" ++ t ++ ")")
    = Some mt
    ∧ Regex.group mt 1 = Some (a ++ "/" ++ b)%string
    ∧ Regex.group mt 2 = Some t.
Proof.
  intros Ha Hb Ht1%chars_nonempty Ht2.
  destruct (challenge_run a b (JsString.chars t) Ha Hb Ht1 Ht2) as (st & Hm & H1 & H2).
  eexists. split; [|split].
  - apply exec_at_start. rewrite challenge_line_chars. exact Hm.
  - unfold Regex.group, mk_match. cbn [mgroups]. rewrite lookup_fmap, H1.
    cbn [fmap option_fmap option_map]. f_equal.
    rewrite <- (of_chars_chars (a ++ "/" ++ b)). by rewrite !chars_app.
  - unfold Regex.group, mk_match. cbn [mgroups]. rewrite lookup_fmap, H2.
    cbn [fmap option_fmap option_map]. by rewrite of_chars_chars.
Qed.

Lemma xp_exec d ds :
  Forall digit_string (d :: ds) →
  ∃ mt,
    Regex.exec regex.xp (JsString.join "," (d :: ds) ++ " XP") = Some mt
    ∧ Regex.group mt 1 = Some (JsString.join "," (d :: ds)).
Proof.
  intros H. destruct (xp_run ds d H) as (st & Hm & H1).
  eexists. split.
  - apply exec_at_start. rewrite chars_app. exact Hm.
  - unfold Regex.group, mk_match. cbn [mgroups]. rewrite lookup_fmap, H1.
    cbn [fmap option_fmap option_map]. by rewrite of_chars_chars.
Qed.

Lemma grouped_no_paren d ds :
  Forall digit_string (d :: ds) →
  Forall (λ c, c ≠ ")") (JsString.chars (JsString.join "," (d :: ds) ++ " XP")).
Proof.
  intros H. rewrite chars_app, chars_join. inversion H as [|?? [_ Hd] Hds]; subst.
  repeat apply Forall_app_2.
  - eapply Forall_impl; [exact Hd|]. intros c Hc ->. discriminate Hc.
  - clear H Hd. induction Hds as [|x xs [_ Hx] _ IH]; [constructor|].
    cbn [more_groups map concat]. constructor; [done|]. apply Forall_app_2; [|done].
    eapply Forall_impl; [exact Hx|]. intros c Hc ->. discriminate Hc.
  - repeat constructor; done.
Qed.

Lemma extract_fraction (bl : gmap string (list TaggedLine.t)) e tl a b d ds :
  bl !! "challenge"%string = Some (e :: tl) →
  digit_string a → digit_string b → Forall digit_string (d :: ds) →
  TaggedLine.line e
  = ("Challenge " ++ a ++ "/" ++ b ++ " (" ++ (JsString.join "," (d :: ds) ++ " XP")
     ++ ")")%string →
  _extractChallenge bl
  = Ok {| Challenge.cr := JsNumber.div (JsNumber.of_N (decimal a)) (JsNumber.of_N (decimal b));
          Challenge.xp := JsNumber.of_N (decimal (ungrouped (d :: ds))) |}.
Proof.
  intros Hbl Ha Hb Hds Hline.
  unfold _extractChallenge, first_match. rewrite Hbl, Hline.
  destruct (challenge_exec a b (JsString.join "," (d :: ds) ++ " XP") Ha Hb)
    as (mt & -> & -> & ->).
  { intros Heq. apply (f_equal JsString.chars) in Heq.
    rewrite chars_app in Heq. by destruct (JsString.chars (JsString.join "," (d :: ds))). }
  { by apply grouped_no_paren. }
  cbn [defined mbind result_bind].
  change ((a ++ "/" ++ b)%string) with ((a ++ String "/" b)%string).
  rewrite (StringFacts.includes_app a (String "/" b) "/")
    by apply (StringFacts.startsWith_single "/" "/" b).
  rewrite StringFacts.split_two
    by (apply digits_not; [reflexivity|apply Ha || apply Hb]).
  cbn [map num_at lookup list_lookup default].
  rewrite !ParseIntFacts.parseInt_digits by done.
  destruct (xp_exec d ds Hds) as (xm & -> & ->).
  cbn [defined mbind result_bind mret result_ret].
  rewrite strip_commas by done.
  rewrite ParseIntFacts.parseInt_digits by (by apply ungrouped_digits).
  reflexivity.
Qed.
End ChallengeExtract.

(** C6.  The line "Challenge 1/4 (50 XP)" gives cr = 0.25 and xp = 50.  In
    general a line [Challenge a/b (g XP)], with [a] and [b] strings of
    digits and [g] groups of digits separated by commas, gives for cr the
    quotient, as the language's division of numbers computes it, of the
    numbers that [parseInt] reads from [a] and from [b], and for xp the
    number the digits of [g] denote once the commas are removed.  So
    "Challenge 1/3 (100 XP)" gives the double nearest to one third, which
    prints as 0.3333333333333333, and "Challenge 1/8 (25 XP)" gives
    0.125. *)
Theorem challenge_fraction_and_xp :
  (∀ (bl : gmap string (list TaggedLine.t)) i tl,
     bl !! "challenge" = Some (NamedEntries.tl_ i "Challenge 1/4 (50 XP)" :: tl) →
     monsterParser._extractChallenge bl
     = Ok {| Challenge.cr := 0.25%float; Challenge.xp := 50%float |})
  ∧
  (∀ (bl : gmap string (list TaggedLine.t)) e tl a b d ds,
     bl !! "challenge" = Some (e :: tl) →
     Digits.digit_string a → Digits.digit_string b →
     Forall Digits.digit_string (d :: ds) →
     TaggedLine.line e
     = ("Challenge " ++ a ++ "/" ++ b ++ " (" ++ (JsString.join "," (d :: ds) ++ " XP")
        ++ ")")%string →
     monsterParser._extractChallenge bl
     = Ok {| Challenge.cr :=
               JsNumber.div (JsNumber.of_N (Digits.decimal a))
                            (JsNumber.of_N (Digits.decimal b));
             Challenge.xp :=
               JsNumber.of_N (Digits.decimal (Digits.ungrouped (d :: ds))) |})
  ∧
  (∀ (bl : gmap string (list TaggedLine.t)) i tl,
     (bl !! "challenge" = Some (NamedEntries.tl_ i "Challenge 1/3 (100 XP)" :: tl) →
      monsterParser._extractChallenge bl
      = Ok {| Challenge.cr := 0x1.5555555555555p-2%float; Challenge.xp := 100%float |})
     ∧ (bl !! "challenge" = Some (NamedEntries.tl_ i "Challenge 1/8 (25 XP)" :: tl) →
        monsterParser._extractChallenge bl
        = Ok {| Challenge.cr := 0.125%float; Challenge.xp := 25%float |})).
Proof.
  split; [|split].
  - intros bl i tl H. unfold monsterParser._extractChallenge, monsterParser.first_match.
    rewrite H. by vm_compute.
  - intros bl e tl a b d ds Hbl Ha Hb Hds Hline.
    by apply (ChallengeExtract.extract_fraction bl e tl a b d ds).
  - intros bl i tl.
    split; intros H;
      unfold monsterParser._extractChallenge, monsterParser.first_match;
      rewrite H; by vm_compute.
Qed.

Lemma challenge_fraction_and_xp_witness :
  monsterParser._extractChallenge
    {[ "challenge" := [NamedEntries.tl_ 3 "Challenge 3/8 (1,800 XP)"] ]}
  = Ok {| Challenge.cr := 0.375%float; Challenge.xp := 1800%float |}.
Proof.
  destruct challenge_fraction_and_xp as (_ & H & _).
  rewrite (H {[ "challenge" := [NamedEntries.tl_ 3 "Challenge 3/8 (1,800 XP)"] ]}
             (NamedEntries.tl_ 3 "Challenge 3/8 (1,800 XP)") [] "3" "8" "1" ["800"]).
  - vm_compute. reflexivity.
  - vm_compute. reflexivity.
  - split; [discriminate|repeat constructor].
  - split; [discriminate|repeat constructor].
  - repeat constructor; discriminate.
  - reflexivity.
Defined.

(** C9.  A challenge line whose fraction has denominator 0 matches the
    challenge pattern and is divided all the same: [1/0] gives Infinity
    and [0/0] gives NaN, neither of which is a rational number. *)
Theorem challenge_zero_denominator :
  (∃ rec,
     fst (monsterParser.parseMonster plain σ0 ("Ghost" ++ nl ++ "Challenge 1/0 (50 XP)"))
     = Ok rec
     ∧ MonsterData.challenge rec = {| Challenge.cr := infinity; Challenge.xp := 50%float |})
  ∧ (∃ rec,
     fst (monsterParser.parseMonster plain σ0 ("Ghost" ++ nl ++ "Challenge 0/0 (50 XP)"))
     = Ok rec
     ∧ MonsterData.challenge rec = {| Challenge.cr := nan; Challenge.xp := 50%float |}).
Proof. split; eexists; split; vm_compute; reflexivity. Qed.

(** C3.  After a preamble whose ability run was ended by another header, a
    line of the title shape is first given to the features block and then,
    by the test that follows, to the other block: the line and its
    continuation are recorded under "otherBlock", the features block stays
    empty, and the record has no feature. *)
Theorem feature_line_goes_to_other :
  let lines := ["Armor Class 15"; "STR 8 (-1)"; "Senses darkvision 60 ft.";
                "Nimble Escape. The goblin can take the Disengage or Hide action";
                "as a bonus action on each of its turns."] in
  monsterParser._getFirstMatch
    "Nimble Escape. The goblin can take the Disengage or Hide action"
    (dom (monsterParser.blocks
            (monsterParser.tag_lines monsterParser.tagger_init 0 (take 3 lines))))
  = None
  ∧ monsterParser.foundTopBlock
      (monsterParser.tag_lines monsterParser.tagger_init 0 (take 3 lines)) = true
  ∧ Regex.test monsterParser.regex.blockTitle
      "Nimble Escape. The goblin can take the Disengage or Hide action" = true
  ∧ monsterParser._parseIntoBlocks lines !! "features" = Some []
  ∧ monsterParser._parseIntoBlocks lines !! "otherBlock"
    = Some [NamedEntries.tl_ 3
              "Nimble Escape. The goblin can take the Disengage or Hide action";
            NamedEntries.tl_ 4 "as a bonus action on each of its turns."]
  ∧ ∃ rec,
      fst (monsterParser.parseMonster plain σ0 (JsString.join nl ("Goblin" :: lines)))
      = Ok rec
      ∧ MonsterData.features rec = []
      ∧ MonsterData.otherInfo rec
        = ["Nimble Escape. The goblin can take the Disengage or Hide action";
           "as a bonus action on each of its turns."].
Proof.
  cbv zeta. repeat apply conj; try (vm_compute; reflexivity).
  eexists. repeat apply conj; vm_compute; reflexivity.
Qed.

(** ** The classifier *)

(** C7, as the code has it.  The checks are tried in a fixed order and the
    first that matches decides.  A block the spell signature matches (a
    title line, then a line that is a spell-school phrase) is a spell
    whatever else it contains, armor-class, hit-point and ability lines
    included.  A block that only contains a school name elsewhere is a
    spell when it also contains one of "casting time", "components",
    "duration", "range" and none of the item, monster, class-feature, feat
    and background checks before the spell heuristic matches; when neither
    the spell nor the item signature matches it and it has a line
    "Challenge n (x XP)", it is a monster. *)
Theorem spell_signature_first :
  (∀ block,
     Regex.test contentDetector.regex.spellBlockPattern block = true →
     contentDetector._identifyBlockType block = Some "spell")
  ∧ (∀ block,
     Classifier.has_school block →
     Regex.test contentDetector.regex.spellWords block = true →
     Classifier.no_earlier_kind block →
     contentDetector._identifyBlockType block = Some "spell")
  ∧ (∀ block,
     Regex.test contentDetector.regex.spellBlockPattern block = false →
     Regex.test contentDetector.regex.itemBlockPattern block = false →
     Regex.test contentDetector.regex.challengeXp block = true →
     contentDetector._identifyBlockType block = Some "monster")
  ∧ contentDetector._identifyBlockType Classifier.fireball_with_stats = Some "spell".
Proof.
  split; [|split; [|split]].
  - intros block H. unfold contentDetector._identifyBlockType. by rewrite H.
  - intros block Hs Hw (H1 & H2 & H3 & H4 & H5 & H6 & H7 & H8).
    unfold contentDetector._identifyBlockType.
    destruct (Regex.test contentDetector.regex.spellBlockPattern block); [done|].
    rewrite H1, H2, H3, H4, H5, H6, H7, H8, Hw, Hs. done.
  - intros block H1 H2 H3. unfold contentDetector._identifyBlockType.
    rewrite H1, H2, H3.
    destruct (Regex.test contentDetector.regex.monsterBlockPattern block); [done|].
    destruct (_ && _); [done|].
    by destruct (Regex.test contentDetector.regex.abilityPair block).
  - by vm_compute.
Qed.

Lemma spell_signature_first_witness :
  contentDetector._identifyBlockType Classifier.evoker = Some "monster".
Proof.
  destruct spell_signature_first as (_ & _ & H & _).
  apply H; vm_compute; reflexivity.
Defined.

(** C7, as the specification has it, fails: the block "Evoker / evocation
    spell damage / Challenge 9 (5,000 XP)" contains a spell-school phrase
    and no armor-class, hit-point or ability-score line, and is classified
    as a monster. *)
Lemma school_phrase_classified_monster :
  Classifier.has_school Classifier.evoker
  ∧ Classifier.no_stat_lines Classifier.evoker
  ∧ contentDetector._identifyBlockType Classifier.evoker = Some "monster"
  ∧ contentDetector.detectContentBlocks Classifier.evoker
    = [ {| ContentBlock.type := "monster";
           ContentBlock.content := Classifier.evoker |} ].
Proof. repeat apply conj; vm_compute; reflexivity. Qed.

(** ** Determinism *)

Module StateFacts.
Import monsterParser.




Section Cleaner.
Context {U : Type} (strip : string → U → string * U).
Hypothesis strip_result : ∀ text u u', fst (strip text u) = fst (strip text u').




End Cleaner.
End StateFacts.



(** ** The lines of the text *)

Module TrimFacts.

Lemma trimEnd_idem s : JsString.trimEnd (JsString.trimEnd s) = JsString.trimEnd s.
Proof.
  induction s as [|c s IH]; [done|]. cbn [JsString.trimEnd].
  destruct (JsString.trimEnd s) as [|d t] eqn:E.
  - destruct (Char.is_space c) eqn:Hc; [done|].
    cbn [JsString.trimEnd]. by rewrite Hc.
  - change (JsString.trimEnd (String c (String d t)))
      with (match JsString.trimEnd (String d t) with
            | EmptyString =>
                if Char.is_space c then EmptyString else String c EmptyString
            | t' => String c t'
            end).
    by rewrite IH.
Qed.

Lemma trimStart_head s :
  JsString.trimStart s = ""
  ∨ ∃ c t, JsString.trimStart s = String c t ∧ Char.is_space c = false.
Proof.
  induction s as [|c s IH]; [by left|]. cbn [JsString.trimStart].
  destruct (Char.is_space c) eqn:Hc; [done|]. right. by exists c, s.
Qed.

Lemma trimEnd_head c t :
  Char.is_space c = false →
  ∃ t', JsString.trimEnd (String c t) = String c t'.
Proof.
  intros Hc. cbn [JsString.trimEnd]. destruct (JsString.trimEnd t).
  - rewrite Hc. by eexists.
  - by eexists.
Qed.

Lemma trimStart_trim s : JsString.trimStart (JsString.trim s) = JsString.trim s.
Proof.
  unfold JsString.trim. destruct (trimStart_head s) as [->|(c & t & -> & Hc)]; [done|].
  destruct (trimEnd_head c t Hc) as (t' & ->). cbn [JsString.trimStart].
  by rewrite Hc.
Qed.

(** [s.trim().trim()] is [s.trim()]. *)
Lemma trim_idem s : JsString.trim (JsString.trim s) = JsString.trim s.
Proof.
  unfold JsString.trim at 1. rewrite trimStart_trim.
  unfold JsString.trim. apply trimEnd_idem.
Qed.

Lemma nonblank_trimmed s :
  contentDetector.nonblank s = true → Detection.trimmed (JsString.trim s).
Proof.
  unfold contentDetector.nonblank. intros H. split; [|apply trim_idem].
  intros E. by rewrite E in H.
Qed.
End TrimFacts.

Module TextFacts.
Import Text MatchFacts.
Local Open Scope char_scope.

Lemma append_assoc (a b c : string) : ((a ++ b) ++ c)%string = (a ++ b ++ c)%string.
Proof.
  induction a as [|x a IH]; [done|].
  change (String x ((a ++ b) ++ c) = String x (a ++ b ++ c))%string. by f_equal.
Qed.

Lemma append_nil_r (a : string) : (a ++ "")%string = a.
Proof.
  induction a as [|x a IH]; [done|].
  change (String x (a ++ "") = String x a)%string. by f_equal.
Qed.

Lemma blank_app a b : blank (a ++ b) ↔ blank a ∧ blank b.
Proof. unfold blank. rewrite chars_app. apply Forall_app. Qed.

Lemma no_line_feed_app a b : no_line_feed (a ++ b) ↔ no_line_feed a ∧ no_line_feed b.
Proof. unfold no_line_feed. rewrite chars_app. apply Forall_app. Qed.

Lemma blank_cons c s : blank (String c s) ↔ Char.is_space c = true ∧ blank s.
Proof.
  unfold blank. cbn [JsString.chars list_ascii_of_string].
  apply (Forall_cons (λ x, Char.is_space x = true)).
Qed.

Lemma no_line_feed_cons c s :
  no_line_feed (String c s) ↔ c ≠ "010" ∧ no_line_feed s.
Proof.
  unfold no_line_feed. cbn [JsString.chars list_ascii_of_string].
  apply (Forall_cons (λ x, x ≠ "010")).
Qed.

Lemma blank_nil : blank "".
Proof. constructor. Qed.

Lemma trimStart_split s :
  ∃ pre, s = (pre ++ JsString.trimStart s)%string ∧ blank pre.
Proof.
  induction s as [|c s (pre & IH & Hpre)];
    [exists ""%string; split; [done|apply blank_nil]|].
  cbn [JsString.trimStart]. destruct (Char.is_space c) eqn:Hc.
  - exists (String c pre). split; [|by apply blank_cons].
    change (String c s = String c (pre ++ JsString.trimStart s)).
    by f_equal.
  - exists ""%string. split; [done|apply blank_nil].
Qed.

Lemma trimEnd_split s :
  ∃ sp, s = (JsString.trimEnd s ++ sp)%string ∧ blank sp.
Proof.
  induction s as [|c s (sp & IH & Hsp)];
    [exists ""%string; split; [done|apply blank_nil]|].
  cbn [JsString.trimEnd]. destruct (JsString.trimEnd s) as [|d t] eqn:E.
  - simpl in IH. subst s. destruct (Char.is_space c) eqn:Hc.
    + exists (String c sp). split; [done|by apply blank_cons].
    + exists sp. done.
  - exists sp. split; [|done].
    change (String c s = String c (String d t ++ sp)). by f_equal.
Qed.

Lemma trimEnd_last s :
  JsString.trimEnd s = ""%string
  ∨ ∃ d, last (JsString.chars (JsString.trimEnd s)) = Some d ∧ Char.is_space d = false.
Proof.
  induction s as [|c s IH]; [by left|]. cbn [JsString.trimEnd].
  destruct (JsString.trimEnd s) as [|d t] eqn:E.
  - destruct (Char.is_space c) eqn:Hc; [by left|]. right. by exists c.
  - right. destruct IH as [IH|(x & Hx & Hs)]; [done|]. exists x. split; [|done].
    change (JsString.chars (String c (String d t)))
      with (c :: JsString.chars (String d t)).
    rewrite last_cons, Hx. done.
Qed.

Lemma trimEnd_blank s : JsString.trimEnd s = ""%string ↔ blank s.
Proof.
  split.
  - intros E. destruct (trimEnd_split s) as (sp & Hs & Hsp). rewrite E in Hs.
    simpl in Hs. by subst.
  - induction s as [|c s IH]; [done|]. intros [Hc Hs]%blank_cons.
    cbn [JsString.trimEnd]. by rewrite (IH Hs), Hc.
Qed.

Lemma trimStart_blank s : blank s → JsString.trimStart s = ""%string.
Proof.
  induction s as [|c s IH]; [done|]. intros [Hc Hs]%blank_cons.
  cbn [JsString.trimStart]. rewrite Hc. by apply IH.
Qed.

(** [s.trim()] is empty exactly when [s] is blank. *)
Lemma trim_blank s : JsString.trim s = ""%string ↔ blank s.
Proof.
  unfold JsString.trim. rewrite trimEnd_blank.
  destruct (trimStart_split s) as (pre & Hs & Hpre). split.
  - intros H. rewrite Hs. by apply blank_app.
  - intros H. rewrite (trimStart_blank s H). apply blank_nil.
Qed.

(** [s.trim()] stands in [s] between two runs of white space, and is
    tight unless it is empty. *)
Lemma trim_split s :
  ∃ pre sp, s = (pre ++ JsString.trim s ++ sp)%string ∧ blank pre ∧ blank sp
            ∧ (JsString.trim s = ""%string ∨ tight (JsString.trim s)).
Proof.
  destruct (trimStart_split s) as (pre & Hs & Hpre).
  destruct (trimEnd_split (JsString.trimStart s)) as (sp & Ht & Hsp).
  exists pre, sp. fold (JsString.trim s) in Ht.
  split; [by rewrite <- Ht|]. split; [done|]. split; [done|].
  destruct (JsString.trim s) as [|c t] eqn:E; [by left|]. right.
  destruct (TrimFacts.trimStart_head s) as [H0|(c' & t' & Hc' & Hsp')].
  { unfold JsString.trim in E. by rewrite H0 in E. }
  destruct (TrimFacts.trimEnd_head c' t' Hsp') as (t'' & Hh).
  unfold JsString.trim in E. rewrite Hc', Hh in E. injection E as <- <-.
  destruct (trimEnd_last (String c' t')) as [H0|(d & Hd & Hds)]; [by rewrite Hh in H0|].
  rewrite Hh in Hd. by exists c', d.
Qed.

(** The text up to its first line feed, and what follows it. *)
Lemma first_line_feed s :
  (no_line_feed s ∧ JsString.split s nl = [s])
  ∨ ∃ a b, s = (a ++ nl ++ b)%string ∧ no_line_feed a
           ∧ JsString.split s nl = a :: JsString.split b nl
           ∧ String.length b < String.length s.
Proof.
  assert (Hnf : ∀ t, no_line_feed t →
                     Forall (λ c, Ascii.eqb "010" c = false) (JsString.chars t)).
  { intros t Ht. eapply Forall_impl; [exact Ht|]. intros c Hc.
    by apply Ascii.eqb_neq. }
  induction s as [|c s IH].
  - left. split; [constructor|done].
  - destruct (Ascii.eqb "010" c) eqn:Hc.
    + apply Ascii.eqb_eq in Hc as <-. right. exists ""%string, s.
      split; [done|]. split; [constructor|]. split; [|simpl; lia].
      unfold JsString.split, nl.
      rewrite StringFacts.split_go_cons, StringFacts.startsWith_single, Ascii.eqb_refl.
      reflexivity.
    + apply Ascii.eqb_neq in Hc. destruct IH as [[Hs _]|(a & b & -> & Ha & _ & Hlen)].
      * left. assert (Hcs : no_line_feed (String c s)) by (by apply no_line_feed_cons).
        split; [done|]. unfold JsString.split, nl.
        rewrite StringFacts.split_go_none by (by apply Hnf). simpl.
        by rewrite of_chars_chars.
      * right. exists (String c a), b.
        assert (Hca : no_line_feed (String c a)) by (by apply no_line_feed_cons).
        split; [done|]. split; [done|]. split; [|simpl in *; lia].
        change (JsString.split (String c a ++ String "010" b) (String "010" "")
                = String c a :: JsString.split b (String "010" "")).
        unfold JsString.split.
        rewrite StringFacts.split_go_first by (by apply Hnf). simpl.
        by rewrite of_chars_chars.
Qed.

Lemma blank_nl : blank nl.
Proof. repeat constructor. Qed.

Lemma nonblank_lines_cons a b :
  no_line_feed a →
  JsString.split (a ++ nl ++ b) nl = a :: JsString.split b nl →
  monsterParser.nonblank_lines (a ++ nl ++ b)
  = (if String.eqb (JsString.trim a) "" then [] else [JsString.trim a])
    ++ monsterParser.nonblank_lines b.
Proof.
  intros _ Hs. unfold monsterParser.nonblank_lines. rewrite Hs.
  cbn [map List.filter]. by destruct (String.eqb (JsString.trim a) "").
Qed.

(** The split has no non-blank line exactly when the text is blank. *)
Lemma nonblank_lines_nil s : monsterParser.nonblank_lines s = [] ↔ blank s.
Proof.
  remember (String.length s) as n eqn:Hn. revert s Hn.
  induction n as [n IH] using lt_wf_ind. intros s ->.
  destruct (first_line_feed s) as [[Hs Hsp]|(a & b & -> & Ha & Hsp & Hlen)].
  - unfold monsterParser.nonblank_lines. rewrite Hsp. cbn [map List.filter].
    rewrite <- trim_blank.
    destruct (String.eqb (JsString.trim s) "") eqn:E.
    + apply String.eqb_eq in E. by rewrite E.
    + apply String.eqb_neq in E. cbn [negb]. split; [done|by intros ?].
  - rewrite (nonblank_lines_cons a b Ha Hsp).
    rewrite !blank_app, <- (IH _ Hlen b eq_refl), <- trim_blank.
    destruct (String.eqb (JsString.trim a) "") eqn:E.
    + apply String.eqb_eq in E. rewrite E. cbn [app]. split.
      * intros H. split; [done|]. split; [apply blank_nl|done].
      * by intros (_ & _ & H).
    + apply String.eqb_neq in E. cbn [app]. split; [done|]. by intros [? _].
Qed.

Lemma app_assoc4 (a b c d e : string) :
  ((a ++ b ++ c) ++ d ++ e)%string = (a ++ b ++ c ++ d ++ e)%string.
Proof. by rewrite !append_assoc. Qed.

(** The first element of the split is the first non-blank line of the
    text. *)
Lemma nonblank_lines_first s name lines :
  monsterParser.nonblank_lines s = name :: lines → first_line s name.
Proof.
  remember (String.length s) as n eqn:Hn. revert s Hn.
  induction n as [n IH] using lt_wf_ind. intros s ->.
  destruct (first_line_feed s) as [[Hs Hsp]|(a & b & -> & Ha & Hsp & Hlen)].
  - unfold monsterParser.nonblank_lines. rewrite Hsp. cbn [map List.filter].
    destruct (String.eqb (JsString.trim s) "") eqn:E; [done|].
    apply String.eqb_neq in E. cbn [negb]. intros [= <- <-].
    destruct (trim_split s) as (pre & sp & Hsplit & Hpre & Hspb & [H0|Ht]); [done|].
    exists pre, sp, ""%string.
    rewrite Hsplit in Hs. apply no_line_feed_app in Hs as [_ Hs].
    apply no_line_feed_app in Hs as [Hs1 Hs2].
    split; [by rewrite append_nil_r|].
    repeat (split; [done|]). by left.
  - rewrite (nonblank_lines_cons a b Ha Hsp).
    destruct (String.eqb (JsString.trim a) "") eqn:E.
    + apply String.eqb_eq, trim_blank in E. cbn [app]. intros H.
      destruct (IH _ Hlen b eq_refl H)
        as (pre & sp & post & -> & Hpre & Ht & Hn & Hspb & Hspn & Hpost).
      exists (a ++ nl ++ pre)%string, sp, post.
      split; [by rewrite app_assoc4|].
      split; [|done]. apply blank_app. split; [done|].
      apply blank_app. split; [apply blank_nl|done].
    + apply String.eqb_neq in E. cbn [app]. intros [= <- <-].
      destruct (trim_split a) as (pre & sp & Hsplit & Hpre & Hspb & [H0|Ht]); [done|].
      exists pre, sp, (nl ++ b)%string.
      rewrite Hsplit in Ha. apply no_line_feed_app in Ha as [_ Ha].
      apply no_line_feed_app in Ha as [Ha1 Ha2].
      split.
      { rewrite Hsplit at 1. by rewrite !append_assoc. }
      repeat (split; [done|]). right. by exists b.
Qed.
End TextFacts.

(** C1.  [parseMonster] throws "No content to parse" exactly when the
    cleaned input has no non-blank line, that is when every code unit of
    it is white space; otherwise it returns a record.  The name of the
    record is the first non-blank line of the cleaned input without the
    white space around it, and every section that is missing, or whose
    line does not match the section's pattern, has its default: the empty
    string, the empty list, the empty ability map, [{value: 10, formula:
    ""}] for armor class, [{value: 0, formula: ""}] for hit points and
    [{cr: 0, xp: 0}] for the challenge.  So the empty text and a text of
    spaces, tabs and line feeds are refused, and a name followed by a hit
    points line that the pattern does not match gives the record of
    defaults with that name. *)
Theorem parseMonster_failure_semantics
    (U : Type) (strip : string → U → string * U) (σ : store U) (content : string) :
  let cleaned := fst (monsterParser._cleanInput strip σ content) in
  let res := fst (monsterParser.parseMonster strip σ content) in
  (res = Throw (Error "No content to parse") ↔ Text.blank cleaned)
  ∧ (¬ Text.blank cleaned → ∃ rec, res = Ok rec)
  ∧ (∀ rec, res = Ok rec →
     Text.first_line cleaned (MonsterData.name rec)
     ∧ ∃ name lines,
       monsterParser.nonblank_lines cleaned = name :: lines
       ∧ MonsterData.name rec = name
       ∧ let bl := monsterParser._parseIntoBlocks lines in
         (Sections.unmatched bl "racialDetails" monsterParser.regex.racialDetails →
            MonsterData.type rec = "" ∧ MonsterData.size rec = ""
            ∧ MonsterData.alignment rec = "")
         ∧ (Sections.unmatched bl "armor" monsterParser.regex.armor →
            MonsterData.ac rec
            = {| ValueFormula.value := 10%float; ValueFormula.formula := "" |})
         ∧ (Sections.unmatched bl "health" monsterParser.regex.health →
            MonsterData.hp rec
            = {| ValueFormula.value := 0%float; ValueFormula.formula := "" |})
         ∧ (Sections.unmatched bl "speed" monsterParser.regex.speed →
            MonsterData.speed rec = [])
         ∧ (Sections.no_line_matches bl "abilities" monsterParser.regex.abilities →
            MonsterData.abilities rec = ∅)
         ∧ (Sections.unmatched bl "savingThrows" monsterParser.regex.savingThrows →
            MonsterData.savingThrows rec = [])
         ∧ (Sections.unmatched bl "skills" monsterParser.regex.skills →
            MonsterData.skills rec = [])
         ∧ (Sections.unmatched bl "damageVulnerabilities"
              monsterParser.regex.damageVulnerabilities →
            MonsterData.damageVulnerabilities rec = [])
         ∧ (Sections.unmatched bl "damageResistances"
              monsterParser.regex.damageResistances →
            MonsterData.damageResistances rec = [])
         ∧ (Sections.unmatched bl "damageImmunities"
              monsterParser.regex.damageImmunities →
            MonsterData.damageImmunities rec = [])
         ∧ (Sections.unmatched bl "conditionImmunities"
              monsterParser.regex.conditionImmunities →
            MonsterData.conditionImmunities rec = [])
         ∧ (Sections.unmatched bl "senses" monsterParser.regex.senses →
            MonsterData.senses rec = [])
         ∧ (Sections.unmatched bl "languages" monsterParser.regex.languages →
            MonsterData.languages rec = [])
         ∧ (Sections.unmatched bl "challenge" monsterParser.regex.challenge →
            MonsterData.challenge rec
            = {| Challenge.cr := 0%float; Challenge.xp := 0%float |})
         ∧ (Sections.missing bl "features" → MonsterData.features rec = [])
         ∧ (Sections.missing bl "actions" → MonsterData.actions rec = [])
         ∧ (Sections.missing bl "bonusActions" → MonsterData.bonusActions rec = [])
         ∧ (Sections.missing bl "reactions" → MonsterData.reactions rec = [])
         ∧ (Sections.missing bl "legendaryActions" →
            MonsterData.legendaryActions rec = [])
         ∧ (Sections.missing bl "lairActions" → MonsterData.lairActions rec = [])
         ∧ (Sections.missing bl "mythicActions" → MonsterData.mythicActions rec = [])
         ∧ (Sections.missing bl "villainActions" →
            MonsterData.villainActions rec = [])
         ∧ (Sections.missing bl "otherBlock" → MonsterData.otherInfo rec = []))
  ∧ fst (monsterParser.parseMonster plain σ0 "") = Throw (Error "No content to parse")
  ∧ fst (monsterParser.parseMonster plain σ0
           ("  " ++ nl ++ String "009" " " ++ nl ++ nl))
    = Throw (Error "No content to parse")
  ∧ fst (monsterParser.parseMonster plain σ0
           (nl ++ "  Goblin " ++ nl ++ "Hit Points many"))
    = Ok (Defaults.record "Goblin").
Proof.
  intros cleaned res.
  assert (Hres : res = monsterParser.parse_cleaned cleaned)
    by apply ParseFacts.parseMonster_cleaned.
  rewrite Hres. clear Hres res. unfold monsterParser.parse_cleaned.
  pose proof (TextFacts.nonblank_lines_nil cleaned) as Hnil.
  pose proof (TextFacts.nonblank_lines_first cleaned) as Hfirst.
  destruct (monsterParser.nonblank_lines cleaned) as [|name lines] eqn:El.
  - split; [split; [intros _; by apply Hnil|done]|].
    split; [intros H; destruct H; by apply Hnil|].
    split; [intros rec [=]|].
    repeat apply conj; vm_compute; reflexivity.
  - assert (Hnb : ¬ Text.blank cleaned).
    { intros H. by apply Hnil in H. }
    split; [|split; [|split; [|repeat apply conj; vm_compute; reflexivity]]].
    + split; [|done]. intros H.
      destruct (ExtractorFacts.assemble_ok name (monsterParser._parseIntoBlocks lines))
        as [rec Hrec].
      rewrite Hrec in H. discriminate H.
    + intros _. apply ExtractorFacts.assemble_ok.
    + intros rec Hrec.
      apply ExtractorFacts.assemble_fields in Hrec.
      destruct Hrec as (Hn & Hty & Hsz & Hal & Hac & Hhp & Hsp & Hab & Hsv & Hsk
        & Hdv & Hdr & Hdi & Hci & Hse & Hla & Hch & Hfe & Hact & Hba & Hre & Hle
        & Hlr & Hmy & Hvi & Hot).
      split; [rewrite Hn; by apply (Hfirst name lines)|].
      exists name, lines. split; [done|].
      split; [done|]. cbv zeta.
      set (bl := monsterParser._parseIntoBlocks lines) in *.
      repeat apply conj.
      * intros H. unfold monsterParser._extractType in Hty.
        unfold monsterParser._extractSize in Hsz.
        unfold monsterParser._extractAlignment in Hal.
        rewrite ExtractorFacts.first_match_default in Hty by done.
        rewrite ExtractorFacts.first_match_default in Hsz by done.
        rewrite ExtractorFacts.first_match_default in Hal by done.
        injection Hty as <-. injection Hsz as <-. injection Hal as <-. done.
      * intros H. unfold monsterParser._extractAC in Hac.
        rewrite ExtractorFacts.first_match_default in Hac by done. by injection Hac.
      * intros H. unfold monsterParser._extractHP in Hhp.
        rewrite ExtractorFacts.first_match_default in Hhp by done. by injection Hhp.
      * intros H. unfold monsterParser._extractSpeed in Hsp.
        rewrite ExtractorFacts.first_match_default in Hsp by done. by injection Hsp.
      * intros H. rewrite ExtractorFacts._extractAbilities_default in Hab by done.
        by injection Hab.
      * intros H. unfold monsterParser._extractSavingThrows in Hsv.
        rewrite ExtractorFacts.first_match_default in Hsv by done. by injection Hsv.
      * intros H. unfold monsterParser._extractSkills in Hsk.
        rewrite ExtractorFacts.first_match_default in Hsk by done. by injection Hsk.
      * intros H. unfold monsterParser._extractDamageVulnerabilities in Hdv.
        rewrite (ExtractorFacts._extractDamageCondition_default bl "damageVulnerabilities"
                   monsterParser.regex.damageVulnerabilities eq_refl H) in Hdv.
        by injection Hdv.
      * intros H. unfold monsterParser._extractDamageResistances in Hdr.
        rewrite (ExtractorFacts._extractDamageCondition_default bl "damageResistances"
                   monsterParser.regex.damageResistances eq_refl H) in Hdr.
        by injection Hdr.
      * intros H. unfold monsterParser._extractDamageImmunities in Hdi.
        rewrite (ExtractorFacts._extractDamageCondition_default bl "damageImmunities"
                   monsterParser.regex.damageImmunities eq_refl H) in Hdi.
        by injection Hdi.
      * intros H. unfold monsterParser._extractConditionImmunities in Hci.
        rewrite (ExtractorFacts._extractDamageCondition_default bl "conditionImmunities"
                   monsterParser.regex.conditionImmunities eq_refl H) in Hci.
        by injection Hci.
      * intros H. unfold monsterParser._extractSenses in Hse.
        rewrite ExtractorFacts.first_match_default in Hse by done. by injection Hse.
      * intros H. unfold monsterParser._extractLanguages in Hla.
        rewrite ExtractorFacts.first_match_default in Hla by done. by injection Hla.
      * intros H. unfold monsterParser._extractChallenge in Hch.
        rewrite ExtractorFacts.first_match_default in Hch by done. by injection Hch.
      * intros H. unfold monsterParser._extractFeatures in Hfe.
        rewrite ExtractorFacts._extractNamedEntries_default in Hfe by done.
        by injection Hfe.
      * intros H. unfold monsterParser._extractActions in Hact.
        rewrite ExtractorFacts._extractNamedEntries_default in Hact by done.
        by injection Hact.
      * intros H. unfold monsterParser._extractBonusActions in Hba.
        rewrite ExtractorFacts._extractNamedEntries_default in Hba by done.
        by injection Hba.
      * intros H. unfold monsterParser._extractReactions in Hre.
        rewrite ExtractorFacts._extractNamedEntries_default in Hre by done.
        by injection Hre.
      * intros H. unfold monsterParser._extractLegendaryActions in Hle.
        rewrite ExtractorFacts._extractNamedEntries_default in Hle by done.
        by injection Hle.
      * intros H. unfold monsterParser._extractLairActions in Hlr.
        rewrite ExtractorFacts._extractNamedEntries_default in Hlr by done.
        by injection Hlr.
      * intros H. unfold monsterParser._extractMythicActions in Hmy.
        rewrite ExtractorFacts._extractNamedEntries_default in Hmy by done.
        by injection Hmy.
      * intros H. unfold monsterParser._extractVillainActions in Hvi.
        rewrite ExtractorFacts._extractNamedEntries_default in Hvi by done.
        by injection Hvi.
      * intros H. rewrite ExtractorFacts._extractOtherInfo_default in Hot by done.
        by injection Hot.
Qed.

(** ** The line tagger *)

Module AnchoredFacts.
Import Regex RegexSem MatchShape MatchFacts.
Local Open Scope char_scope.

(** A pattern that starts with [^] and has no [m] flag matches at the
    start of the input or nowhere. *)
Lemma search_bol_later ic r : ∀ tl c i,
  search ic false (RSeq RBol r) (Some c) tl i = None.
Proof. induction tl as [|d tl IH]; intros c i; simpl; [done|]. apply IH. Qed.

Lemma test_anchored rg r' s :
  ast rg = RSeq RBol r' → multiline (rflags rg) = false →
  test rg s
  = match m (ignoreCase (rflags rg)) false (RSeq RBol r') Some
            (MState None (JsString.chars s) ∅) with
    | Some _ => true
    | None => false
    end.
Proof.
  intros Ha Hm. unfold test, exec, exec_from. rewrite Ha, Hm.
  generalize (JsString.chars s). intros l.
  change (length l <? 0)%nat with false. cbv iota.
  change (take 0 l) with (@nil ascii). change (last (@nil ascii)) with (@None ascii).
  rewrite drop_0. destruct l as [|c l]; cbn [search].
  - by destruct (m _ _ _ _ _).
  - destruct (m _ _ _ _ _); [done|]. by rewrite search_bol_later.
Qed.

(** The input a run of a quantified one-code-unit pattern consumes. *)
Lemma iter_stepped p j : ∀ st st',
  iter (λ s s', stepped p (clear_caps [] s) s') j st st' →
  ∃ w, length w = j ∧ Forall (λ c, p c = true) w ∧ rest st = w ++ rest st'.
Proof.
  induction j as [|j IH]; intros st st'; simpl.
  - intros ->. by exists [].
  - intros (mid & (c & tl & Hr & Hc & ->) & Hit).
    apply IH in Hit as (w & Hl & Hw & Hrest). simpl in Hrest.
    exists (c :: w). rewrite clear_caps_nil in Hr.
    split; [simpl; lia|]. split; [by constructor|]. rewrite Hr, Hrest. done.
Qed.
End AnchoredFacts.

Module AbilityLine.
Import Regex RegexSem RegexFacts MatchShape MatchFacts AnchoredFacts monsterParser.
Import AbilityShape.
Local Open Scope char_scope.

Lemma chr_mem_upper a c :
  chr_mem true a c = true → Char.to_upper c = Char.to_upper a.
Proof. unfold chr_mem, Char.eqb_ci. by intros ->%Ascii.eqb_eq. Qed.

Lemma paren_only c : chr_mem true "(" c = true → c = "(".
Proof. destruct c as [[] [] [] [] [] [] [] []]; vm_compute; congruence. Qed.

Lemma stepped_inv p st st' :
  stepped p st st' →
  ∃ c, rest st = c :: rest st' ∧ p c = true.
Proof. intros (c & tl & Hr & Hc & ->). by exists c. Qed.

Lemma stepped3 x y z st st' :
  (∃ mid1, stepped (chr_mem true x) st mid1
     ∧ ∃ mid2, stepped (chr_mem true y) mid1 mid2
               ∧ stepped (chr_mem true z) mid2 st') →
  ∃ c1 c2 c3,
    rest st = c1 :: c2 :: c3 :: rest st'
    ∧ Char.to_upper c1 = Char.to_upper x
    ∧ Char.to_upper c2 = Char.to_upper y
    ∧ Char.to_upper c3 = Char.to_upper z.
Proof.
  intros (m1 & (c1 & H1 & Hc1)%stepped_inv & m2 & (c2 & H2 & Hc2)%stepped_inv
          & (c3 & H3 & Hc3)%stepped_inv).
  exists c1, c2, c3. rewrite H1, H2, H3.
  repeat split; by apply chr_mem_upper.
Qed.

(** The shape of the lines the ability pattern matches. *)
Lemma shape line :
  Regex.test regex.abilities line = true → shaped (JsString.chars line).
Proof.
  rewrite (test_anchored regex.abilities _ line eq_refl eq_refl).
  destruct (m _ _ _ _ _) as [st|] eqn:E; [|done]. intros _.
  apply m_sound in E as (st' & Hm & _).
  change (ignoreCase (rflags regex.abilities)) with true in Hm.
  cbn [matches] in Hm.
  destruct Hm as (mid & [_ ->] & mid0 & (st1 & Halt & ->) & mid1 & (j1 & Hj1 & Hsp)
    & mid2 & (st2 & (j2 & Hj2 & Hdg) & ->) & mid3 & (j3 & _ & Hsp')
    & mid4 & (c & Hpar & Hc%paren_only)%stepped_inv & _).
  subst c.
  apply iter_stepped in Hsp as (sp & Hl1 & Hsp & Hr1).
  apply iter_stepped in Hdg as (dg & Hl2 & Hdg & Hr2).
  apply iter_stepped in Hsp' as (sp' & Hl3 & Hsp' & Hr3).
  cbn [set_cap rest] in *.
  destruct sp as [|w sp]; [simpl in Hl1; lia|].
  assert (∃ c1 c2 c3,
            JsString.chars line = c1 :: c2 :: c3 :: rest st1
            ∧ (Char.to_upper c1, Char.to_upper c2, Char.to_upper c3) ∈ abbreviations)
    as (c1 & c2 & c3 & Hline & Habbr).
  { unfold abbreviations.
    destruct Halt as [H|[H|[H|[H|[H|H]]]]];
      apply stepped3 in H as (c1 & c2 & c3 & Hr & H1 & H2 & H3);
      exists c1, c2, c3; (split; [exact Hr|]);
      rewrite H1, H2, H3; vm_compute; repeat constructor. }
  exists c1, c2, c3, w, sp, dg, sp', (rest mid4).
  rewrite Hline, Hr1, Hr2, Hr3, Hpar. done.
Qed.
End AbilityLine.

Module HeaderFacts.
Import Regex RegexSem RegexFacts MatchShape MatchFacts AnchoredFacts monsterParser.
Import AbilityShape ChallengeFacts AbilityLine.
Local Open Scope char_scope.

Lemma chr_mem_known a c X :
  Char.to_upper c = X → chr_mem true a c = Ascii.eqb (Char.to_upper a) X.
Proof. intros <-. reflexivity. Qed.

Lemma blank_upper w : blank w → Char.is_space (Char.to_upper w) = true.
Proof. unfold blank. destruct w as [[] [] [] [] [] [] [] []]; vm_compute; congruence. Qed.

Lemma blank_not a w :
  blank w → Char.is_space (Char.to_upper a) = false → chr_mem true a w = false.
Proof.
  intros Hw Ha. destruct (chr_mem true a w) eqn:E; [|done].
  apply chr_mem_upper in E. apply blank_upper in Hw. congruence.
Qed.

Lemma m_alt ic ml a b k st :
  m ic ml (RAlt a b) k st
  = match m ic ml a k st with
    | Some x => Some x
    | None => m ic ml b k st
    end.
Proof. reflexivity. Qed.

Ltac eval_eqb :=
  repeat match goal with
    | |- context [Ascii.eqb (Char.to_upper ?y) ?X] =>
        let b := eval vm_compute in (Ascii.eqb (Char.to_upper y) X) in
        change (Ascii.eqb (Char.to_upper y) X) with b
    end.

(** One step of a run on a line whose first three code units are known
    up to case and whose fourth is white space. *)
Ltac header_step H1 H2 H3 Hw :=
  first
    [ rewrite m_bol_start
    | rewrite m_group
    | rewrite m_alt
    | rewrite m_lit_step;
      first [ rewrite (chr_mem_known _ _ _ H1)
            | rewrite (chr_mem_known _ _ _ H2)
            | rewrite (chr_mem_known _ _ _ H3)
            | rewrite (blank_not _ _ Hw) by reflexivity ];
      eval_eqb; cbv iota
    | rewrite m_seq ].

Ltac header_fails Hl H1 H2 H3 Hw :=
  match goal with
  | |- Regex.test ?rg _ = false =>
      rewrite (test_anchored rg _ _ eq_refl eq_refl); rewrite Hl;
      change (ignoreCase (rflags rg)) with true;
      repeat header_step H1 H2 H3 Hw; reflexivity
  end.

(** No other header pattern matches a line of the ability shape. *)
Lemma other_headers_fail line r :
  shaped (JsString.chars line) → r ∈ other_headers → Regex.test r line = false.
Proof.
  intros (c1 & c2 & c3 & w & sp & dg & sp' & tl & Hl & Habbr & Hsp & _ & _) Hr.
  inversion Hsp as [|?? Hw _]; subst.
  cbn [app] in Hl. unfold abbreviations in Habbr.
  repeat (apply elem_of_cons in Habbr as [[= H1 H2 H3]|Habbr];
          [unfold other_headers in Hr;
           repeat (apply elem_of_cons in Hr as [->|Hr];
                   [header_fails Hl H1 H2 H3 Hw|]);
           by apply elem_of_nil in Hr|]).
  by apply elem_of_nil in Habbr.
Qed.
End HeaderFacts.

Module TitleFacts.
Import Regex RegexSem RegexFacts MatchShape MatchFacts AnchoredFacts monsterParser.
Import AbilityShape AbilityLine.
Local Open Scope char_scope.

(** The first code unit outside a set is where it is. *)
Lemma first_outside (P : ascii → bool) u1 : ∀ u2 x1 x2 r1 r2,
  u1 ++ x1 :: r1 = u2 ++ x2 :: r2 →
  Forall (λ c, P c = true) u1 → Forall (λ c, P c = true) u2 →
  P x1 = false → P x2 = false → x1 = x2.
Proof.
  induction u1 as [|c u1 IH]; intros u2 x1 x2 r1 r2 Heq H1 H2 Hx1 Hx2.
  - destruct u2 as [|d u2]; simpl in Heq; [congruence|].
    injection Heq as -> _. inversion H2; congruence.
  - destruct u2 as [|d u2]; simpl in Heq.
    + injection Heq as -> _. inversion H1; congruence.
    + injection Heq as -> Heq. inversion H1; inversion H2; subst. eauto.
Qed.

Lemma upper_letter_word c X :
  Char.to_upper c = X → Char.is_upper X = true → word_or_space c = true.
Proof.
  intros <-. destruct c as [[] [] [] [] [] [] [] []]; vm_compute; congruence.
Qed.

Lemma blank_word_or_space c : blank c → word_or_space c = true.
Proof. unfold blank. destruct c as [[] [] [] [] [] [] [] []]; vm_compute; congruence. Qed.

Lemma digit_word_or_space c : digit c → word_or_space c = true.
Proof. unfold digit. destruct c as [[] [] [] [] [] [] [] []]; vm_compute; congruence. Qed.

Lemma capital_word_or_space c :
  set_mem false false [CRange "A" "Z"] c = true → word_or_space c = true.
Proof. destruct c as [[] [] [] [] [] [] [] []]; vm_compute; congruence. Qed.

Lemma class_word_or_space c :
  set_mem false false [CWord; CSpace] c = word_or_space c.
Proof. unfold set_mem, class_mem, word_or_space. simpl. by rewrite orb_false_r. Qed.

Lemma dot_only c : chr_mem false "." c = true → c = ".".
Proof. unfold chr_mem. by intros ->%Ascii.eqb_eq. Qed.

(** Up to its opening parenthesis a line of the ability shape is made of
    word characters and white space. *)
Lemma shaped_prefix l :
  shaped l →
  ∃ u tl, l = u ++ "(" :: tl ∧ Forall (λ c, word_or_space c = true) u.
Proof.
  intros (c1 & c2 & c3 & w & sp & dg & sp' & tl & -> & Habbr & Hsp & Hdg & Hsp').
  exists (c1 :: c2 :: c3 :: (w :: sp) ++ dg ++ sp'), tl. split.
  - simpl. by rewrite <- !app_assoc.
  - unfold abbreviations in Habbr.
    assert (word_or_space c1 = true ∧ word_or_space c2 = true
            ∧ word_or_space c3 = true) as (H1 & H2 & H3).
    { repeat (apply elem_of_cons in Habbr as [[= H1 H2 H3]|Habbr];
              [repeat split; eapply upper_letter_word; eauto|]).
      by apply elem_of_nil in Habbr. }
    repeat (constructor; [done|]).
    repeat apply Forall_app_2.
    + eapply Forall_impl; [exact Hsp|]. apply blank_word_or_space.
    + eapply Forall_impl; [exact Hdg|]. apply digit_word_or_space.
    + eapply Forall_impl; [exact Hsp'|]. apply blank_word_or_space.
Qed.

(** The feature title pattern does not match a line of the ability
    shape. *)
Lemma blockTitle_fails line :
  shaped (JsString.chars line) → Regex.test regex.blockTitle line = false.
Proof.
  intros (u & tl & Hl & Hu)%shaped_prefix.
  rewrite (test_anchored regex.blockTitle _ line eq_refl eq_refl).
  destruct (m _ _ _ _ _) as [st|] eqn:E; [|done]. exfalso.
  apply m_sound in E as (st' & Hm & _).
  change (ignoreCase (rflags regex.blockTitle)) with false in Hm.
  cbn [matches] in Hm.
  destruct Hm as (mid & [_ ->] & mid0
    & (st1 & (mid1 & (c & Hc & Hcap)%stepped_inv & (j & _ & Hit)) & ->)
    & (d & Hd & ->%dot_only)%stepped_inv).
  apply iter_stepped in Hit as (ws & _ & Hws & Hr).
  cbn [set_cap rest] in *.
  assert (Heq : u ++ "(" :: tl = (c :: ws) ++ "." :: rest st').
  { rewrite <- Hl, Hc, Hr, Hd. reflexivity. }
  apply (first_outside word_or_space) in Heq; [discriminate Heq|done| |done|done].
  constructor; [by apply capital_word_or_space|].
  eapply Forall_impl; [exact Hws|]. intros x Hx.
  rewrite <- class_word_or_space. exact Hx.
Qed.
End TitleFacts.

Module TaggerFacts.
Import Regex monsterParser Tagging AbilityShape.

Lemma _getFirstMatch_ids line (excl : gset string) :
  _getFirstMatch line excl
  = List.find
      (λ b, if bool_decide (b ∈ excl) then false
            else match regex.get b with
                 | None => false
                 | Some r => Regex.test r line
                 end) header_ids.
Proof. reflexivity. Qed.

Lemma _getFirstMatch_find line (excl : gset string) :
  _getFirstMatch line excl
  = List.find
      (λ b, if bool_decide (b ∈ excl) then false
            else match regex.get b with
                 | None => false
                 | Some r => Regex.test r line
                 end)
      (List.filter
         (λ b, negb (bool_decide (b ∈ ["name"; "features"; "otherBlock"])))
         (map fst Blocks)).
Proof. reflexivity. Qed.

Lemma find_none_Forall {A} (f : A → bool) l :
  Forall (λ x, f x = false) l → List.find f l = None.
Proof. induction 1 as [|x l Hx _ IH]; simpl; [done|]. by rewrite Hx. Qed.

Lemma find_Some_inv {A} (f : A → bool) l x :
  List.find f l = Some x → x ∈ l ∧ f x = true.
Proof.
  intros [H1 H2]%find_some. split; [|done]. by apply list_elem_of_In.
Qed.

Lemma find_None_inv {A} (f : A → bool) l x :
  List.find f l = None → x ∈ l → f x = false.
Proof. intros H Hx%list_elem_of_In. by eapply find_none. Qed.

(** Every id that is tried has no pattern, or one of the header patterns. *)
Lemma ids_patterns :
  Forall (λ b, b = "abilities"
               ∨ match regex.get b with
                 | None => True
                 | Some r => r ∈ other_headers
                 end) header_ids.
Proof.
  unfold header_ids.
  repeat (apply Forall_cons_2;
    [first [ by left
           | right;
             lazymatch goal with
             | |- context [regex.get ?b] =>
                 let v := eval vm_compute in (regex.get b) in
                 change (regex.get b) with v
             end;
             cbv iota beta;
             first [ exact I
                   | apply list_elem_of_In; vm_compute;
                     repeat first [ left; reflexivity | right ] ] ]|]).
  constructor.
Qed.

Lemma first_match_abilities line (excl : gset string) :
  "abilities" ∉ excl → Regex.test regex.abilities line = true →
  _getFirstMatch line excl = Some "abilities".
Proof.
  intros Hex Ht. rewrite _getFirstMatch_ids. unfold header_ids.
  cbn [List.find]. rewrite bool_decide_eq_false_2 by done.
  change (regex.get "abilities") with (Some regex.abilities).
  cbv iota beta. by rewrite Ht.
Qed.

Lemma first_match_in_run line (excl : gset string) :
  shaped (JsString.chars line) → "abilities" ∈ excl →
  _getFirstMatch line excl = None.
Proof.
  intros Hs Hin. rewrite _getFirstMatch_ids. apply find_none_Forall.
  eapply Forall_impl; [apply ids_patterns|]. intros b [->|Hb]; cbv beta.
  - by rewrite bool_decide_eq_true_2.
  - destruct (bool_decide _); [done|].
    destruct (regex.get b); [|done]. by apply HeaderFacts.other_headers_fail.
Qed.

Lemma first_match_sound line (excl : gset string) b :
  _getFirstMatch line excl = Some b →
  b ∈ header_ids ∧ (b ∉ excl)
  ∧ ∃ r, regex.get b = Some r ∧ Regex.test r line = true.
Proof.
  rewrite _getFirstMatch_ids. intros [Hb Hf]%find_Some_inv.
  split; [done|]. destruct (bool_decide (b ∈ excl)) eqn:E; [done|].
  apply bool_decide_eq_false in E. split; [done|].
  destruct (regex.get b) as [r|]; [|done]. by exists r.
Qed.

(** *** The map operations of the loop *)

Lemma push_ensure_new (bl : gmap string (list TaggedLine.t)) b e :
  bl !! b = None → push (Some b) e (ensure b bl) = <[b := [e]]> bl.
Proof.
  intros H. unfold push, ensure. rewrite H, lookup_insert_eq.
  by rewrite insert_insert_eq.
Qed.

Lemma push_ensure_old (bl : gmap string (list TaggedLine.t)) b e ls :
  bl !! b = Some ls → push (Some b) e (ensure b bl) = <[b := ls ++ [e]]> bl.
Proof. intros H. unfold push, ensure. by rewrite H, H. Qed.

Lemma push_lookup (bl : gmap string (list TaggedLine.t)) k e b :
  push k e bl !! b
  = if bool_decide (k = Some b)
    then (λ ls, ls ++ [e]) <$> bl !! b
    else bl !! b.
Proof.
  unfold push. destruct k as [k|]; [|by rewrite bool_decide_eq_false_2].
  destruct (decide (k = b)) as [->|Hne].
  - rewrite bool_decide_eq_true_2 by done.
    destruct (bl !! b) as [ls|] eqn:E; simpl; [by rewrite lookup_insert_eq|done].
  - rewrite bool_decide_eq_false_2 by congruence.
    destruct (bl !! k); [by rewrite lookup_insert_ne|done].
Qed.

Lemma ensure_lookup (bl : gmap string (list TaggedLine.t)) k b :
  ensure k bl !! b
  = if bool_decide (k = b) then Some (default [] (bl !! b)) else bl !! b.
Proof.
  unfold ensure. destruct (decide (k = b)) as [->|Hne].
  - rewrite bool_decide_eq_true_2 by done.
    destruct (bl !! b) as [ls|] eqn:E; simpl; [done|by rewrite lookup_insert_eq].
  - rewrite bool_decide_eq_false_2 by done.
    destruct (bl !! k); [done|by rewrite lookup_insert_ne].
Qed.

(** *** The loop body, case by case *)

(** A line that matches a header. *)
Lemma tag_line_header st i raw b :
  kept raw →
  _getFirstMatch (JsString.trim raw) (dom (blocks st)) = Some b →
  tag_line st i raw
  = if foundAbilityLine st && String.eqb b "abilities"
    then {| blocks := push (currentBlockId st) (entry i raw) (blocks st);
            currentBlockId := currentBlockId st;
            foundTopBlock := Blocks_top b;
            foundAbilityLine := true |}
    else {| blocks := push (Some b) (entry i raw) (ensure b (blocks st));
            currentBlockId := Some b;
            foundTopBlock := Blocks_top b;
            foundAbilityLine := String.eqb b "abilities" |}.
Proof.
  intros [Hne Hstar] Hm. unfold tag_line. cbv zeta.
  rewrite Hne, Hstar, Hm. destruct st as [bl cur top fa].
  cbn [blocks currentBlockId foundTopBlock foundAbilityLine].
  rewrite bool_decide_eq_true_2 by done. cbn [negb andb].
  cbn [blocks currentBlockId foundTopBlock foundAbilityLine].
  destruct fa, (String.eqb b "abilities"); reflexivity.
Qed.

(** A line that matches no header. *)
Lemma tag_line_plain st i raw :
  kept raw →
  _getFirstMatch (JsString.trim raw) (dom (blocks st)) = None →
  tag_line st i raw
  = let title := foundTopBlock st
                 && Regex.test regex.blockTitle (JsString.trim raw) in
    let other := negb (foundAbilityLine st)
                 && Regex.test regex.otherBlock (JsString.trim raw) in
    let bl := if title then <["features" := []]> (blocks st) else blocks st in
    if other
    then {| blocks := push (Some "otherBlock") (entry i raw) (ensure "otherBlock" bl);
            currentBlockId := Some "otherBlock";
            foundTopBlock := false;
            foundAbilityLine := foundAbilityLine st |}
    else if title
    then {| blocks := push (Some "features") (entry i raw) bl;
            currentBlockId := Some "features";
            foundTopBlock := false;
            foundAbilityLine := foundAbilityLine st |}
    else {| blocks := push (currentBlockId st) (entry i raw) (blocks st);
            currentBlockId := currentBlockId st;
            foundTopBlock := foundTopBlock st;
            foundAbilityLine := foundAbilityLine st |}.
Proof.
  intros [Hne Hstar] Hm. unfold tag_line. cbv zeta.
  rewrite Hne, Hstar, Hm. destruct st as [bl cur top fa].
  cbn [blocks currentBlockId foundTopBlock foundAbilityLine].
  rewrite bool_decide_eq_false_2 by (by intros [? ?]). cbn [negb andb].
  destruct top, fa, (Regex.test regex.blockTitle _), (Regex.test regex.otherBlock _);
    reflexivity.
Qed.


End TaggerFacts.

Module TitleShape.
Import Regex RegexSem RegexFacts MatchShape MatchFacts ChallengeFacts AnchoredFacts.
Import monsterParser Tagging AbilityShape AbilityLine TitleFacts.
Local Open Scope char_scope.

Lemma m_set_step ic ml neg items r k pv c tl cp :
  m ic ml (RSeq (RSet neg items) r) k (MState pv (c :: tl) cp)
  = if set_mem ic neg items c then m ic ml r k (MState (Some c) tl cp) else None.
Proof. reflexivity. Qed.

Lemma m_rep_bounded ic ml a hi k st :
  m ic ml (RRep a 0 (Some hi)) k st
  = rep_hi (λ k' st', m ic ml a k' (clear_caps (groups a) st')) hi k st.
Proof. simpl. by rewrite Nat.sub_0_r. Qed.

(** What the optional iterations of a quantified one-code-unit pattern
    have consumed when the match succeeds: at most [n] code units of the
    set. *)
Lemma rep_hi_inv ic ml a p k x :
  char_pred ic a = Some p → ∀ n st,
  rep_hi (λ k' st', m ic ml a k' (clear_caps (groups a) st')) n k st = Some x →
  ∃ w tl, rest st = w ++ tl ∧ length w ≤ n ∧ Forall (λ c, p c = true) w
          ∧ k (MState (prev_after (prev st) w) tl (caps st)) = Some x.
Proof.
  intros Ha. induction n as [|n IH]; intros [pv l cp]; simpl.
  - intros Hk. exists [], l. by repeat split.
  - rewrite (m_single ic ml _ _ _ _ Ha). unfold step_char. cbn [rest caps].
    intros H.
    assert (Hstop : k (MState pv l cp) = Some x →
                    ∃ w tl, l = w ++ tl ∧ length w ≤ S n
                            ∧ Forall (λ c, p c = true) w
                            ∧ k (MState (prev_after pv w) tl cp) = Some x).
    { intros Hk. exists [], l. repeat split; [simpl; lia|done|done]. }
    destruct l as [|c tl]; [by apply Hstop|].
    destruct (p c) eqn:Hc; [|by apply Hstop].
    cbn [rest length] in H.
    replace (length tl <? S (length tl))%nat with true in H
      by (symmetry; apply Nat.ltb_lt; lia).
    destruct (rep_hi _ n k (MState (Some c) tl cp)) as [y|] eqn:E;
      [|by apply Hstop].
    injection H as ->. apply IH in E as (w & tl' & Hr & Hl & Hw & Hk).
    cbn [rest prev caps] in *. subst tl.
    exists (c :: w), tl'. rewrite prev_after_cons.
    repeat split; [simpl; lia|by constructor|done].
Qed.

Lemma upper_in_class c :
  set_mem false false [CRange "A" "Z"] c = Char.is_upper c.
Proof.
  unfold set_mem, class_mem, Char.is_upper, Char.in_range. simpl.
  by rewrite orb_false_r.
Qed.

Lemma dot_not_word : word_or_space "." = false.
Proof. reflexivity. Qed.

Lemma word_or_space_class u :
  Forall (λ x, word_or_space x = true) u
  ↔ Forall (λ x, set_mem false false [CWord; CSpace] x = true) u.
Proof.
  split; intros H; (eapply Forall_impl; [exact H|]); intros x Hx; cbv beta in *;
    [by rewrite class_word_or_space|by rewrite <- class_word_or_space].
Qed.

Lemma titled_unique l u u' : titled l u → titled l u' → u = u'.
Proof.
  intros (c & tl & -> & _ & Hu) (c' & tl' & Heq & _ & Hu').
  injection Heq as _ Heq. clear c c'.
  revert u' Hu' Heq. induction Hu as [|x u Hx _ IH]; intros u' Hu' Heq.
  - destruct Hu' as [|y u' Hy _]; [done|]. simpl in Heq.
    injection Heq as <- _. by rewrite dot_not_word in Hy.
  - destruct Hu' as [|y u' Hy Hu']; simpl in Heq.
    + injection Heq as -> _. by rewrite dot_not_word in Hx.
    + injection Heq as -> Heq. f_equal. by apply IH.
Qed.

(** The lines the feature title pattern matches. *)
Lemma blockTitle_titled line :
  Regex.test regex.blockTitle line = true
  ↔ ∃ u, titled (JsString.chars line) u ∧ u ≠ [].
Proof.
  rewrite (test_anchored regex.blockTitle _ line eq_refl eq_refl).
  change (ignoreCase (rflags regex.blockTitle)) with false.
  split.
  - destruct (m _ _ _ _ _) as [st|] eqn:E; [|done]. intros _.
    apply m_sound in E as (st' & Hm & _). cbn [matches] in Hm.
    destruct Hm as (mid & [_ ->] & mid0
      & (st1 & (mid1 & (c & Hc & Hcap)%stepped_inv & (j & Hj & Hit)) & ->)
      & (d & Hd & ->%dot_only)%stepped_inv).
    apply iter_stepped in Hit as (ws & Hlen & Hws & Hr).
    cbn [set_cap rest] in *.
    exists ws. split; [|destruct ws; [simpl in Hlen; lia|done]].
    exists c, (rest st'). rewrite Hc, Hr, Hd. split; [done|].
    rewrite upper_in_class in Hcap. split; [done|].
    eapply Forall_impl; [exact Hws|]. intros x Hx.
    by rewrite <- class_word_or_space.
  - intros (u & (c & tl & -> & Hc & Hu) & Hne).
    rewrite m_bol_start, m_seq, m_group, m_set_step, upper_in_class, Hc.
    erewrite (m_rep_run false false) with (w := u);
      [done|reflexivity|by apply word_or_space_class|reflexivity| |].
    + destruct u; [done|simpl; lia].
    + cbv beta. unfold set_cap. cbn [prev rest caps].
      rewrite m_char_step. reflexivity.
Qed.

(** The lines the biography pattern matches: the same, with at most 30
    code units between the capital and the full stop. *)
Lemma otherBlock_titled line :
  Regex.test regex.otherBlock line = true
  ↔ ∃ u, titled (JsString.chars line) u ∧ length u ≤ 30.
Proof.
  rewrite (test_anchored regex.otherBlock _ line eq_refl eq_refl).
  change (ignoreCase (rflags regex.otherBlock)) with false.
  split.
  - destruct (m _ _ _ _ _) as [st|] eqn:E; [|done]. intros _.
    rewrite m_bol_start, m_seq, m_group in E.
    destruct (JsString.chars line) as [|c l]; [done|].
    rewrite m_set_step, upper_in_class in E.
    destruct (Char.is_upper c) eqn:Hc; [|done].
    rewrite m_rep_bounded in E.
    eapply (rep_hi_inv false false) in E
      as (w & tl & Hr & Hlen & Hw%word_or_space_class & Hk); [|reflexivity].
    cbn [rest prev caps] in *. subst l. exists w. split; [|done].
    cbv beta in Hk. unfold set_cap in Hk. cbn [prev rest caps] in Hk.
    destruct tl as [|d tl]; [done|].
    rewrite m_char_step in Hk.
    destruct (chr_mem false "." d) eqn:Hd; [|done].
    apply dot_only in Hd as ->. by exists c, tl.
  - intros (u & (c & tl & -> & Hc & Hu) & Hlen).
    rewrite m_bol_start, m_seq, m_group, m_set_step, upper_in_class, Hc.
    rewrite m_rep_bounded.
    erewrite (rep_hi_run false false) with (w := u);
      [done|reflexivity|by apply word_or_space_class|reflexivity|done|].
    cbv beta. unfold set_cap. cbn [prev rest caps].
    rewrite m_char_step. reflexivity.
Qed.

Lemma titled_kept raw u : titled (JsString.chars (JsString.trim raw)) u → kept raw.
Proof.
  intros (c & tl & Hl & Hc & _). unfold kept.
  destruct (JsString.trim raw) as [|d s]; [done|].
  simpl in Hl. injection Hl as -> _. split; [done|].
  rewrite StringFacts.startsWith_single.
  destruct (Ascii.eqb "*" c) eqn:E; [|done].
  apply Ascii.eqb_eq in E. by subst c.
Qed.

Lemma short_title_other line u :
  titled (JsString.chars line) u → length u ≤ 30 →
  Regex.test regex.otherBlock line = true.
Proof. intros. apply otherBlock_titled. by exists u. Qed.

Lemma long_title_not_other line u :
  titled (JsString.chars line) u → 30 < length u →
  Regex.test regex.otherBlock line = false.
Proof.
  intros Hu Hlen. destruct (Regex.test regex.otherBlock line) eqn:E; [|done].
  apply otherBlock_titled in E as (u' & Hu' & Hlen').
  rewrite (titled_unique _ _ _ Hu Hu') in Hlen. lia.
Qed.

Lemma untitled_tests line :
  (∀ u, ¬ titled (JsString.chars line) u) →
  Regex.test regex.blockTitle line = false
  ∧ Regex.test regex.otherBlock line = false.
Proof.
  intros H. split.
  - destruct (Regex.test regex.blockTitle line) eqn:E; [|done].
    apply blockTitle_titled in E as (u & Hu & _). by destruct (H u).
  - destruct (Regex.test regex.otherBlock line) eqn:E; [|done].
    apply otherBlock_titled in E as (u & Hu & _). by destruct (H u).
Qed.
End TitleShape.

Module TaggerRun.
Import Regex monsterParser Tagging TaggedLines AbilityShape TaggerFacts TitleShape.
Local Open Scope char_scope.

Lemma ability_kept raw : ability_line raw → kept raw.
Proof.
  intros (c1 & c2 & c3 & w & sp & dg & sp' & tl & Hl & Habbr & _)%AbilityLine.shape.
  unfold kept. destruct (JsString.trim raw) as [|c s]; [done|].
  simpl in Hl. injection Hl as -> _. split; [done|].
  rewrite StringFacts.startsWith_single.
  destruct (Ascii.eqb "*" c1) eqn:E; [|done].
  apply Ascii.eqb_eq in E. subst c1. exfalso.
  unfold abbreviations in Habbr.
  repeat (apply elem_of_cons in Habbr as [Heq|Habbr];
          [vm_compute in Heq; discriminate|]).
  by apply elem_of_nil in Habbr.
Qed.

(** An ability line met inside the run. *)
Lemma tag_line_in_run st i raw ls :
  foundAbilityLine st = true → currentBlockId st = Some "abilities"%string →
  blocks st !! "abilities"%string = Some ls → ability_line raw →
  tag_line st i raw
  = {| blocks := <["abilities"%string := ls ++ [entry i raw]]> (blocks st);
       currentBlockId := Some "abilities"%string;
       foundTopBlock := foundTopBlock st;
       foundAbilityLine := true |}.
Proof.
  intros Hfa Hcur Hls Hab.
  pose proof (AbilityLine.shape _ Hab) as Hs.
  rewrite tag_line_plain; [|by apply ability_kept|].
  2: { apply first_match_in_run; [done|]. apply elem_of_dom. by eexists. }
  cbv zeta. rewrite Hfa, (TitleFacts.blockTitle_fails _ Hs), andb_false_r.
  cbn [negb andb]. rewrite Hcur. unfold push. by rewrite Hls.
Qed.

Lemma tag_lines_in_run raws : ∀ st i ls,
  foundAbilityLine st = true → currentBlockId st = Some "abilities"%string →
  blocks st !! "abilities"%string = Some ls → Forall ability_line raws →
  tag_lines st i raws
  = {| blocks := <["abilities"%string := ls ++ entries i raws]> (blocks st);
       currentBlockId := Some "abilities"%string;
       foundTopBlock := foundTopBlock st;
       foundAbilityLine := true |}.
Proof.
  induction raws as [|raw raws IH]; intros st i ls Hfa Hcur Hls Hall.
  - destruct st as [bl cur top fa]. simpl in *. subst.
    by rewrite app_nil_r, insert_id.
  - inversion Hall as [|?? Hraw Hraws]; subst. cbn [tag_lines entries].
    rewrite (tag_line_in_run _ _ _ ls) by done.
    rewrite (IH _ _ (ls ++ [entry i raw])); [|done|done| |done].
    + cbn [blocks foundTopBlock]. rewrite insert_insert_eq.
      by rewrite <- app_assoc.
    + cbn [blocks]. apply lookup_insert_eq.
Qed.

(** What one iteration does to the list of a block. *)
Lemma tag_line_block st i raw b :
  blocks (tag_line st i raw) !! b = blocks st !! b
  ∨ (b = "features"%string ∧ blocks (tag_line st i raw) !! b = Some [])
  ∨ (kept raw
     ∧ blocks (tag_line st i raw) !! b
       = Some (default [] (blocks st !! b) ++ [entry i raw]))
  ∨ (kept raw ∧ b = "features"%string
     ∧ blocks (tag_line st i raw) !! b = Some [entry i raw]).
Proof.
  destruct (String.eqb (JsString.trim raw) "") eqn:E1.
  { left. unfold tag_line. cbv zeta. by rewrite E1. }
  destruct (JsString.startsWith (JsString.trim raw) "*") eqn:E2.
  { left. unfold tag_line. cbv zeta. by rewrite E1, E2. }
  assert (Hk : kept raw) by done.
  remember (blocks st !! b) as o eqn:Eo.
  destruct (_getFirstMatch (JsString.trim raw) (dom (blocks st))) as [h|] eqn:Hm.
  - rewrite (tag_line_header _ _ _ h Hk Hm).
    destruct (foundAbilityLine st && String.eqb h "abilities"); cbn [blocks];
      rewrite !push_lookup, ?ensure_lookup, <- ?Eo;
      repeat case_bool_decide; try congruence;
      destruct o; simpl; eauto 10.
  - rewrite (tag_line_plain _ _ _ Hk Hm). cbv zeta.
    destruct (decide (b = "features"%string)) as [->|Hbf];
      destruct (foundTopBlock st && _), (negb (foundAbilityLine st) && _);
      cbn [blocks];
      rewrite !push_lookup, ?ensure_lookup,
        ?lookup_insert_eq, ?lookup_insert_ne, <- ?Eo by done;
      repeat case_bool_decide; try congruence;
      destruct o; simpl; eauto 10.
Qed.

(** Outside the features block nothing is ever taken away. *)
Lemma tag_line_keeps st i raw b ls :
  b ≠ "features"%string → blocks st !! b = Some ls →
  ∃ ext, blocks (tag_line st i raw) !! b = Some (ls ++ ext).
Proof.
  intros Hb Hls.
  destruct (tag_line_block st i raw b) as [H|[[? _]|[[_ H]|(_ & ? & _)]]];
    try done; rewrite H, Hls.
  - exists []. by rewrite app_nil_r.
  - by eexists.
Qed.

Lemma tag_lines_keeps raws : ∀ st i b ls,
  b ≠ "features"%string → blocks st !! b = Some ls →
  ∃ ext, blocks (tag_lines st i raws) !! b = Some (ls ++ ext).
Proof.
  induction raws as [|raw raws IH]; intros st i b ls Hb Hls; simpl.
  - exists []. by rewrite app_nil_r.
  - destruct (tag_line_keeps st i raw b ls Hb Hls) as (e1 & H1).
    destruct (IH _ (S i) _ _ Hb H1) as (e2 & H2).
    exists (e1 ++ e2). by rewrite H2, app_assoc.
Qed.

Lemma tag_lines_app pre : ∀ post st i,
  tag_lines st i (pre ++ post) = tag_lines (tag_lines st i pre) (i + length pre) post.
Proof.
  induction pre as [|raw pre IH]; intros post st i; simpl.
  - by rewrite Nat.add_0_r.
  - rewrite IH. by rewrite Nat.add_succ_r.
Qed.

(** *** Where the tagged lines come from *)

Lemma increasing_snoc ls e :
  increasing ls →
  Forall (λ x, TaggedLine.lineNumber x < TaggedLine.lineNumber e) ls →
  increasing (ls ++ [e]).
Proof.
  induction ls as [|x ls IH]; simpl; intros Hs Hall.
  - by repeat constructor.
  - destruct Hs as [Hx Hs]. inversion Hall; subst. split; [|by apply IH].
    apply Forall_app. split; [done|]. by repeat constructor.
Qed.

Lemma tidy_step lines i raw st :
  lines !! i = Some raw → tidy lines i st → tidy lines (S i) (tag_line st i raw).
Proof.
  intros Hraw Hst b ls' Hls'.
  assert (Hold : ∀ ls, blocks st !! b = Some ls →
            Forall (λ e, TaggedLine.lineNumber e < S i ∧ from_input lines e) ls
            ∧ increasing ls
            ∧ Forall (λ e, TaggedLine.lineNumber e < i) ls).
  { intros ls [H1 H2]%Hst. repeat split; [|done|].
    - eapply Forall_impl; [exact H1|]. intros e [? ?]. split; [lia|done].
    - eapply Forall_impl; [exact H1|]. by intros e [? ?]. }
  assert (Hnew : kept raw →
            TaggedLine.lineNumber (entry i raw) < S i
            ∧ from_input lines (entry i raw)).
  { intros Hk. split; [simpl; lia|]. by exists raw. }
  destruct (tag_line_block st i raw b) as [H|[[_ H]|[[Hk H]|(Hk & _ & H)]]];
    rewrite H in Hls'.
  - by destruct (Hold _ Hls') as (? & ? & _).
  - injection Hls' as <-. by split; [constructor|].
  - injection Hls' as <-. destruct (blocks st !! b) as [ls|] eqn:E; simpl.
    + destruct (Hold _ eq_refl) as (H1 & H2 & H3). split.
      * apply Forall_app. split; [done|]. constructor; [by apply Hnew|done].
      * by apply increasing_snoc.
    + split; [constructor; [by apply Hnew|done]|by repeat constructor].
  - injection Hls' as <-.
    split; [constructor; [by apply Hnew|done]|by repeat constructor].
Qed.

Lemma tidy_run lines : ∀ raws st i,
  drop i lines = raws → tidy lines i st →
  tidy lines (i + length raws) (tag_lines st i raws).
Proof.
  induction raws as [|raw raws IH]; intros st i Hd Hst; simpl.
  - by rewrite Nat.add_0_r.
  - rewrite Nat.add_succ_r. apply (IH _ (S i)).
    + replace (S i) with (i + 1) by lia. by rewrite <- drop_drop, Hd.
    + apply tidy_step; [|done].
      rewrite <- (Nat.add_0_r i), <- lookup_drop, Hd. done.
Qed.
End TaggerRun.

(** ** The boundary of the ability run *)

Module RunBoundary.
Import Regex monsterParser Tagging TaggerFacts.


End RunBoundary.




(** X1.  Ability run.  From a state with no abilities block and outside
    an ability run, consecutive lines that all match the ability pattern
    are all tagged "abilities", in order: the first one opens the block,
    the next ones match no header (the abilities id is excluded, no other
    header pattern and no title pattern matches them) and are appended to
    it.  The other blocks are left as they were. *)
Theorem ability_run_one_section (st : monsterParser.tagger) i raw raws :
  monsterParser.blocks st !! "abilities" = None →
  monsterParser.foundAbilityLine st = false →
  Forall Tagging.ability_line (raw :: raws) →
  monsterParser.tag_lines st i (raw :: raws)
  = {| monsterParser.blocks :=
         <["abilities" := Tagging.entries i (raw :: raws)]> (monsterParser.blocks st);
       monsterParser.currentBlockId := Some "abilities";
       monsterParser.foundTopBlock := true;
       monsterParser.foundAbilityLine := true |}.
Proof.
  intros Hnone Hfa Hall. inversion Hall as [|?? Hraw Hraws]; subst.
  cbn [monsterParser.tag_lines Tagging.entries].
  assert (Hopen : monsterParser.tag_line st i raw
    = {| monsterParser.blocks :=
           <["abilities" := [Tagging.entry i raw]]> (monsterParser.blocks st);
         monsterParser.currentBlockId := Some "abilities";
         monsterParser.foundTopBlock := true;
         monsterParser.foundAbilityLine := true |}).
  { rewrite (TaggerFacts.tag_line_header _ _ _ "abilities");
      [|by apply TaggerRun.ability_kept|].
    - rewrite Hfa. cbn [andb]. by rewrite TaggerFacts.push_ensure_new.
    - apply TaggerFacts.first_match_abilities; [|done].
      by apply not_elem_of_dom. }
  rewrite Hopen.
  rewrite (TaggerRun.tag_lines_in_run _ _ _ [Tagging.entry i raw]);
    [|done|done|apply lookup_insert_eq|done].
  cbn [monsterParser.blocks monsterParser.foundTopBlock app].
  by rewrite insert_insert_eq.
Qed.

Lemma ability_run_one_section_witness :
  monsterParser.tag_lines monsterParser.tagger_init 0
    ["STR 18 (+4)"; " DEX 12 (+1)"; "con 14 (+2)"; "INT 10 (+0)"; "WIS 8 (-1)";
     "CHA 9 (-1)"]
  = {| monsterParser.blocks :=
         <["abilities" :=
             Tagging.entries 0
               ["STR 18 (+4)"; " DEX 12 (+1)"; "con 14 (+2)"; "INT 10 (+0)";
                "WIS 8 (-1)"; "CHA 9 (-1)"] ]>
           (monsterParser.blocks monsterParser.tagger_init);
       monsterParser.currentBlockId := Some "abilities";
       monsterParser.foundTopBlock := true;
       monsterParser.foundAbilityLine := true |}.
Proof.
  apply (ability_run_one_section monsterParser.tagger_init 0).
  - vm_compute. reflexivity.
  - reflexivity.
  - repeat (apply Forall_cons_2; [vm_compute; reflexivity|]). apply Forall_nil_2.
Defined.

(** X2.  A header ends the run.  A line whose first matching header is
    [b], other than the abilities header, opens the block [b] with this
    line as its only line, makes it the current block and leaves the
    ability run, whatever the state before; the lines tagged
    "abilities" so far are not touched. *)
Theorem header_opens_its_block (st : monsterParser.tagger) i raw b :
  Tagging.kept raw →
  monsterParser._getFirstMatch (JsString.trim raw) (dom (monsterParser.blocks st))
  = Some b →
  String.eqb b "abilities" = false →
  monsterParser.tag_line st i raw
  = {| monsterParser.blocks := <[b := [Tagging.entry i raw]]> (monsterParser.blocks st);
       monsterParser.currentBlockId := Some b;
       monsterParser.foundTopBlock := monsterParser.Blocks_top b;
       monsterParser.foundAbilityLine := false |}
  ∧ monsterParser.blocks (monsterParser.tag_line st i raw) !! "abilities"
    = monsterParser.blocks st !! "abilities".
Proof.
  intros Hk Hm Hb.
  assert (Heq : monsterParser.tag_line st i raw
    = {| monsterParser.blocks :=
           <[b := [Tagging.entry i raw]]> (monsterParser.blocks st);
         monsterParser.currentBlockId := Some b;
         monsterParser.foundTopBlock := monsterParser.Blocks_top b;
         monsterParser.foundAbilityLine := false |}).
  { rewrite (TaggerFacts.tag_line_header _ _ _ b Hk Hm), Hb, andb_false_r.
    apply TaggerFacts.first_match_sound in Hm as (_ & Hex & _).
    apply not_elem_of_dom in Hex. by rewrite TaggerFacts.push_ensure_new. }
  split; [done|]. rewrite Heq. cbn [monsterParser.blocks].
  apply lookup_insert_ne. intros ->. by rewrite String.eqb_refl in Hb.
Qed.

Lemma header_opens_its_block_witness :
  monsterParser.tag_line TaggedLines.after_two_abilities 2 "Saving Throws Dex +3"
  = {| monsterParser.blocks :=
         <["savingThrows" := [Tagging.entry 2 "Saving Throws Dex +3"] ]>
           (monsterParser.blocks TaggedLines.after_two_abilities);
       monsterParser.currentBlockId := Some "savingThrows";
       monsterParser.foundTopBlock := monsterParser.Blocks_top "savingThrows";
       monsterParser.foundAbilityLine := false |}
  ∧ monsterParser.blocks
      (monsterParser.tag_line TaggedLines.after_two_abilities 2 "Saving Throws Dex +3")
    !! "abilities"
    = monsterParser.blocks TaggedLines.after_two_abilities !! "abilities".
Proof.
  apply (header_opens_its_block TaggedLines.after_two_abilities 2
           "Saving Throws Dex +3" "savingThrows").
  - unfold Tagging.kept. apply conj; vm_compute; reflexivity.
  - vm_compute. reflexivity.
  - reflexivity.
Defined.

(** X3.  [_getFirstMatch] returns only an id that is not excluded, is
    none of "name", "features" and "otherBlock", and has a pattern that
    matches the line; it returns nothing only when no id that is not
    excluded has a pattern that matches the line. *)
Theorem first_match_is_eligible line (excludeIds : gset string) :
  (∀ b, monsterParser._getFirstMatch line excludeIds = Some b →
        b ∈ map fst monsterParser.Blocks
        ∧ (b ∉ excludeIds)
        ∧ (b ∉ ["name"; "features"; "otherBlock"])
        ∧ ∃ r, monsterParser.regex.get b = Some r ∧ Regex.test r line = true)
  ∧ (monsterParser._getFirstMatch line excludeIds = None →
     ∀ b r, b ∈ map fst monsterParser.Blocks →
            b ∉ ["name"; "features"; "otherBlock"] →
            b ∉ excludeIds →
            monsterParser.regex.get b = Some r → Regex.test r line = false).
Proof.
  split.
  - intros b Hm. pose proof Hm as (_ & Hex & Hr)%TaggerFacts.first_match_sound.
    rewrite TaggerFacts._getFirstMatch_find in Hm.
    apply TaggerFacts.find_Some_inv in Hm as [Hin _].
    apply list_elem_of_In, filter_In in Hin as [Hin Hf].
    apply list_elem_of_In in Hin. apply negb_true_iff, bool_decide_eq_false in Hf.
    exact (conj Hin (conj Hex (conj Hf Hr))).
  - intros Hm b r Hin Hb Hex Hr.
    rewrite TaggerFacts._getFirstMatch_find in Hm.
    eapply (TaggerFacts.find_None_inv _ _ b) in Hm.
    + cbv beta in Hm. rewrite bool_decide_eq_false_2, Hr in Hm by exact Hex.
      exact Hm.
    + apply list_elem_of_In, filter_In. apply conj.
      * apply list_elem_of_In. exact Hin.
      * apply negb_true_iff, bool_decide_eq_false. exact Hb.
Qed.

(** X4.  A title of at most 31 code units goes to the biography block.
    Outside an ability run, a line that matches no header and begins
    with a capital letter, at most 30 word or white-space code units and
    a full stop becomes a line of "otherBlock", which becomes the current
    block, whether or not the top-level run is still on.  When it is on
    and the title has more than its capital, the features block is also
    created or emptied. *)
Theorem short_title_filed_as_other (st : monsterParser.tagger) i raw u :
  monsterParser._getFirstMatch (JsString.trim raw) (dom (monsterParser.blocks st))
  = None →
  monsterParser.foundAbilityLine st = false →
  Tagging.titled (JsString.chars (JsString.trim raw)) u →
  length u ≤ 30 →
  let st' := monsterParser.tag_line st i raw in
  monsterParser.currentBlockId st' = Some "otherBlock"
  ∧ monsterParser.foundTopBlock st' = false
  ∧ monsterParser.foundAbilityLine st' = false
  ∧ monsterParser.blocks st' !! "otherBlock"
    = Some (default [] (monsterParser.blocks st !! "otherBlock")
            ++ [Tagging.entry i raw])
  ∧ (monsterParser.foundTopBlock st = true → u ≠ [] →
     monsterParser.blocks st' !! "features" = Some []).
Proof.
  intros Hm Hfa Hu Hlen st'. subst st'.
  rewrite (TaggerFacts.tag_line_plain _ _ _ (TitleShape.titled_kept _ _ Hu) Hm).
  cbv zeta. rewrite Hfa, (TitleShape.short_title_other _ _ Hu Hlen).
  cbn [negb andb monsterParser.currentBlockId monsterParser.foundTopBlock
       monsterParser.foundAbilityLine monsterParser.blocks].
  repeat apply conj; try reflexivity.
  - rewrite TaggerFacts.push_lookup, bool_decide_eq_true_2 by done.
    rewrite TaggerFacts.ensure_lookup, bool_decide_eq_true_2 by done.
    destruct (monsterParser.foundTopBlock st && _);
      by rewrite ?lookup_insert_ne by done.
  - intros Htop Hne. rewrite Htop. cbn [andb].
    assert (Regex.test monsterParser.regex.blockTitle (JsString.trim raw) = true)
      as -> by (apply TitleShape.blockTitle_titled; by exists u).
    rewrite TaggerFacts.push_lookup, bool_decide_eq_false_2 by done.
    rewrite TaggerFacts.ensure_lookup, bool_decide_eq_false_2 by done.
    apply lookup_insert_eq.
Qed.

Lemma short_title_filed_as_other_witness :
  let st' := monsterParser.tag_line monsterParser.tagger_init 0
               "Nimble Escape. The goblin can hide." in
  monsterParser.currentBlockId st' = Some "otherBlock"
  ∧ monsterParser.foundTopBlock st' = false
  ∧ monsterParser.foundAbilityLine st' = false
  ∧ monsterParser.blocks st' !! "otherBlock"
    = Some (default [] (monsterParser.blocks monsterParser.tagger_init !! "otherBlock")
            ++ [Tagging.entry 0 "Nimble Escape. The goblin can hide."])
  ∧ (monsterParser.foundTopBlock monsterParser.tagger_init = true →
     JsString.chars "imble Escape" ≠ [] →
     monsterParser.blocks st' !! "features" = Some []).
Proof.
  apply (short_title_filed_as_other monsterParser.tagger_init 0
           "Nimble Escape. The goblin can hide." (JsString.chars "imble Escape")).
  - vm_compute. reflexivity.
  - reflexivity.
  - exists "N"%char, (JsString.chars " The goblin can hide.").
    apply conj; [vm_compute; reflexivity|].
    apply conj; [vm_compute; reflexivity|].
    repeat (apply Forall_cons_2; [vm_compute; reflexivity|]). apply Forall_nil_2.
  - vm_compute. lia.
Defined.

(** X5.  A title opens the features block only when the biography rule
    does not take it.  While the top-level run is on, a line that
    matches no header and begins with a capital letter, a non-empty run
    of word or white-space code units and a full stop opens the features
    block with this line as its only line (whatever the block held
    before is dropped), provided the run is longer than 30 code units or
    the line is met inside an ability run. *)
Theorem long_title_opens_features (st : monsterParser.tagger) i raw u :
  monsterParser._getFirstMatch (JsString.trim raw) (dom (monsterParser.blocks st))
  = None →
  monsterParser.foundTopBlock st = true →
  Tagging.titled (JsString.chars (JsString.trim raw)) u →
  0 < length u →
  30 < length u ∨ monsterParser.foundAbilityLine st = true →
  monsterParser.tag_line st i raw
  = {| monsterParser.blocks :=
         <["features" := [Tagging.entry i raw]]> (monsterParser.blocks st);
       monsterParser.currentBlockId := Some "features";
       monsterParser.foundTopBlock := false;
       monsterParser.foundAbilityLine := monsterParser.foundAbilityLine st |}.
Proof.
  intros Hm Htop Hu Hpos Hcase.
  rewrite (TaggerFacts.tag_line_plain _ _ _ (TitleShape.titled_kept _ _ Hu) Hm).
  cbv zeta. rewrite Htop.
  assert (Regex.test monsterParser.regex.blockTitle (JsString.trim raw) = true)
    as -> by (apply TitleShape.blockTitle_titled; exists u; split; [done|];
              destruct u; [simpl in Hpos; lia|done]).
  assert (negb (monsterParser.foundAbilityLine st)
          && Regex.test monsterParser.regex.otherBlock (JsString.trim raw) = false)
    as ->.
  { destruct Hcase as [Hlong| ->]; [|done].
    by rewrite (TitleShape.long_title_not_other _ _ Hu Hlong), andb_false_r. }
  cbn [andb]. f_equal. unfold monsterParser.push.
  by rewrite lookup_insert_eq, insert_insert_eq.
Qed.

Lemma long_title_opens_features_witness :
  monsterParser.tag_line TaggedLines.after_two_abilities 2 "Pack Tactics. The wolf bites."
  = {| monsterParser.blocks :=
         <["features" := [Tagging.entry 2 "Pack Tactics. The wolf bites."] ]>
           (monsterParser.blocks TaggedLines.after_two_abilities);
       monsterParser.currentBlockId := Some "features";
       monsterParser.foundTopBlock := false;
       monsterParser.foundAbilityLine :=
         monsterParser.foundAbilityLine TaggedLines.after_two_abilities |}.
Proof.
  apply (long_title_opens_features TaggedLines.after_two_abilities 2
           "Pack Tactics. The wolf bites." (JsString.chars "ack Tactics")).
  - vm_compute. reflexivity.
  - vm_compute. reflexivity.
  - exists "P"%char, (JsString.chars " The wolf bites.").
    apply conj; [vm_compute; reflexivity|].
    apply conj; [vm_compute; reflexivity|].
    repeat (apply Forall_cons_2; [vm_compute; reflexivity|]). apply Forall_nil_2.
  - vm_compute. lia.
  - right. vm_compute. reflexivity.
Defined.

(** X6.  Continuation lines.  A line that is kept, matches no header and
    is not of the title shape changes neither the current block nor the
    flags: it is appended to the current block, and it is dropped when
    there is no current block yet. *)
Theorem plain_line_continues_block (st : monsterParser.tagger) i raw :
  Tagging.kept raw →
  monsterParser._getFirstMatch (JsString.trim raw) (dom (monsterParser.blocks st))
  = None →
  (∀ u, ¬ Tagging.titled (JsString.chars (JsString.trim raw)) u) →
  (monsterParser.currentBlockId st = None → monsterParser.tag_line st i raw = st)
  ∧ (∀ k ls, monsterParser.currentBlockId st = Some k →
       monsterParser.blocks st !! k = Some ls →
       monsterParser.tag_line st i raw
       = {| monsterParser.blocks :=
              <[k := ls ++ [Tagging.entry i raw]]> (monsterParser.blocks st);
            monsterParser.currentBlockId := Some k;
            monsterParser.foundTopBlock := monsterParser.foundTopBlock st;
            monsterParser.foundAbilityLine := monsterParser.foundAbilityLine st |}).
Proof.
  intros Hk Hm Hu. rewrite (TaggerFacts.tag_line_plain _ _ _ Hk Hm). cbv zeta.
  destruct (TitleShape.untitled_tests _ Hu) as [-> ->].
  rewrite !andb_false_r. split.
  - intros Hcur. destruct st as [bl cur top fa]. simpl in *. by subst.
  - intros k ls Hcur Hls. rewrite Hcur. unfold monsterParser.push. by rewrite Hls.
Qed.

Lemma plain_line_continues_block_witness :
  (monsterParser.currentBlockId TaggedLines.after_two_abilities = None →
   monsterParser.tag_line TaggedLines.after_two_abilities 2 "(see below)"
   = TaggedLines.after_two_abilities)
  ∧ (∀ k ls, monsterParser.currentBlockId TaggedLines.after_two_abilities = Some k →
       monsterParser.blocks TaggedLines.after_two_abilities !! k = Some ls →
       monsterParser.tag_line TaggedLines.after_two_abilities 2 "(see below)"
       = {| monsterParser.blocks :=
              <[k := ls ++ [Tagging.entry 2 "(see below)"] ]>
                (monsterParser.blocks TaggedLines.after_two_abilities);
            monsterParser.currentBlockId := Some k;
            monsterParser.foundTopBlock :=
              monsterParser.foundTopBlock TaggedLines.after_two_abilities;
            monsterParser.foundAbilityLine :=
              monsterParser.foundAbilityLine TaggedLines.after_two_abilities |}).
Proof.
  apply (plain_line_continues_block TaggedLines.after_two_abilities 2 "(see below)").
  - unfold Tagging.kept. apply conj; vm_compute; reflexivity.
  - vm_compute. reflexivity.
  - intros u (c & tl & Hl & Hc & _). vm_compute in Hl.
    injection Hl as <- _. vm_compute in Hc. discriminate Hc.
Defined.

(** X7.  Every line object of every block that [_parseIntoBlocks]
    returns stands for a line of the input: its text is the trimmed text
    of the input line at its line number, which is neither empty nor
    starts with an asterisk; and within a block the line numbers strictly
    increase, so no line appears twice in a block. *)
Theorem tagged_lines_come_from_input (lines : list string) b ls :
  monsterParser._parseIntoBlocks lines !! b = Some ls →
  Forall (TaggedLines.from_input lines) ls ∧ TaggedLines.increasing ls.
Proof.
  intros H.
  assert (Hinit : TaggedLines.tidy lines 0 monsterParser.tagger_init).
  { intros b' ls' Hl. unfold monsterParser.tagger_init in Hl.
    cbn [monsterParser.blocks] in Hl. by rewrite lookup_empty in Hl. }
  apply (TaggerRun.tidy_run lines lines _ 0 eq_refl) in Hinit.
  destruct (Hinit b ls H) as [H1 H2]. split; [|done].
  eapply Forall_impl; [exact H1|]. by intros e [_ ?].
Qed.

Lemma tagged_lines_come_from_input_witness :
  Forall (TaggedLines.from_input ["Armor Class 15"; ""; "STR 8 (-1)"; "* note"])
    [Tagging.entry 2 "STR 8 (-1)"]
  ∧ TaggedLines.increasing [Tagging.entry 2 "STR 8 (-1)"].
Proof.
  apply (tagged_lines_come_from_input
           ["Armor Class 15"; ""; "STR 8 (-1)"; "* note"] "abilities").
  vm_compute. reflexivity.
Defined.

(** X8.  Reading more lines never takes a tagged line away, but in the
    features block: the lines a block other than "features" holds after
    a prefix of the input are a prefix of the lines it holds after the
    whole input. *)
Theorem tagged_lines_never_lost (pre post : list string) b ls :
  String.eqb b "features" = false →
  monsterParser._parseIntoBlocks pre !! b = Some ls →
  ∃ ext, monsterParser._parseIntoBlocks (pre ++ post) !! b = Some (ls ++ ext).
Proof.
  intros Hb Hls. unfold monsterParser._parseIntoBlocks.
  rewrite TaggerRun.tag_lines_app. apply TaggerRun.tag_lines_keeps; [|done].
  intros ->. by rewrite String.eqb_refl in Hb.
Qed.

Lemma tagged_lines_never_lost_witness :
  ∃ ext,
    monsterParser._parseIntoBlocks
      (["Armor Class 15"; "(natural armor)"] ++ ["Speed 30 ft."; "Senses -"])
    !! "armor"
    = Some ([Tagging.entry 0 "Armor Class 15"; Tagging.entry 1 "(natural armor)"]
            ++ ext).
Proof.
  apply (tagged_lines_never_lost ["Armor Class 15"; "(natural armor)"]
           ["Speed 30 ft."; "Senses -"] "armor").
  - reflexivity.
  - vm_compute. reflexivity.
Defined.

Module DetectorFacts.
Import contentDetector Detection TrimFacts.

Lemma refine_loop_trimmed lines : ∀ i blockStart currentBlock refinedBlocks,
  Forall trimmed refinedBlocks →
  Forall trimmed (refine_loop lines i blockStart currentBlock refinedBlocks).
Proof.
  assert (Hpush : ∀ cur acc, Forall trimmed acc →
            Forall trimmed (if nonblank cur then acc ++ [JsString.trim cur] else acc)).
  { intros cur acc Hacc. destruct (nonblank cur) eqn:E; [|done].
    apply Forall_app. split; [done|]. constructor; [|done].
    by apply nonblank_trimmed. }
  induction lines as [|l lines IH]; intros i bs cur acc Hacc;
    cbn [refine_loop]; [by apply Hpush|].
  destruct (_ && _); apply IH; [by apply Hpush|done].
Qed.

Lemma _refineBlocks_from_trimmed blocks : ∀ refinedBlocks,
  Forall trimmed refinedBlocks →
  Forall trimmed (_refineBlocks_from blocks refinedBlocks).
Proof.
  induction blocks as [|b blocks IH]; intros acc Hacc; cbn [_refineBlocks_from];
    [done|].
  destruct (nonblank b); apply IH; [|done]. by apply refine_loop_trimmed.
Qed.

Lemma _identifyBlockType_kinds block k :
  _identifyBlockType block = Some k → k ∈ kinds.
Proof.
  unfold _identifyBlockType, kinds.
  repeat lazymatch goal with
         | |- (if ?c then _ else _) = _ → _ =>
             destruct c;
             [intros [= <-];
              repeat first [apply list_elem_of_here | apply list_elem_of_further]|]
         end.
  discriminate.
Qed.
End DetectorFacts.

Module BuildFacts.
Import actorBuilder.

Lemma _buildAbilities_other scores a :
  a ∉ abilityNames → _buildAbilities scores !! a = None.
Proof.
  unfold abilityNames.
  intros (? & (? & (? & (? & (? & (? & _)%not_elem_of_cons)%not_elem_of_cons)
    %not_elem_of_cons)%not_elem_of_cons)%not_elem_of_cons)%not_elem_of_cons.
  unfold _buildAbilities, abilityNames. cbn [fold_left].
  rewrite !lookup_insert_ne by done. apply lookup_empty.
Qed.
End BuildFacts.

(** X9.  Every block [_splitIntoBlocks] returns is non-empty and already
    trimmed: [_refineBlocks] only ever pushes [currentBlock.trim()] of a
    block that is not blank. *)
Theorem split_blocks_are_trimmed (text : string) :
  Forall Detection.trimmed (contentDetector._splitIntoBlocks text).
Proof.
  unfold contentDetector._splitIntoBlocks, contentDetector._refineBlocks.
  by apply DetectorFacts._refineBlocks_from_trimmed.
Qed.

(** X10.  Every content block [detectContentBlocks] returns has one of
    the six content types, the type [_identifyBlockType] gives its text;
    its text is one of the blocks of [_splitIntoBlocks], unchanged (the
    [trim] applied to it does nothing), and has at least ten code
    units. *)
Theorem detected_blocks_are_typed (text : string) :
  Forall
    (λ cb, ContentBlock.type cb ∈ Detection.kinds
           ∧ ContentBlock.content cb ∈ contentDetector._splitIntoBlocks text
           ∧ contentDetector._identifyBlockType (ContentBlock.content cb)
             = Some (ContentBlock.type cb)
           ∧ 10 ≤ String.length (ContentBlock.content cb))
    (contentDetector.detectContentBlocks text).
Proof.
  unfold contentDetector.detectContentBlocks.
  pose proof (split_blocks_are_trimmed text) as Htr.
  apply Forall_forall. intros cb (block & Hin & Hcb)%list_elem_of_omap.
  rewrite Forall_forall in Htr. destruct (Htr _ Hin) as [_ Htrim].
  rewrite Htrim in Hcb.
  destruct (String.length block <? 10) eqn:Hlen; [done|].
  apply Nat.ltb_ge in Hlen.
  destruct (contentDetector._identifyBlockType block) as [k|] eqn:Hk; [|done].
  injection Hcb as <-. cbn [ContentBlock.type ContentBlock.content].
  split; [by eapply DetectorFacts._identifyBlockType_kinds|]. done.
Qed.

(** X12.  [_buildAbilities] returns exactly the six abilities, whatever
    other keys its argument has, each as an object [{value}]: the value
    is the score of the argument when there is one and it is truthy, and
    10 otherwise.  So the value is never 0 and never NaN (a score of 0, of
    either sign, or NaN is replaced by 10 like a missing one), and every
    other score is kept as it is. *)
Theorem built_abilities_are_complete (abilities : gmap string number) :
  (∀ a, is_Some (actorBuilder._buildAbilities abilities !! a) ↔ a ∈ abilityNames)
  ∧ (∀ a e, actorBuilder._buildAbilities abilities !! a = Some e →
            JsNumber.truthy (AbilityValue.value e) = true
            ∧ (abilities !! a = Some (AbilityValue.value e)
               ∨ AbilityValue.value e = 10%float))
  ∧ (∀ a v, a ∈ abilityNames → abilities !! a = Some v →
            JsNumber.truthy v = true →
            actorBuilder._buildAbilities abilities !! a
            = Some {| AbilityValue.value := v |})
  ∧ (∀ a v, a ∈ abilityNames → abilities !! a = Some v →
            v = 0%float ∨ v = (-0)%float ∨ v = nan →
            actorBuilder._buildAbilities abilities !! a
            = Some {| AbilityValue.value := 10%float |})
  ∧ (∀ a, a ∈ abilityNames → abilities !! a = None →
          actorBuilder._buildAbilities abilities !! a
          = Some {| AbilityValue.value := 10%float |}).
Proof.
  repeat apply conj.
  - intros a. split.
    + intros [e He]. destruct (decide (a ∈ abilityNames)) as [Ha|Ha]; [done|].
      by rewrite (BuildFacts._buildAbilities_other _ _ Ha) in He.
    + intros Ha. rewrite (AbilitiesFacts._buildAbilities_lookup _ _ Ha). by eexists.
  - intros a e He. destruct (decide (a ∈ abilityNames)) as [Ha|Ha].
    + rewrite (AbilitiesFacts._buildAbilities_lookup _ _ Ha) in He.
      injection He as <-. cbn [AbilityValue.value]. unfold Abilities.or_default.
      destruct (abilities !! a) as [w|]; [|by split; [|right]].
      destruct (JsNumber.truthy w) eqn:E; [by split; [|left]|by split; [|right]].
    + by rewrite (BuildFacts._buildAbilities_other _ _ Ha) in He.
  - intros a v Ha Hv Ht. rewrite (AbilitiesFacts._buildAbilities_lookup _ _ Ha), Hv.
    unfold Abilities.or_default. by rewrite Ht.
  - intros a v Ha Hv H0. rewrite (AbilitiesFacts._buildAbilities_lookup _ _ Ha), Hv.
    by destruct H0 as [-> | [-> | ->]].
  - intros a Ha Hv. by rewrite (AbilitiesFacts._buildAbilities_lookup _ _ Ha), Hv.
Qed.

Module AbilityGroupFacts.
Import Regex RegexSem RegexFacts MatchShape MatchFacts ChallengeFacts AnchoredFacts.
Import monsterParser AbilityShape AbilityLine HeaderFacts TitleShape AbilityGroups Digits.
Local Open Scope char_scope.

Lemma exec_anchored rg r' s :
  ast rg = RSeq RBol r' → multiline (rflags rg) = false →
  exec rg s
  = match m (ignoreCase (rflags rg)) false (RSeq RBol r') Some
            (MState None (JsString.chars s) ∅) with
    | Some st => Some (mk_match 0 (JsString.chars s) st)
    | None => None
    end.
Proof.
  intros Ha Hm. unfold exec, exec_from. rewrite Ha, Hm.
  generalize (JsString.chars s). intros l.
  change (length l <? 0)%nat with false. cbv iota.
  change (take 0 l) with (@nil ascii). change (last (@nil ascii)) with (@None ascii).
  rewrite drop_0. destruct l as [|c l]; cbn [search].
  - by destruct (m _ _ _ _ _).
  - destruct (m _ _ _ _ _); [done|]. by rewrite search_bol_later.
Qed.

Ltac not_in_groups :=
  match goal with
  | |- _ ∉ ?g => let v := eval vm_compute in g in change g with v
  end;
  repeat (apply not_elem_of_cons; split; [done|]); apply not_elem_of_nil.

Lemma consumed_rest st st' w : rest st = w ++ rest st' → consumed st st' = w.
Proof.
  intros H. unfold consumed. rewrite H, length_app.
  replace (length w + length (rest st') - length (rest st')) with (length w) by lia.
  by rewrite take_app_length.
Qed.

Lemma class_digit c : set_mem true false [CDigit] c = Char.is_digit c.
Proof. destruct c as [[] [] [] [] [] [] [] []]; reflexivity. Qed.

Lemma class_space c : set_mem true false [CSpace] c = Char.is_space c.
Proof. destruct c as [[] [] [] [] [] [] [] []]; reflexivity. Qed.

Lemma lower_of_upper c X :
  Char.to_upper c = X → Char.is_upper X = true →
  Char.to_lower c = Char.to_lower X.
Proof.
  intros <-. destruct c as [[] [] [] [] [] [] [] []]; vm_compute; congruence.
Qed.

Lemma key_names c1 c2 c3 :
  (Char.to_upper c1, Char.to_upper c2, Char.to_upper c3) ∈ abbreviations →
  key c1 c2 c3 ∈ abilityNames.
Proof.
  unfold abbreviations, key, abilityNames. intros H.
  repeat (apply elem_of_cons in H as [[= H1 H2 H3]|H];
    [cbn [JsString.of_chars string_of_list_ascii JsString.toLowerCase];
     rewrite (lower_of_upper _ _ H1 eq_refl), (lower_of_upper _ _ H2 eq_refl),
       (lower_of_upper _ _ H3 eq_refl);
     apply list_elem_of_In; vm_compute; tauto|]).
  by apply elem_of_nil in H.
Qed.

(** What the groups hold after a match of the ability pattern. *)
Lemma abilities_groups line mt :
  Regex.exec regex.abilities line = Some mt →
  ∃ c1 c2 c3 dg,
    (Char.to_upper c1, Char.to_upper c2, Char.to_upper c3) ∈ abbreviations
    ∧ digits dg
    ∧ Regex.group mt 1 = Some (JsString.of_chars [c1; c2; c3])
    ∧ Regex.group mt 2 = Some (JsString.of_chars dg).
Proof.
  rewrite (exec_anchored regex.abilities _ line eq_refl eq_refl).
  destruct (m _ _ _ _ _) as [st|] eqn:E; [|done]. intros [= <-].
  apply m_sound in E as (st' & Hm & [= ->]).
  change (ignoreCase (rflags regex.abilities)) with true in Hm.
  destruct Hm as (mid & [_ ->] & mid0 & (st1 & Halt & ->) & mid1 & Hsp
    & mid2 & (st2 & Hdg & ->) & Htail).
  pose proof (matches_caps true false 1 _ _ _ Htail) as [_ Ht1].
  pose proof (matches_caps true false 2 _ _ _ Htail) as [_ Ht2].
  pose proof (matches_caps true false 1 _ _ _ Hdg) as [_ Hd1].
  pose proof (matches_caps true false 1 _ _ _ Hsp) as [_ Hs1].
  assert (H1 : caps st !! 1 = Some (consumed (MState None (JsString.chars line) ∅) st1)).
  { rewrite Ht1 by not_in_groups. cbn [set_cap caps].
    rewrite lookup_insert_ne by done. rewrite Hd1 by not_in_groups.
    rewrite Hs1 by not_in_groups. cbn [set_cap caps].
    apply lookup_insert_eq. }
  assert (H2 : caps st !! 2 = Some (consumed mid1 st2)).
  { rewrite Ht2 by not_in_groups. cbn [set_cap caps].
    apply lookup_insert_eq. }
  destruct Hdg as (j2 & Hj2 & Hdg).
  apply iter_stepped in Hdg as (dg & Hl2 & Hdg & Hr2).
  assert (∃ c1 c2 c3,
            JsString.chars line = c1 :: c2 :: c3 :: rest st1
            ∧ (Char.to_upper c1, Char.to_upper c2, Char.to_upper c3) ∈ abbreviations)
    as (c1 & c2 & c3 & Hline & Habbr).
  { unfold abbreviations. cbn [matches] in Halt.
    destruct Halt as [H|[H|[H|[H|[H|H]]]]];
      apply stepped3 in H as (c1 & c2 & c3 & Hr & Hc1 & Hc2 & Hc3);
      exists c1, c2, c3; (split; [exact Hr|]);
      rewrite Hc1, Hc2, Hc3; vm_compute; repeat constructor. }
  exists c1, c2, c3, dg. split; [done|]. split.
  - split; [destruct dg; [simpl in Hl2; lia|done]|].
    eapply Forall_impl; [exact Hdg|]. intros c Hc. by rewrite <- class_digit.
  - unfold group, mk_match. cbn [mgroups]. rewrite !lookup_fmap, H1, H2.
    rewrite (consumed_rest _ _ [c1; c2; c3]) by (by rewrite Hline).
    by rewrite (consumed_rest _ _ dg) by done.
Qed.

Lemma digits_string dg : digits dg → digit_string (JsString.of_chars dg).
Proof.
  intros [Hne Hdg]. split.
  - destruct dg; [done|]. simpl. done.
  - by rewrite chars_of_chars.
Qed.

(** *** The lines the pattern matches *)

Ltac alt_step H1 H2 H3 :=
  first
    [ rewrite m_alt
    | rewrite m_lit_step;
      first [ rewrite (chr_mem_known _ _ _ H1)
            | rewrite (chr_mem_known _ _ _ H2)
            | rewrite (chr_mem_known _ _ _ H3) ];
      eval_eqb; cbv iota
    | rewrite m_char_step;
      first [ rewrite (chr_mem_known _ _ _ H1)
            | rewrite (chr_mem_known _ _ _ H2)
            | rewrite (chr_mem_known _ _ _ H3) ];
      eval_eqb; cbv iota ].

Lemma abbreviation_run (k : cont) c1 c2 c3 tl x :
  (Char.to_upper c1, Char.to_upper c2, Char.to_upper c3) ∈ abbreviations →
  k (MState (Some c3) tl ∅) = Some x →
  m true false abbreviation k (MState None (c1 :: c2 :: c3 :: tl) ∅) = Some x.
Proof.
  unfold abbreviations, abbreviation. intros H Hk.
  repeat (apply elem_of_cons in H as [[= H1 H2 H3]|H];
    [repeat alt_step H1 H2 H3; by rewrite Hk|]).
  by apply elem_of_nil in H.
Qed.

Lemma stops_run p w tl :
  Forall (λ c, p c = false) w → stops p tl → stops p (w ++ tl).
Proof. intros Hw Htl. destruct w as [|c w]; [done|]. by inversion Hw. Qed.

Lemma blank_not_digit c : Char.is_space c = true → Char.is_digit c = false.
Proof. destruct c as [[] [] [] [] [] [] [] []]; vm_compute; congruence. Qed.

Lemma digit_not_blank c : Char.is_digit c = true → Char.is_space c = false.
Proof. destruct c as [[] [] [] [] [] [] [] []]; vm_compute; congruence. Qed.

Lemma Forall_class_space l :
  blanks l → Forall (λ c, set_mem true false [CSpace] c = true) l.
Proof. intros H. eapply Forall_impl; [exact H|]. intros c. by rewrite class_space. Qed.

Lemma Forall_class_digit l :
  Forall (λ c, Char.is_digit c = true) l →
  Forall (λ c, set_mem true false [CDigit] c = true) l.
Proof. intros H. eapply Forall_impl; [exact H|]. intros c. by rewrite class_digit. Qed.

Lemma after_abbreviation_run pv sp dg sp' sg md tl cp :
  sp ≠ [] → blanks sp → digits dg → blanks sp' →
  sg = "-" ∨ sg = "+" → digits md →
  ∃ st,
    m true false after_abbreviation Some
      (MState pv (sp ++ dg ++ sp' ++ "(" :: sg :: md ++ ")" :: tl) cp) = Some st
    ∧ caps st = <[3 := sg :: md]> (<[2 := dg]> cp).
Proof.
  intros Hsp0 Hsp [Hdg0 Hdg] Hsp' Hsg [Hmd0 Hmd].
  eexists. split.
  - unfold after_abbreviation. rewrite m_seq.
    eapply (m_rep_run true false) with (w := sp);
      [reflexivity|by apply Forall_class_space| |destruct sp; [done|simpl; lia]|].
    { destruct dg as [|d dg]; [done|]. inversion Hdg; subst. cbn [app stops].
      rewrite class_space. by apply digit_not_blank. }
    rewrite m_seq, m_group.
    eapply (m_rep_run true false) with (w := dg);
      [reflexivity|by apply Forall_class_digit| |destruct dg; [done|simpl; lia]|].
    { apply stops_run; [|reflexivity]. eapply Forall_impl; [exact Hsp'|].
      intros c Hc. rewrite class_digit. by apply blank_not_digit. }
    cbv beta. rewrite consumed_app. unfold set_cap. cbn [prev rest caps].
    rewrite m_seq.
    eapply (m_rep_run true false) with (w := sp');
      [reflexivity|by apply Forall_class_space|reflexivity|simpl; lia|].
    lit_step. rewrite m_seq, m_group, m_set_step.
    assert (set_mem true false [CChar "-"; CChar "+"] sg = true) as ->
      by (destruct Hsg as [-> | ->]; reflexivity).
    eapply (m_rep_run true false) with (w := md);
      [reflexivity|by apply Forall_class_digit|reflexivity
      |destruct md; [done|simpl; lia]|].
    cbv beta.
    rewrite (consumed_eq _ _ _ (sg :: md)) by reflexivity.
    unfold set_cap. cbn [prev rest caps].
    lit_step. reflexivity.
  - reflexivity.
Qed.

(** A line written as the pattern expects matches, with the abbreviation
    and the score in the first two groups. *)
Lemma written_exec c1 c2 c3 sp dg sp' sg md tl :
  (Char.to_upper c1, Char.to_upper c2, Char.to_upper c3) ∈ abbreviations →
  sp ≠ [] → blanks sp → digits dg → blanks sp' →
  sg = "-" ∨ sg = "+" → digits md →
  ∃ mt,
    Regex.exec regex.abilities (written c1 c2 c3 sp dg sp' sg md tl) = Some mt
    ∧ Regex.group mt 1 = Some (JsString.of_chars [c1; c2; c3])
    ∧ Regex.group mt 2 = Some (JsString.of_chars dg).
Proof.
  intros Habbr Hsp0 Hsp Hdg Hsp' Hsg Hmd.
  destruct (after_abbreviation_run (Some c3) sp dg sp' sg md tl
              {[ 1%nat := [c1; c2; c3] ]} Hsp0 Hsp Hdg Hsp' Hsg Hmd)
    as (st & Hrun & Hcaps).
  eexists. split.
  - apply exec_at_start. unfold written. rewrite chars_of_chars.
    change (ignoreCase (rflags regex.abilities)) with true.
    change (multiline (rflags regex.abilities)) with false.
    change (ast regex.abilities)
      with (RSeq RBol (RSeq (RGroup 1 abbreviation) after_abbreviation)).
    rewrite m_bol_start, m_seq, m_group.
    apply abbreviation_run; [done|]. cbv beta.
    rewrite (consumed_eq _ _ _ [c1; c2; c3]) by reflexivity.
    unfold set_cap. cbn [prev rest caps]. exact Hrun.
  - unfold group, mk_match. cbn [mgroups]. rewrite !lookup_fmap, Hcaps.
    split.
    + rewrite !lookup_insert_ne by done. by rewrite lookup_singleton_eq.
    + rewrite lookup_insert_ne by done. by rewrite lookup_insert_eq.
Qed.
End AbilityGroupFacts.

Module CaptureFacts.
Import Regex RegexSem RegexFacts MatchShape MatchFacts AnchoredFacts.
Import AbilityGroups AbilityGroupFacts Captures Digits.

Lemma class_digit_any ic c : set_mem ic false [CDigit] c = Char.is_digit c.
Proof.
  destruct ic; [apply class_digit|].
  unfold set_mem, class_mem. simpl. by rewrite orb_false_r.
Qed.

Lemma digit_run_sound ic ml a st st' :
  digit_run a = true → matches ic ml a st st' →
  ∃ dg, digits dg ∧ rest st = dg ++ rest st'.
Proof.
  destruct a as [| | | | | | | | | |a lo hi]; try done.
  destruct a as [|neg items| | | | | | | | |]; try done.
  destruct neg; [done|]. destruct items as [|[] []]; try done.
  destruct lo as [|[|]]; try done. destruct hi; [done|]. intros _.
  intros (j & Hj & Hit). apply iter_stepped in Hit as (w & Hlen & Hw & Hr).
  exists w. split; [|done]. split; [destruct w; [simpl in Hlen; lia|done]|].
  eapply Forall_impl; [exact Hw|]. intros c Hc.
  rewrite <- (class_digit_any ic). exact Hc.
Qed.

Lemma digits_group_sound ic ml n r : ∀ st st',
  digits_group n r = true → matches ic ml r st st' →
  ∃ dg, digits dg ∧ caps st' !! n = Some dg.
Proof.
  induction r as [| | | | | | |a IHa b IHb| |k a _|]; intros st st'; try done.
  - cbn [digits_group]. intros H (mid & Ha & Hb).
    apply orb_true_iff in H as [[H1 H2]%andb_true_iff|H]; [|by eapply IHb].
    apply negb_true_iff, bool_decide_eq_false in H2.
    destruct (IHa _ _ H1 Ha) as (dg & Hdg & Hc). exists dg. split; [done|].
    destruct (matches_caps ic ml n _ _ _ Hb) as [_ ->]; done.
  - cbn [digits_group]. intros [->%Nat.eqb_eq Hd]%andb_true_iff (st1 & Ha & ->).
    destruct (digit_run_sound _ _ _ _ _ Hd Ha) as (dg & Hdg & Hr).
    exists dg. split; [done|]. cbn [set_cap caps]. rewrite lookup_insert_eq.
    by rewrite (consumed_rest _ _ dg).
Qed.

Lemma set_score_dom key r line (m : gmap string number) (S : gset string) :
  key ∈ S → dom m = S → dom (contentParser.set_score key r line m) = S.
Proof.
  intros Hk <-. unfold contentParser.set_score.
  destruct (exec r line); [|done]. apply dom_insert_lookup_L.
  by apply elem_of_dom.
Qed.
End CaptureFacts.

Module AbilityInversion.
Import Regex RegexSem RegexFacts MatchShape MatchFacts ChallengeFacts AnchoredFacts.
Import monsterParser AbilityShape AbilityLine HeaderFacts TitleShape AbilityGroups Digits.
Import AbilityGroupFacts AbilityScores.
Local Open Scope char_scope.

Lemma paren_close_only c : chr_mem true ")" c = true → c = ")".
Proof. destruct c as [[] [] [] [] [] [] [] []]; vm_compute; congruence. Qed.

Lemma sign_only c :
  set_mem true false [CChar "-"; CChar "+"] c = true → c = "-" ∨ c = "+".
Proof.
  destruct c as [[] [] [] [] [] [] [] []]; vm_compute;
    first [discriminate | by left | by right].
Qed.

Lemma Forall_digit l :
  Forall (λ c, set_mem true false [CDigit] c = true) l →
  Forall (λ c, Char.is_digit c = true) l.
Proof. intros H. eapply Forall_impl; [exact H|]. intros c Hc. by rewrite <- class_digit. Qed.

Lemma Forall_space l :
  Forall (λ c, set_mem true false [CSpace] c = true) l → blanks l.
Proof. intros H. eapply Forall_impl; [exact H|]. intros c Hc. by rewrite <- class_space. Qed.

(** A line the ability pattern matches is written as the pattern
    expects, and the first two groups are its abbreviation and its
    score. *)
Lemma abilities_written line mt :
  Regex.exec regex.abilities line = Some mt →
  ∃ c1 c2 c3 sp dg sp' sg md tl,
    line = written c1 c2 c3 sp dg sp' sg md tl
    ∧ (Char.to_upper c1, Char.to_upper c2, Char.to_upper c3) ∈ abbreviations
    ∧ sp ≠ [] ∧ blanks sp ∧ digits dg ∧ blanks sp'
    ∧ (sg = "-" ∨ sg = "+") ∧ digits md
    ∧ Regex.group mt 1 = Some (JsString.of_chars [c1; c2; c3])
    ∧ Regex.group mt 2 = Some (JsString.of_chars dg).
Proof.
  rewrite (exec_anchored regex.abilities _ line eq_refl eq_refl).
  destruct (m _ _ _ _ _) as [st|] eqn:E; [|done]. intros [= <-].
  apply m_sound in E as (st' & Hm & [= ->]).
  change (ignoreCase (rflags regex.abilities)) with true in Hm.
  destruct Hm as (mid & [_ ->] & mid0 & (st1 & Halt & ->) & mid1 & Hsp
    & mid2 & (st2 & Hdg & ->) & Htail).
  pose proof (matches_caps true false 1 _ _ _ Htail) as [_ Ht1].
  pose proof (matches_caps true false 2 _ _ _ Htail) as [_ Ht2].
  pose proof (matches_caps true false 1 _ _ _ Hdg) as [_ Hd1].
  pose proof (matches_caps true false 1 _ _ _ Hsp) as [_ Hs1].
  assert (H1 : caps st !! 1 = Some (consumed (MState None (JsString.chars line) ∅) st1)).
  { rewrite Ht1 by not_in_groups. cbn [set_cap caps].
    rewrite lookup_insert_ne by done. rewrite Hd1 by not_in_groups.
    rewrite Hs1 by not_in_groups. cbn [set_cap caps].
    apply lookup_insert_eq. }
  assert (H2 : caps st !! 2 = Some (consumed mid1 st2)).
  { rewrite Ht2 by not_in_groups. cbn [set_cap caps].
    apply lookup_insert_eq. }
  destruct Hsp as (j1 & Hj1 & Hsp).
  apply iter_stepped in Hsp as (sp & Hl1 & Hsp & Hr1).
  destruct Hdg as (j2 & Hj2 & Hdg).
  apply iter_stepped in Hdg as (dg & Hl2 & Hdg & Hr2).
  cbn [matches] in Htail.
  destruct Htail as (mid3 & (j3 & _ & Hsp')
    & mid4 & (c & Hpar & Hc%paren_only)%stepped_inv
    & mid5 & (st3 & (mid6 & (sg & Hsg & Hsgc%sign_only)%stepped_inv
                     & (j4 & Hj4 & Hmd)) & ->)
    & (c' & Hclose & Hc'%paren_close_only)%stepped_inv).
  subst c c'.
  apply iter_stepped in Hsp' as (sp' & Hl3 & Hsp' & Hr3).
  apply iter_stepped in Hmd as (md & Hl4 & Hmd & Hr4).
  cbn [set_cap rest] in *.
  assert (∃ c1 c2 c3,
            JsString.chars line = c1 :: c2 :: c3 :: rest st1
            ∧ (Char.to_upper c1, Char.to_upper c2, Char.to_upper c3) ∈ abbreviations)
    as (c1 & c2 & c3 & Hline & Habbr).
  { unfold abbreviations. cbn [matches] in Halt.
    destruct Halt as [H|[H|[H|[H|[H|H]]]]];
      apply stepped3 in H as (c1 & c2 & c3 & Hr & Hc1 & Hc2 & Hc3);
      exists c1, c2, c3; (split; [exact Hr|]);
      rewrite Hc1, Hc2, Hc3; vm_compute; repeat constructor. }
  exists c1, c2, c3, sp, dg, sp', sg, md, (rest st).
  split.
  { unfold written. rewrite <- (of_chars_chars line). f_equal.
    rewrite Hline, Hr1, Hr2, Hr3, Hpar, Hsg, Hr4, Hclose.
    reflexivity. }
  split; [done|].
  split; [destruct sp; [simpl in Hl1; lia|done]|].
  split; [by apply Forall_space|].
  split; [split; [destruct dg; [simpl in Hl2; lia|done]|by apply Forall_digit]|].
  split; [by apply Forall_space|].
  split; [done|].
  split; [split; [destruct md; [simpl in Hl4; lia|done]|by apply Forall_digit]|].
  unfold group, mk_match. cbn [mgroups]. rewrite !lookup_fmap, H1, H2.
  rewrite (consumed_rest _ _ [c1; c2; c3]) by (by rewrite Hline).
  by rewrite (consumed_rest _ _ dg) by done.
Qed.

Lemma gives_sets a v e : gives a v e → Abilities.sets_score a e.
Proof.
  intros (c1 & c2 & c3 & sp & dg & sp' & sg & md & tl & Hl
          & (Habbr & Hsp0 & Hsp & Hdg & Hsp' & Hsg & Hmd) & Hk & _).
  destruct (written_exec c1 c2 c3 sp dg sp' sg md tl Habbr Hsp0 Hsp Hdg Hsp' Hsg Hmd)
    as (mt & Hex & H1 & _).
  exists mt, (JsString.of_chars [c1; c2; c3]). rewrite Hl. by repeat split.
Qed.

Lemma exec_gives e mt :
  Regex.exec regex.abilities (TaggedLine.line e) = Some mt →
  ∃ t dg, Regex.group mt 1 = Some t ∧ Regex.group mt 2 = Some dg
          ∧ gives (JsString.toLowerCase t) (JsNumber.parseInt (Some dg)) e.
Proof.
  intros (c1 & c2 & c3 & sp & dg & sp' & sg & md & tl & Hl & Habbr & Hsp0 & Hsp
          & Hdg & Hsp' & Hsg & Hmd & H1 & H2)%abilities_written.
  exists (JsString.of_chars [c1; c2; c3]), (JsString.of_chars dg).
  split; [done|]. split; [done|].
  exists c1, c2, c3, sp, dg, sp', sg, md, tl.
  split; [done|]. split; [done|]. split; [done|].
  by rewrite (ParseIntFacts.parseInt_digits _ (digits_string _ Hdg)).
Qed.

Lemma gives_name a v e : gives a v e → a ∈ abilityNames.
Proof.
  intros (c1 & c2 & c3 & sp & dg & sp' & sg & md & tl & _ & (Habbr & _) & <- & _).
  by apply key_names.
Qed.

(** The score the loop of [_extractAbilities] leaves for an ability is
    the one it had before, when no line sets it, and otherwise the score
    of the last line that sets it. *)
Lemma abilities_loop_last ls : ∀ acc scores a v,
  abilities_loop ls acc = Ok scores → scores !! a = Some v →
  (acc !! a = Some v ∧ Forall (λ e, ¬ Abilities.sets_score a e) ls)
  ∨ ∃ pre e post,
      ls = pre ++ e :: post ∧ gives a v e
      ∧ Forall (λ e', ¬ Abilities.sets_score a e') post.
Proof.
  induction ls as [|e ls IH]; intros acc scores a v; cbn [abilities_loop].
  - intros [= ->] Hv. left. by split.
  - destruct (Regex.exec regex.abilities (TaggedLine.line e)) as [mt|] eqn:E.
    + destruct (exec_gives e mt E) as (t & dg & H1 & H2 & Hg).
      rewrite H1. cbn [defined mbind result_bind]. intros H Hv.
      destruct (IH _ _ a v H Hv) as [[Hacc Hls]|(pre & e' & post & -> & Hg' & Hpost)].
      * destruct (decide (JsString.toLowerCase t = a)) as [<-|Hne].
        -- right. exists [], e, ls. split; [done|]. split; [|done].
           rewrite lookup_insert_eq in Hacc. injection Hacc as <-.
           by rewrite H2.
        -- left. rewrite lookup_insert_ne in Hacc by done. split; [done|].
           constructor; [|done]. intros (mt' & t' & Hex' & Ht' & Hk).
           rewrite E in Hex'. injection Hex' as <-. rewrite H1 in Ht'.
           injection Ht' as <-. done.
      * right. exists (e :: pre), e', post. done.
    + intros H Hv.
      destruct (IH _ _ a v H Hv) as [[Hacc Hls]|(pre & e' & post & -> & Hg' & Hpost)].
      * left. split; [done|]. constructor; [|done].
        intros (mt' & t' & Hex' & _). by rewrite E in Hex'.
      * right. exists (e :: pre), e', post. done.
Qed.
End AbilityInversion.

(** X13.  The abilities a statblock gives are the scores its ability
    lines show.  Every key of the map [_extractAbilities] returns is one
    of "str", "dex", "con", "int", "wis", "cha", and its value is the
    number that the digits of the score denote in the last line of the
    abilities section that is written as the ability pattern expects
    with the abbreviation of that key; so it is for the abilities of the
    record [parseMonster] returns. *)
Theorem parsed_abilities_are_scores :
  (∀ (bl : gmap string (list TaggedLine.t)) scores a v,
     monsterParser._extractAbilities bl = Ok scores →
     scores !! a = Some v →
     a ∈ abilityNames
     ∧ ∃ pre e post,
         bl !! "abilities" = Some (pre ++ e :: post)
         ∧ AbilityScores.gives a v e
         ∧ Forall (λ e', ∀ v', ¬ AbilityScores.gives a v' e') post)
  ∧ (∀ (U : Type) (strip : string → U → string * U) (σ : store U) content rec a v,
     fst (monsterParser.parseMonster strip σ content) = Ok rec →
     MonsterData.abilities rec !! a = Some v →
     a ∈ abilityNames
     ∧ ∃ name lines pre e post,
         monsterParser.nonblank_lines
           (fst (monsterParser._cleanInput strip σ content)) = name :: lines
         ∧ monsterParser._parseIntoBlocks lines !! "abilities" = Some (pre ++ e :: post)
         ∧ AbilityScores.gives a v e
         ∧ Forall (λ e', ∀ v', ¬ AbilityScores.gives a v' e') post).
Proof.
  assert (H : ∀ (bl : gmap string (list TaggedLine.t)) scores a v,
     monsterParser._extractAbilities bl = Ok scores →
     scores !! a = Some v →
     a ∈ abilityNames
     ∧ ∃ pre e post,
         bl !! "abilities" = Some (pre ++ e :: post)
         ∧ AbilityScores.gives a v e
         ∧ Forall (λ e', ∀ v', ¬ AbilityScores.gives a v' e') post).
  { intros bl scores a v Hs Hv. unfold monsterParser._extractAbilities in Hs.
    destruct (bl !! "abilities") as [[|e tl]|];
      [injection Hs as <-; by rewrite lookup_empty in Hv|
      |injection Hs as <-; by rewrite lookup_empty in Hv].
    destruct (AbilityInversion.abilities_loop_last _ _ _ a v Hs Hv)
      as [[H0 _]|(pre & e' & post & Hls & Hg & Hpost)];
      [by rewrite lookup_empty in H0|].
    split; [by eapply AbilityInversion.gives_name|].
    exists pre, e', post. split; [by rewrite Hls|]. split; [done|].
    eapply Forall_impl; [exact Hpost|]. intros x Hx v' Hg'.
    apply Hx. by eapply AbilityInversion.gives_sets. }
  split; [exact H|].
  intros U strip σ content rec a v Hrec Hv.
  rewrite ParseFacts.parseMonster_cleaned in Hrec.
  unfold monsterParser.parse_cleaned in Hrec.
  destruct (monsterParser.nonblank_lines _) as [|name lines]; [done|].
  apply ExtractorFacts.assemble_fields in Hrec as (_ & _ & _ & _ & _ & _ & _ & Hab & _).
  destruct (H _ _ a v Hab Hv) as (Ha & pre & e & post & Hbl & Hg & Hpost).
  split; [done|]. by exists name, lines, pre, e, post.
Qed.

Lemma parsed_abilities_are_scores_witness :
  "str" ∈ abilityNames
  ∧ ∃ pre e post,
      ({[ "abilities" := [NamedEntries.tl_ 1 "STR 8 (-1)"; NamedEntries.tl_ 2 "Str 9 (-1)"] ]}
         : gmap string (list TaggedLine.t)) !! "abilities"
      = Some (pre ++ e :: post)
      ∧ AbilityScores.gives "str" 9%float e
      ∧ Forall (λ e', ∀ v', ¬ AbilityScores.gives "str" v' e') post.
Proof.
  apply (proj1 parsed_abilities_are_scores
           {[ "abilities" := [NamedEntries.tl_ 1 "STR 8 (-1)"; NamedEntries.tl_ 2 "Str 9 (-1)"] ]}
           {[ "str" := 9%float ]} "str" 9%float).
  - vm_compute. reflexivity.
  - vm_compute. reflexivity.
Defined.

(** X14.  A line written as the ability pattern expects sets its score.
    For a line made of one of the six abbreviations in any case, white
    space, the digits of the score, optional white space and a signed
    modifier in parentheses, the loop of [_extractAbilities] stores the
    integer the digits denote under the abbreviation in lower case,
    which is one of the six ability names, and goes on with the lines
    that follow. *)
Theorem ability_line_sets_score c1 c2 c3 sp dg sp' sg md tl i rest
    (abilityScores : gmap string number) :
  (Char.to_upper c1, Char.to_upper c2, Char.to_upper c3) ∈ AbilityShape.abbreviations →
  sp ≠ [] → AbilityGroups.blanks sp → AbilityGroups.digits dg →
  AbilityGroups.blanks sp' →
  sg = "-"%char ∨ sg = "+"%char → AbilityGroups.digits md →
  monsterParser.abilities_loop
    ({| TaggedLine.lineNumber := i;
        TaggedLine.line := AbilityGroups.written c1 c2 c3 sp dg sp' sg md tl |}
     :: rest) abilityScores
  = monsterParser.abilities_loop rest
      (<[AbilityGroups.key c1 c2 c3 :=
           JsNumber.of_N (Digits.decimal (JsString.of_chars dg))]> abilityScores)
  ∧ AbilityGroups.key c1 c2 c3 ∈ abilityNames.
Proof.
  intros Habbr Hsp0 Hsp Hdg Hsp' Hsg Hmd.
  split; [|by apply AbilityGroupFacts.key_names].
  destruct (AbilityGroupFacts.written_exec c1 c2 c3 sp dg sp' sg md tl
              Habbr Hsp0 Hsp Hdg Hsp' Hsg Hmd) as (mt & Hex & H1 & H2).
  cbn [monsterParser.abilities_loop TaggedLine.line]. rewrite Hex, H1, H2.
  cbn [defined mbind result_bind].
  by rewrite (ParseIntFacts.parseInt_digits _ (AbilityGroupFacts.digits_string _ Hdg)).
Qed.

Lemma ability_line_sets_score_witness :
  monsterParser.abilities_loop
    ({| TaggedLine.lineNumber := 4;
        TaggedLine.line :=
          AbilityGroups.written "D" "e" "x" (JsString.chars "  ") (JsString.chars "14")
            [] "+" (JsString.chars "2") (JsString.chars " agile") |}
     :: []) ∅
  = monsterParser.abilities_loop []
      (<[AbilityGroups.key "D" "e" "x" :=
           JsNumber.of_N (Digits.decimal (JsString.of_chars (JsString.chars "14")))]> ∅)
  ∧ AbilityGroups.key "D" "e" "x" ∈ abilityNames.
Proof.
  apply (ability_line_sets_score "D" "e" "x" (JsString.chars "  ")
           (JsString.chars "14") [] "+" (JsString.chars "2")
           (JsString.chars " agile") 4 [] ∅).
  - apply list_elem_of_further, list_elem_of_here.
  - discriminate.
  - repeat (apply Forall_cons_2; [reflexivity|]). apply Forall_nil_2.
  - apply conj; [discriminate|].
    repeat (apply Forall_cons_2; [reflexivity|]). apply Forall_nil_2.
  - apply Forall_nil_2.
  - right. reflexivity.
  - apply conj; [discriminate|].
    repeat (apply Forall_cons_2; [reflexivity|]). apply Forall_nil_2.
Defined.

Module TitleEntryFacts.
Import Regex RegexSem RegexFacts MatchShape MatchFacts ChallengeFacts AnchoredFacts.
Import monsterParser NamedEntries AbilityLine AbilityGroupFacts Titles.
Local Open Scope char_scope.

Lemma not_dot_class c : set_mem true true [CChar "."] c = negb (Ascii.eqb "." c).
Proof. destruct c as [[] [] [] [] [] [] [] []]; reflexivity. Qed.

Lemma dot_ci c : chr_mem true "." c = Ascii.eqb "." c.
Proof. destruct c as [[] [] [] [] [] [] [] []]; reflexivity. Qed.

Lemma not_dot_Forall pre :
  Forall (λ c, c ≠ ".") pre
  ↔ Forall (λ c, set_mem true true [CChar "."] c = true) pre.
Proof.
  split; intros H; (eapply Forall_impl; [exact H|]); intros c Hc; cbv beta in *.
  - rewrite not_dot_class. apply negb_true_iff, Ascii.eqb_neq. congruence.
  - rewrite not_dot_class in Hc. apply negb_true_iff, Ascii.eqb_neq in Hc. congruence.
Qed.

Lemma m_rep_all ic ml a p k cp x lo w pv :
  char_pred ic a = Some p → Forall (λ c, p c = true) w → lo ≤ length w →
  k (MState (prev_after pv w) [] cp) = Some x →
  m ic ml (RRep a lo None) k (MState pv w cp) = Some x.
Proof.
  intros Ha Hw Hlo Hk.
  pose proof (m_rep_run ic ml a p k [] cp x lo w pv Ha Hw I Hlo Hk) as Hr.
  by rewrite app_nil_r in Hr.
Qed.

(** A title line with nothing but one line after the full stop. *)
Lemma title_run pre post :
  pre ≠ [] → Forall (λ c, c ≠ ".") pre → one_line post →
  ∃ st,
    m true false (ast regex.title) Some (MState None (pre ++ "." :: post) ∅) = Some st
    ∧ caps st !! 1 = Some pre ∧ caps st !! 2 = Some post.
Proof.
  intros Hne Hpre Hpost. eexists. split.
  - unfold regex.title. cbn [ast]. rewrite m_bol_start, m_seq, m_group.
    eapply (m_rep_run true false) with (w := pre);
      [reflexivity|by apply not_dot_Forall|reflexivity
      |destruct pre; [done|simpl; lia]|].
    cbv beta. rewrite consumed_app. unfold set_cap. cbn [prev rest caps].
    lit_step. rewrite m_group.
    eapply m_rep_all; [reflexivity| |simpl; lia|].
    { eapply Forall_impl; [exact Hpost|]. intros c Hc. cbv beta. by rewrite Hc. }
    cbv beta. rewrite (consumed_eq _ _ _ post) by (by rewrite app_nil_r).
    unfold set_cap. cbn [prev rest caps].
    reflexivity.
  - cbn [caps]. split.
    + rewrite lookup_insert_ne by done. apply lookup_insert_eq.
    + apply lookup_insert_eq.
Qed.

Lemma title_entry_dotted pre post :
  pre ≠ [] → Forall (λ c, c ≠ ".") pre → one_line post →
  title_entry (JsString.of_chars (pre ++ "." :: post))
  = Some {| NamedEntry.name := JsString.trim (JsString.of_chars pre);
            NamedEntry.description := JsString.trim (JsString.of_chars post) |}.
Proof.
  intros Hne Hpre Hpost.
  destruct (title_run pre post Hne Hpre Hpost) as (st & Hrun & H1 & H2).
  unfold title_entry.
  rewrite (exec_at_start regex.title _ st) by (by rewrite chars_of_chars).
  unfold group, mk_match. cbn [mgroups]. by rewrite !lookup_fmap, H1, H2.
Qed.

(** The lines the title pattern matches. *)
Lemma title_entry_Some line :
  is_Some (title_entry line) → ∃ pre post, dotted (JsString.chars line) pre post.
Proof.
  unfold title_entry.
  rewrite (exec_anchored regex.title _ line eq_refl eq_refl).
  destruct (m _ _ _ _ _) as [st|] eqn:E; [|intros [? H]; discriminate H]. intros _.
  apply m_sound in E as (st' & Hm & _).
  change (ignoreCase (rflags regex.title)) with true in Hm.
  destruct Hm as (mid & [_ ->] & mid0 & (st1 & (j & Hj & Hit) & ->)
    & mid1 & (d & Hd & Hdot)%stepped_inv & _).
  apply iter_stepped in Hit as (w & Hlen & Hw & Hr).
  cbn [set_cap rest] in *.
  rewrite dot_ci in Hdot. apply Ascii.eqb_eq in Hdot as <-.
  exists w, (rest mid1). split; [by rewrite Hr, Hd|].
  split; [destruct w; [simpl in Hlen; lia|done]|]. by apply not_dot_Forall.
Qed.

Lemma one_line_split post :
  ∃ p1 p2, post = p1 ++ p2 ∧ one_line p1
           ∧ stops (λ c, negb (Char.is_line_terminator c)) p2.
Proof.
  induction post as [|c post (p1 & p2 & -> & H1 & H2)];
    [exists [], []; repeat split; constructor|].
  destruct (Char.is_line_terminator c) eqn:Hc.
  - exists [], (c :: p1 ++ p2). repeat split; [constructor|]. simpl. by rewrite Hc.
  - exists (c :: p1), p2. repeat split; [by constructor|done].
Qed.

Lemma dotted_title line pre post :
  dotted (JsString.chars line) pre post → is_Some (title_entry line).
Proof.
  intros (Hl & Hne & Hpre). unfold title_entry.
  destruct (one_line_split post) as (p1 & p2 & -> & Hp1 & Hp2).
  enough (∃ st, m true false (ast regex.title) Some
                  (MState None (JsString.chars line) ∅) = Some st) as (st & Hst).
  { by rewrite (exec_at_start regex.title _ st Hst). }
  rewrite Hl. eexists.
  unfold regex.title. cbn [ast]. rewrite m_bol_start, m_seq, m_group.
  eapply (m_rep_run true false) with (w := pre);
    [reflexivity|by apply not_dot_Forall|reflexivity
    |destruct pre; [done|simpl; lia]|].
  cbv beta. rewrite consumed_app. unfold set_cap. cbn [prev rest caps].
  lit_step. rewrite m_group.
  eapply (m_rep_run true false) with (w := p1);
    [reflexivity| |exact Hp2|simpl; lia|].
  { eapply Forall_impl; [exact Hp1|]. intros c Hc. cbv beta. by rewrite Hc. }
  reflexivity.
Qed.

Lemma titles_cons l ls :
  titles (l :: ls)
  = match title_entry (TaggedLine.line l) with
    | Some e => NamedEntry.name e :: titles ls
    | None => titles ls
    end.
Proof. unfold titles. cbn [omap list_omap]. by destruct (title_entry _). Qed.

Lemma entries_names ls : ∀ cur,
  map NamedEntry.name (entries_from ls cur)
  = map NamedEntry.name (option_list cur) ++ titles ls.
Proof.
  induction ls as [|l ls IH]; intros cur; cbn [entries_from].
  - by rewrite app_nil_r.
  - rewrite titles_cons.
    destruct (title_entry (TaggedLine.line l)) as [e|].
    + by rewrite map_app, IH.
    + rewrite IH. by destruct cur.
Qed.
End TitleEntryFacts.

(** X17.  The title lines of named-entry extraction.  A line starts a
    new entry exactly when it has a full stop after at least one other
    code unit; the name of the entry is then the trimmed text before the
    first full stop and its description starts with the trimmed text
    after it.  So a continuation line with a full stop in it starts an
    entry of its own. *)
Theorem title_lines_are_dotted :
  (∀ line,
     is_Some (NamedEntries.title_entry line)
     ↔ ∃ pre post, Titles.dotted (JsString.chars line) pre post)
  ∧ (∀ pre post,
       pre ≠ [] → Forall (λ c, c ≠ "."%char) pre → Titles.one_line post →
       NamedEntries.title_entry (JsString.of_chars (pre ++ "."%char :: post))
       = Some {| NamedEntry.name := JsString.trim (JsString.of_chars pre);
                 NamedEntry.description := JsString.trim (JsString.of_chars post) |}).
Proof.
  split.
  - intros line. split; [apply TitleEntryFacts.title_entry_Some|].
    intros (pre & post & H). by eapply TitleEntryFacts.dotted_title.
  - apply TitleEntryFacts.title_entry_dotted.
Qed.

(** X18.  The entries [_extractNamedEntries] returns are as many as the
    title lines after the first line of the block, and their names are
    the names those lines give, in order. *)
Theorem named_entries_follow_titles
    (bl : gmap string (list TaggedLine.t)) blockId h ls :
  bl !! blockId = Some (h :: ls) →
  ∃ entries,
    monsterParser._extractNamedEntries bl blockId = Ok entries
    ∧ map NamedEntry.name entries = Titles.titles ls
    ∧ length entries = length (Titles.titles ls).
Proof.
  intros Hbl. exists (NamedEntries.entries_from ls None).
  split; [by apply NamedEntriesFacts.extract_entries with h|].
  pose proof (TitleEntryFacts.entries_names ls None) as Hn.
  change (map NamedEntry.name (option_list None) ++ Titles.titles ls)
    with (Titles.titles ls) in Hn.
  split; [exact Hn|]. by rewrite <- Hn, length_map.
Qed.

Lemma named_entries_follow_titles_witness :
  ∃ entries,
    monsterParser._extractNamedEntries
      {[ "actions" := [NamedEntries.tl_ 0 "Actions";
                       NamedEntries.tl_ 1 "Bite. Melee Weapon Attack";
                       NamedEntries.tl_ 2 "plus poison";
                       NamedEntries.tl_ 3 "Hit: 5 damage."] ]} "actions"
    = Ok entries
    ∧ map NamedEntry.name entries
      = Titles.titles [NamedEntries.tl_ 1 "Bite. Melee Weapon Attack";
                       NamedEntries.tl_ 2 "plus poison";
                       NamedEntries.tl_ 3 "Hit: 5 damage."]
    ∧ length entries
      = length (Titles.titles [NamedEntries.tl_ 1 "Bite. Melee Weapon Attack";
                               NamedEntries.tl_ 2 "plus poison";
                               NamedEntries.tl_ 3 "Hit: 5 damage."]).
Proof.
  apply (named_entries_follow_titles
           {[ "actions" := [NamedEntries.tl_ 0 "Actions";
                            NamedEntries.tl_ 1 "Bite. Melee Weapon Attack";
                            NamedEntries.tl_ 2 "plus poison";
                            NamedEntries.tl_ 3 "Hit: 5 damage."] ]}
           "actions" (NamedEntries.tl_ 0 "Actions")).
  vm_compute. reflexivity.
Defined.

Module RefineFacts.
Import contentDetector.

Lemma split_go_length sep s : ∀ skip cur,
  1 ≤ length (JsString.split_go sep s skip cur).
Proof.
  induction s as [|c s IH]; intros skip cur; cbn [JsString.split_go];
    [simpl; lia|].
  destruct skip; [|apply IH].
  destruct (JsString.startsWith _ _); [simpl; lia|apply IH].
Qed.

(** A block is started at [lines[i]] only when [i > blockStart + 3], so
    every block that is closed has at least four lines. *)
Lemma refine_loop_length lines : ∀ i blockStart currentBlock refinedBlocks,
  blockStart ≤ i →
  4 * length (refine_loop lines i blockStart currentBlock refinedBlocks)
  ≤ 4 * length refinedBlocks + 4
    + (length lines + Nat.min (i - blockStart) 4 - 1).
Proof.
  assert (Hpush : ∀ cur (acc : list string),
            length (if nonblank cur then acc ++ [JsString.trim cur] else acc)
            ≤ length acc + 1).
  { intros cur acc. destruct (nonblank cur); [rewrite length_app; simpl|]; lia. }
  induction lines as [|l lines IH]; intros i bs cur acc Hle; cbn [refine_loop].
  - specialize (Hpush cur acc). simpl. lia.
  - destruct (bs + 3 <? i) eqn:Hlt; cbn [andb].
    + apply Nat.ltb_lt in Hlt.
      destruct (_looksLikeBlockStart _ _).
      * specialize (Hpush cur acc).
        etransitivity; [apply IH; lia|]. cbn [length].
        replace (S i - i) with 1 by lia. lia.
      * etransitivity; [apply IH; lia|]. cbn [length]. lia.
    + apply Nat.ltb_ge in Hlt.
      etransitivity; [apply IH; lia|]. cbn [length]. lia.
Qed.

Lemma _refineBlocks_from_length blocks : ∀ refinedBlocks,
  4 * length (_refineBlocks_from blocks refinedBlocks)
  ≤ 4 * length refinedBlocks
    + sum_list (map (λ b, length (JsString.split b nl) + 3) blocks).
Proof.
  induction blocks as [|b blocks IH]; intros acc; cbn [_refineBlocks_from map];
    [simpl; lia|].
  change (sum_list (?x :: ?l)) with (x + sum_list l).
  destruct (nonblank b).
  - etransitivity; [apply IH|].
    pose proof (refine_loop_length (JsString.split b nl) 0 0 "" acc (le_n 0)) as H.
    pose proof (split_go_length nl b 0 []) as Hs.
    fold (JsString.split b nl) in Hs.
    change (Nat.min (0 - 0) 4) with 0 in H.
    generalize dependent (length (JsString.split b nl)). intros n H Hs. lia.
  - etransitivity; [apply IH|]. lia.
Qed.
End RefineFacts.

Module ParsedText.
Import monsterParser Detection TrimFacts.

Lemma nonblank_lines_trimmed cleanedText :
  Forall trimmed (nonblank_lines cleanedText).
Proof.
  unfold nonblank_lines. apply Forall_forall. intros x Hx.
  apply list_elem_of_In, filter_In in Hx as [Hx Hne].
  apply in_map_iff in Hx as (y & <- & _).
  split; [|apply trim_idem].
  intros E. by rewrite E in Hne.
Qed.

Lemma from_input_trimmed lines e :
  TaggedLines.from_input lines e → trimmed (TaggedLine.line e).
Proof.
  intros (raw & _ & -> & [Hne _]). split; [|apply trim_idem].
  intros E. by rewrite E in Hne.
Qed.

Lemma parsed_from_input lines b ls :
  _parseIntoBlocks lines !! b = Some ls → Forall (TaggedLines.from_input lines) ls.
Proof.
  intros H.
  assert (Hinit : TaggedLines.tidy lines 0 tagger_init).
  { intros b' ls' Hl. unfold tagger_init in Hl.
    cbn [blocks] in Hl. by rewrite lookup_empty in Hl. }
  apply (TaggerRun.tidy_run lines lines _ 0 eq_refl) in Hinit.
  destruct (Hinit b ls H) as [H1 _].
  eapply Forall_impl; [exact H1|]. by intros e [_ ?].
Qed.
End ParsedText.

(** X19.  [_refineBlocks] starts a new block at a line only when more
    than three lines of the current block precede it, so it returns at
    most one block for every four lines: four times the number of
    blocks is at most the number of lines of the blocks it is given,
    plus three for each of them. *)
Theorem refined_blocks_span_four_lines (blocks : list string) :
  4 * length (contentDetector._refineBlocks blocks)
  ≤ sum_list (map (λ b, length (JsString.split b nl) + 3) blocks).
Proof.
  unfold contentDetector._refineBlocks.
  pose proof (RefineFacts._refineBlocks_from_length blocks []) as H.
  simpl in H. exact H.
Qed.

(** X20.  The texts of the record [parseMonster] returns are trimmed and
    not empty: its name, and every line of its [otherInfo]. *)
Theorem parsed_texts_are_trimmed
    (U : Type) (strip : string → U → string * U) (σ : store U) content :
  match fst (monsterParser.parseMonster strip σ content) with
  | Ok rec =>
      Detection.trimmed (MonsterData.name rec)
      ∧ Forall Detection.trimmed (MonsterData.otherInfo rec)
  | Throw _ => True
  end.
Proof.
  rewrite ParseFacts.parseMonster_cleaned.
  generalize (fst (monsterParser._cleanInput strip σ content)). intros cleaned.
  unfold monsterParser.parse_cleaned.
  pose proof (ParsedText.nonblank_lines_trimmed cleaned) as Hl.
  destruct (monsterParser.nonblank_lines cleaned) as [|name lines]; [done|].
  destruct (monsterParser.assemble name _) as [rec|err] eqn:E; [|done].
  apply ExtractorFacts.assemble_fields in E as (-> & E).
  do 24 destruct E as [_ E].
  split; [by inversion Hl|].
  unfold monsterParser._extractOtherInfo in E.
  destruct (monsterParser._parseIntoBlocks lines !! "otherBlock") as [ls|] eqn:Hb;
    [|injection E as <-; constructor].
  apply ParsedText.parsed_from_input in Hb.
  destruct ls as [|e tl]; injection E as <-; [constructor|].
  change (Forall Detection.trimmed (map TaggedLine.line (e :: tl))).
  apply Forall_map. eapply Forall_impl; [exact Hb|].
  intros x Hx. by eapply ParsedText.from_input_trimmed.
Qed.

Module IntegerChallenge.
Import Regex RegexSem RegexFacts MatchShape MatchFacts ChallengeFacts AnchoredFacts.
Import monsterParser Digits ChallengeExtract ChallengeShape.
Local Open Scope char_scope.

Lemma slash_ci c : chr_mem true "/" c = Ascii.eqb "/" c.
Proof. destruct c as [[] [] [] [] [] [] [] []]; reflexivity. Qed.

(** A greedy run gives back code unit after code unit; when what follows
    the quantifier fails wherever no slash stands, the whole fails. *)
Lemma rep_hi_none ic ml a p (k : cont) tl cp :
  char_pred ic a = Some p →
  (∀ pv l cp', no_slash l → k (MState pv l cp') = None) →
  no_slash tl → stops p tl →
  ∀ w n pv, Forall (λ c, c ≠ "/") w →
  rep_hi (λ k' st', m ic ml a k' (clear_caps (groups a) st')) n k
    (MState pv (w ++ tl) cp) = None.
Proof.
  intros Ha Hk Htl Hstop. induction w as [|c w IH]; intros n pv Hw.
  - cbn [app]. destruct n as [|n]; cbn [rep_hi]; [by apply Hk|].
    rewrite (m_single ic ml _ _ _ _ Ha). unfold step_char. cbn [rest].
    destruct tl as [|d tl']; [by apply Hk|]. simpl in Hstop. rewrite Hstop.
    by apply Hk.
  - inversion Hw as [|?? Hc Hw']; subst. cbn [app].
    assert (Hhere : k (MState pv (c :: w ++ tl) cp) = None) by (apply Hk; exact Hc).
    destruct n as [|n]; cbn [rep_hi]; [exact Hhere|].
    rewrite (m_single ic ml _ _ _ _ Ha). unfold step_char. cbn [rest caps].
    destruct (p c); [|exact Hhere].
    destruct (_ <? _)%nat; [rewrite (IH n (Some c) Hw')|]; exact Hhere.
Qed.

Lemma slash_needed r k pv l cp :
  no_slash l → m true false (RSeq (RChar "/") r) k (MState pv l cp) = None.
Proof.
  destruct l as [|c l]; [done|]. intros Hc. rewrite m_lit_step, slash_ci.
  destruct (Ascii.eqb "/" c) eqn:E; [|done]. apply Ascii.eqb_eq in E.
  exfalso. apply Hc. by rewrite E.
Qed.

Lemma m_rep1 ic ml a k st :
  m ic ml (RRep a 1 None) k st
  = m ic ml a
      (λ st1, rep_hi (λ k' st', m ic ml a k' (clear_caps (groups a) st'))
                (length (rest st1)) k st1)
      (clear_caps (groups a) st).
Proof. reflexivity. Qed.

Lemma fraction_fails a r k pv tl cp :
  digit_string a → no_slash tl → stops (set_mem true false [CDigit]) tl →
  m true false
    (RSeq (RRep (RSet false [CDigit]) 1 None) (RSeq (RChar "/") r)) k
    (MState pv (JsString.chars a ++ tl) cp) = None.
Proof.
  intros [Hne Ha] Htl Hstop. rewrite m_seq.
  destruct (JsString.chars a) as [|d w] eqn:E; [by destruct a|].
  inversion Ha as [|?? Hd Hw]; subst.
  assert (Hns : Forall (λ c, c ≠ "/") (d :: w)).
  { eapply Forall_impl; [exact Ha|]. intros c Hc ->. discriminate Hc. }
  inversion Hns as [|?? _ Hns']; subst.
  cbn [app]. rewrite m_rep1.
  rewrite (m_single true false (RSet false [CDigit]) _ _ _ eq_refl).
  unfold step_char. cbn [rest caps]. rewrite (digit_in_class _ Hd).
  apply (rep_hi_none true false (RSet false [CDigit]) _ _ tl cp eq_refl);
    [|done|done|done].
  intros pv' l cp' Hl. by apply slash_needed.
Qed.

Lemma integer_run a g :
  digit_string a → g ≠ [] → Forall (λ c, c ≠ ")") g →
  ∃ st,
    m true false (ast regex.challenge) Some
      (MState None
         (JsString.chars "Challenge " ++ JsString.chars a
          ++ " " :: "(" :: g ++ [")"]) ∅) = Some st
    ∧ caps st !! 1 = Some (JsString.chars a)
    ∧ caps st !! 2 = Some g.
Proof.
  intros Ha Hg1 Hg2. pose proof Ha as [Ha1%chars_nonempty Ha2].
  eexists. split.
  - unfold regex.challenge. cbn [ast]. cbn [JsString.chars list_ascii_of_string app].
    rewrite m_bol_start.
    do 9 lit_step. rewrite m_seq.
    eapply (m_rep_run true false) with (w := [" "]);
      [reflexivity|repeat constructor| |simpl; lia|].
    { apply stops_app; [done|]. eapply Forall_impl; [exact Ha2|].
      apply digit_not_space. }
    rewrite m_seq, m_group, HeaderFacts.m_alt.
    rewrite fraction_fails by done. cbv iota.
    eapply (m_rep_run true false) with (w := JsString.chars a);
      [reflexivity|by apply digits_in_class|reflexivity| |].
    { destruct (JsString.chars a); [done|simpl; lia]. }
    cbv beta. rewrite consumed_app.
    unfold set_cap. cbn [prev rest caps].
    rewrite m_seq.
    eapply (m_rep_run true false) with (w := [" "]);
      [reflexivity|repeat constructor|reflexivity|simpl; lia|].
    lit_step. rewrite m_seq, m_group.
    eapply (m_rep_run true false) with (w := g);
      [reflexivity| |reflexivity| |].
    { eapply Forall_impl; [exact Hg2|]. apply not_paren_in_class. }
    { destruct g; [done|simpl; lia]. }
    cbv beta. rewrite consumed_app. unfold set_cap. cbn [prev rest caps].
    rewrite m_seq.
    eapply (m_rep_run true false) with (w := []);
      [reflexivity|constructor|reflexivity|simpl; lia|].
    lit_step. reflexivity.
  - cbn [caps]. split.
    + rewrite lookup_insert_ne by done. apply lookup_insert_eq.
    + apply lookup_insert_eq.
Qed.

Lemma integer_exec a t :
  digit_string a →
  t ≠ ""%string → Forall (λ c, c ≠ ")") (JsString.chars t) →
  ∃ mt,
    Regex.exec regex.challenge ("Challenge " ++ a ++ " (" ++ t ++ ")") = Some mt
    ∧ Regex.group mt 1 = Some a
    ∧ Regex.group mt 2 = Some t.
Proof.
  intros Ha Ht1%chars_nonempty Ht2.
  destruct (integer_run a (JsString.chars t) Ha Ht1 Ht2) as (st & Hm & H1 & H2).
  eexists. split; [|split].
  - apply exec_at_start. rewrite !chars_app. exact Hm.
  - unfold Regex.group, mk_match. cbn [mgroups]. rewrite lookup_fmap, H1.
    cbn [fmap option_fmap option_map]. by rewrite of_chars_chars.
  - unfold Regex.group, mk_match. cbn [mgroups]. rewrite lookup_fmap, H2.
    cbn [fmap option_fmap option_map]. by rewrite of_chars_chars.
Qed.

Lemma includes_none (x : ascii) s :
  Forall (λ c, Ascii.eqb x c = false) (JsString.chars s) →
  JsString.includes s (String x "") = false.
Proof.
  induction s as [|c s IH]; [done|]. intros H. inversion H as [|?? Hc Hs]; subst.
  cbn [JsString.includes]. rewrite StringFacts.startsWith_single, Hc.
  by apply IH.
Qed.
End IntegerChallenge.

(** X21.  A whole-number challenge rating.  For a challenge line written
    [Challenge n (x XP)], with [n] a run of digits and [x] groups of
    digits separated by commas, [_extractChallenge] takes the branch
    without a slash: [cr] is the integer [n] denotes and [xp] the integer
    the digits of [x] denote with the commas removed. *)
Theorem challenge_whole_number (bl : gmap string (list TaggedLine.t)) e tl a d ds :
  bl !! "challenge" = Some (e :: tl) →
  Digits.digit_string a → Forall Digits.digit_string (d :: ds) →
  TaggedLine.line e
  = ("Challenge " ++ a ++ " (" ++ (JsString.join "," (d :: ds) ++ " XP") ++ ")")%string →
  monsterParser._extractChallenge bl
  = Ok {| Challenge.cr := JsNumber.of_N (Digits.decimal a);
          Challenge.xp := JsNumber.of_N (Digits.decimal (Digits.ungrouped (d :: ds))) |}.
Proof.
  intros Hbl Ha Hds Hline.
  unfold monsterParser._extractChallenge, monsterParser.first_match.
  rewrite Hbl, Hline.
  destruct (IntegerChallenge.integer_exec a (JsString.join "," (d :: ds) ++ " XP") Ha)
    as (mt & -> & -> & ->).
  { intros Heq. apply (f_equal JsString.chars) in Heq.
    rewrite MatchFacts.chars_app in Heq.
    by destruct (JsString.chars (JsString.join "," (d :: ds))). }
  { by apply ChallengeExtract.grouped_no_paren. }
  cbn [defined mbind result_bind].
  rewrite (IntegerChallenge.includes_none "/" a)
    by (apply ChallengeExtract.digits_not; [reflexivity|apply Ha]).
  rewrite ParseIntFacts.parseInt_digits by done.
  destruct (ChallengeExtract.xp_exec d ds Hds) as (xm & -> & ->).
  cbn [defined mbind result_bind mret result_ret].
  rewrite ChallengeExtract.strip_commas by done.
  rewrite ParseIntFacts.parseInt_digits by (by apply ChallengeExtract.ungrouped_digits).
  reflexivity.
Qed.

Lemma challenge_whole_number_witness :
  monsterParser._extractChallenge
    {[ "challenge" := [NamedEntries.tl_ 7 "Challenge 12 (8,400 XP)"] ]}
  = Ok {| Challenge.cr := JsNumber.of_N (Digits.decimal "12");
          Challenge.xp :=
            JsNumber.of_N (Digits.decimal (Digits.ungrouped ["8"; "400"])) |}.
Proof.
  apply (challenge_whole_number
           {[ "challenge" := [NamedEntries.tl_ 7 "Challenge 12 (8,400 XP)"] ]}
           (NamedEntries.tl_ 7 "Challenge 12 (8,400 XP)") [] "12" "8" ["400"]).
  - vm_compute. reflexivity.
  - apply conj; [discriminate|].
    repeat (apply Forall_cons_2; [reflexivity|]). apply Forall_nil_2.
  - repeat (apply Forall_cons_2;
            [apply conj; [discriminate|];
             repeat (apply Forall_cons_2; [reflexivity|]); apply Forall_nil_2|]).
    apply Forall_nil_2.
  - reflexivity.
Defined.

Module ListedFacts.
Import Regex RegexSem RegexFacts MatchShape MatchFacts ChallengeFacts AnchoredFacts.
Import monsterParser AbilityGroups AbilityGroupFacts Titles TitleEntryFacts Listed.
Local Open Scope char_scope.

(** The end of the list patterns: [\s+(.+)]. *)
Lemma list_tail_run pv sp text cp :
  proper sp text →
  m true false
    (RSeq (RRep (RSet false [CSpace]) 1 None) (RGroup 1 (RRep RDot 1 None))) Some
    (MState pv (sp ++ text) cp)
  = Some (MState (prev_after (prev_after pv sp) text) [] (<[1 := text]> cp)).
Proof.
  intros (Hsp0 & Hsp & Ht0 & Ht & Hstop). rewrite m_seq.
  eapply (m_rep_run true false) with (w := sp);
    [reflexivity|by apply Forall_class_space|
    |destruct sp; [done|simpl; lia]|].
  { destruct text as [|c text]; [done|]. simpl in Hstop. cbn [stops].
    by rewrite class_space. }
  rewrite m_group.
  eapply m_rep_all; [reflexivity| |destruct text; [done|simpl; lia]|].
  { eapply Forall_impl; [exact Ht|]. intros c Hc. cbv beta. by rewrite Hc. }
  cbv beta. rewrite (consumed_eq _ _ _ text) by (by rewrite app_nil_r).
  reflexivity.
Qed.

Ltac header_run :=
  repeat first
    [ lit_step
    | rewrite m_seq;
      eapply (m_rep_run true false) with (w := [" "]);
      [reflexivity|repeat constructor|reflexivity|simpl; lia|] ].

Ltac list_exec rg :=
  eexists; split;
  [ apply exec_at_start; unfold line_of; rewrite chars_app, chars_of_chars;
    change (ignoreCase (rflags rg)) with true;
    change (multiline (rflags rg)) with false;
    unfold rg; cbn [ast JsString.chars list_ascii_of_string app];
    rewrite m_bol_start; header_run; by apply list_tail_run
  | unfold group, mk_match; cbn [mgroups caps];
    by rewrite lookup_fmap, lookup_insert_eq ].

Lemma languages_exec sp text :
  proper sp text →
  ∃ mt, Regex.exec regex.languages (line_of "Languages" sp text) = Some mt
        ∧ Regex.group mt 1 = Some (JsString.of_chars text).
Proof. intros H. list_exec regex.languages. Qed.

Lemma damageVulnerabilities_exec sp text :
  proper sp text →
  ∃ mt, Regex.exec regex.damageVulnerabilities
          (line_of "Damage Vulnerabilities" sp text) = Some mt
        ∧ Regex.group mt 1 = Some (JsString.of_chars text).
Proof. intros H. list_exec regex.damageVulnerabilities. Qed.

Lemma damageResistances_exec sp text :
  proper sp text →
  ∃ mt, Regex.exec regex.damageResistances
          (line_of "Damage Resistances" sp text) = Some mt
        ∧ Regex.group mt 1 = Some (JsString.of_chars text).
Proof. intros H. list_exec regex.damageResistances. Qed.

Lemma damageImmunities_exec sp text :
  proper sp text →
  ∃ mt, Regex.exec regex.damageImmunities
          (line_of "Damage Immunities" sp text) = Some mt
        ∧ Regex.group mt 1 = Some (JsString.of_chars text).
Proof. intros H. list_exec regex.damageImmunities. Qed.

Lemma conditionImmunities_exec sp text :
  proper sp text →
  ∃ mt, Regex.exec regex.conditionImmunities
          (line_of "Condition Immunities" sp text) = Some mt
        ∧ Regex.group mt 1 = Some (JsString.of_chars text).
Proof. intros H. list_exec regex.conditionImmunities. Qed.

Lemma damage_condition (bl : gmap string (list TaggedLine.t)) id r e tl text :
  regexMap id = Some r → bl !! id = Some (e :: tl) →
  (∃ mt, Regex.exec r (TaggedLine.line e) = Some mt
         ∧ Regex.group mt 1 = Some (JsString.of_chars text)) →
  _extractDamageCondition bl id = Ok (map JsString.toLowerCase (items text)).
Proof.
  intros Hr Hbl (mt & Hex & Hg). unfold _extractDamageCondition.
  rewrite Hbl, Hr, Hex, Hg. cbn [defined mbind result_bind mret result_ret].
  unfold items. by rewrite map_map.
Qed.
End ListedFacts.

(** X22.  Comma-separated lists.  For a first line written as the header
    ([Languages], [Damage Vulnerabilities], [Damage Resistances],
    [Damage Immunities] or [Condition Immunities]), white space and a
    text on one line, the extractor of the block returns the pieces of
    the text between its commas, each trimmed, in order; those of the
    damage and condition lists are also put in lower case, the languages
    are not. *)
Theorem listed_items_are_split
    (bl : gmap string (list TaggedLine.t)) e tl sp text :
  Listed.proper sp text →
  (bl !! "languages" = Some (e :: tl) →
   TaggedLine.line e = Listed.line_of "Languages" sp text →
   monsterParser._extractLanguages bl = Ok (Listed.items text))
  ∧ (bl !! "damageVulnerabilities" = Some (e :: tl) →
     TaggedLine.line e = Listed.line_of "Damage Vulnerabilities" sp text →
     monsterParser._extractDamageVulnerabilities bl
     = Ok (map JsString.toLowerCase (Listed.items text)))
  ∧ (bl !! "damageResistances" = Some (e :: tl) →
     TaggedLine.line e = Listed.line_of "Damage Resistances" sp text →
     monsterParser._extractDamageResistances bl
     = Ok (map JsString.toLowerCase (Listed.items text)))
  ∧ (bl !! "damageImmunities" = Some (e :: tl) →
     TaggedLine.line e = Listed.line_of "Damage Immunities" sp text →
     monsterParser._extractDamageImmunities bl
     = Ok (map JsString.toLowerCase (Listed.items text)))
  ∧ (bl !! "conditionImmunities" = Some (e :: tl) →
     TaggedLine.line e = Listed.line_of "Condition Immunities" sp text →
     monsterParser._extractConditionImmunities bl
     = Ok (map JsString.toLowerCase (Listed.items text))).
Proof.
  intros H. repeat apply conj; intros Hbl Hline.
  - unfold monsterParser._extractLanguages, monsterParser.first_match.
    rewrite Hbl, Hline.
    destruct (ListedFacts.languages_exec sp text H) as (mt & -> & ->).
    reflexivity.
  - apply (ListedFacts.damage_condition _ _ monsterParser.regex.damageVulnerabilities
             e tl); [reflexivity|done|].
    rewrite Hline. by apply ListedFacts.damageVulnerabilities_exec.
  - apply (ListedFacts.damage_condition _ _ monsterParser.regex.damageResistances
             e tl); [reflexivity|done|].
    rewrite Hline. by apply ListedFacts.damageResistances_exec.
  - apply (ListedFacts.damage_condition _ _ monsterParser.regex.damageImmunities
             e tl); [reflexivity|done|].
    rewrite Hline. by apply ListedFacts.damageImmunities_exec.
  - apply (ListedFacts.damage_condition _ _ monsterParser.regex.conditionImmunities
             e tl); [reflexivity|done|].
    rewrite Hline. by apply ListedFacts.conditionImmunities_exec.
Qed.

Lemma listed_items_are_split_witness :
  monsterParser._extractDamageImmunities
    {[ "damageImmunities" := [NamedEntries.tl_ 5 "Damage Immunities  Fire, Cold "] ]}
  = Ok (map JsString.toLowerCase (Listed.items (JsString.chars "Fire, Cold "))).
Proof.
  refine (proj1 (proj2 (proj2 (proj2
    (listed_items_are_split
       {[ "damageImmunities" := [NamedEntries.tl_ 5 "Damage Immunities  Fire, Cold "] ]}
       (NamedEntries.tl_ 5 "Damage Immunities  Fire, Cold ") []
       (JsString.chars "  ") (JsString.chars "Fire, Cold ") _)))) _ _).
  - unfold Listed.proper. repeat apply conj.
    + discriminate.
    + repeat (apply Forall_cons_2; [reflexivity|]). apply Forall_nil_2.
    + discriminate.
    + repeat (apply Forall_cons_2; [reflexivity|]). apply Forall_nil_2.
    + reflexivity.
  - vm_compute. reflexivity.
  - reflexivity.
Defined.

Module RangeFacts.
Import monsterParser Captures.

Lemma mapM_Forall {A B} (f : A → result B) (P : B → Prop) (l : list A) :
  (∀ x, ∃ v, f x = Ok v ∧ P v) → ∃ vs, mapM f l = Ok vs ∧ Forall P vs.
Proof.
  intros Hf. induction l as [|x l (vs & IH & Hvs)]; simpl; [by eexists|].
  destruct (Hf x) as (v & -> & Hv). simpl. rewrite IH. simpl.
  eexists. split; [done|]. by constructor.
Qed.
End RangeFacts.

Module SignedFacts.
Import Regex RegexSem RegexFacts MatchShape MatchFacts AnchoredFacts.
Import AbilityLine AbilityGroups AbilityGroupFacts Captures CaptureFacts SignedCaptures Digits.
Local Open Scope char_scope.

Lemma sign_class ic c :
  set_mem ic false [CChar "+"; CChar "-"] c = true → c = "+" ∨ c = "-".
Proof.
  destruct ic; destruct c as [[] [] [] [] [] [] [] []]; vm_compute;
    first [discriminate | by left | by right].
Qed.

Lemma signed_run_sound ic ml a st st' :
  signed_run a = true → matches ic ml a st st' →
  ∃ sg dg, (sg = "+" ∨ sg = "-") ∧ digits dg ∧ rest st = sg :: dg ++ rest st'.
Proof.
  destruct a as [| | | | | | |a b| | |]; try done.
  destruct a as [|neg items| | | | | | | | |]; try done.
  destruct neg; [done|].
  destruct items as [|[x| | | |] [|[y| | | |] [|? ?]]]; try done.
  cbn [signed_run].
  intros [[->%Ascii.eqb_eq ->%Ascii.eqb_eq]%andb_true_iff Hd]%andb_true_iff.
  revert Hd.
  intros Hd (mid & (sg & Hr & Hsg)%stepped_inv & Hb).
  destruct (digit_run_sound _ _ _ _ _ Hd Hb) as (dg & Hdg & Hrd).
  exists sg, dg. split; [by eapply sign_class|]. split; [done|].
  by rewrite Hr, Hrd.
Qed.

Lemma signed_group_sound ic ml n r : ∀ st st',
  signed_group n r = true → matches ic ml r st st' →
  ∃ sg dg, (sg = "+" ∨ sg = "-") ∧ digits dg ∧ caps st' !! n = Some (sg :: dg).
Proof.
  induction r as [| | | | | | |a IHa b IHb| |k a _|]; intros st st'; try done.
  - cbn [signed_group]. intros H (mid & Ha & Hb).
    apply orb_true_iff in H as [[H1 H2]%andb_true_iff|H]; [|by eapply IHb].
    apply negb_true_iff, bool_decide_eq_false in H2.
    destruct (IHa _ _ H1 Ha) as (sg & dg & Hsg & Hdg & Hc).
    exists sg, dg. split; [done|]. split; [done|].
    destruct (matches_caps ic ml n _ _ _ Hb) as [_ ->]; done.
  - cbn [signed_group]. intros [->%Nat.eqb_eq Hd]%andb_true_iff (st1 & Ha & ->).
    destruct (signed_run_sound _ _ _ _ _ Hd Ha) as (sg & dg & Hsg & Hdg & Hr).
    exists sg, dg. split; [done|]. split; [done|].
    cbn [set_cap caps]. rewrite lookup_insert_eq.
    by rewrite (consumed_rest _ _ (sg :: dg)).
Qed.

Lemma mapM_id_Forall {B} (P : B → Prop) (l : list (result B)) :
  Forall (λ x, ∃ v, x = Ok v ∧ P v) l →
  ∃ vs, mapM (λ x, x) l = Ok vs ∧ Forall P vs.
Proof.
  induction 1 as [|x l (v & -> & Hv) _ (vs & IH & Hvs)]; simpl; [by eexists|].
  rewrite IH. simpl. eexists. split; [done|]. by constructor.
Qed.
End SignedFacts.

Module ScalarFacts.
Import Regex RegexSem RegexFacts MatchShape MatchFacts ChallengeFacts AnchoredFacts.
Import monsterParser AbilityGroups AbilityGroupFacts Titles TitleEntryFacts Listed.
Import ListedFacts IntegerChallenge TitleShape Scalars Digits.
Local Open Scope char_scope.

Lemma not_paren_class c : set_mem true true [CChar ")"] c = negb (Ascii.eqb ")" c).
Proof. destruct c as [[] [] [] [] [] [] [] []]; reflexivity. Qed.

Lemma Forall_note f :
  note f → Forall (λ c, set_mem true true [CChar ")"] c = true) f.
Proof.
  intros [_ H]. eapply Forall_impl; [exact H|]. intros c Hc. rewrite not_paren_class.
  apply negb_true_iff, Ascii.eqb_neq. congruence.
Qed.

(** The note [\(([^\)]+)\)] after its white space. *)
Lemma note_run (k : cont) n pv f more cp x :
  note f →
  k (MState (Some ")") more (<[n := f]> cp)) = Some x →
  m true false
    (RSeq (RChar "(") (RSeq (RGroup n (RRep (RSet true [CChar ")"]) 1 None)) (RChar ")")))
    k (MState pv ("(" :: f ++ ")" :: more) cp) = Some x.
Proof.
  intros Hf Hk. lit_step. rewrite m_seq, m_group.
  eapply (m_rep_run true false) with (w := f);
    [reflexivity|by apply Forall_note| |destruct Hf as [Hf _]; destruct f; [done|simpl; lia]|].
  { cbn [stops]. by rewrite not_paren_class, Ascii.eqb_refl. }
  cbv beta. rewrite (consumed_eq _ _ _ f) by reflexivity.
  unfold set_cap. cbn [prev rest caps]. lit_step. exact Hk.
Qed.

Lemma stops_digit_class tail :
  stops Char.is_digit tail → stops (set_mem true false [CDigit]) tail.
Proof.
  destruct tail as [|c tail]; [done|]. cbn [stops]. intros H. by rewrite class_digit.
Qed.

Lemma stops_space_class tail :
  stops Char.is_space tail → stops (set_mem true false [CSpace]) tail.
Proof.
  destruct tail as [|c tail]; [done|]. cbn [stops]. intros H. by rewrite class_space.
Qed.

Lemma digits_stop_space dg tail : digits dg → stops (set_mem true false [CSpace]) (dg ++ tail).
Proof.
  intros [Hne Hdg]. destruct dg as [|d dg]; [done|]. inversion Hdg; subst.
  cbn [app stops]. rewrite class_space. by apply digit_not_blank.
Qed.

(** The armor pattern after the header, on digits that nothing of a
    note follows. *)
Lemma armor_plain_run pv sp dg tail cp :
  sp ≠ [] → blanks sp → digits dg → ends tail →
  ∃ st, m true false armor_tail Some (MState pv (sp ++ dg ++ tail) cp) = Some st
        ∧ caps st = <[1 := dg]> cp.
Proof.
  intros Hsp0 Hsp Hdg [Hd Hs]. eexists. split.
  - unfold armor_tail. rewrite m_seq.
    eapply (m_rep_run true false) with (w := sp);
      [reflexivity|by apply Forall_class_space|by apply digits_stop_space
      |destruct sp; [done|simpl; lia]|].
    rewrite m_seq, m_group.
    eapply (m_rep_run true false) with (w := dg);
      [reflexivity|apply Forall_class_digit, Hdg|by apply stops_digit_class
      |destruct Hdg as [Hdg _]; destruct dg; [done|simpl; lia]|].
    cbv beta. rewrite consumed_app. unfold set_cap. cbn [prev rest caps].
    rewrite m_rep_bounded. cbn [rep_hi]. rewrite m_seq, m_rep1.
    rewrite (m_single true false (RSet false [CSpace]) (set_mem true false [CSpace])
               _ _ eq_refl).
    unfold step_char, clear_caps. cbn [rest].
    destruct tail as [|c tail]; [reflexivity|].
    cbn [stops] in Hs. rewrite class_space, Hs. reflexivity.
  - reflexivity.
Qed.

(** The armor pattern after the header, on digits and a note. *)
Lemma armor_noted_run pv sp dg sp' f more cp :
  sp ≠ [] → blanks sp → digits dg → sp' ≠ [] → blanks sp' → note f →
  ∃ st, m true false armor_tail Some (MState pv (sp ++ dg ++ noted sp' f more) cp)
          = Some st
        ∧ caps st = <[2 := f]> (<[1 := dg]> cp).
Proof.
  intros Hsp0 Hsp Hdg Hsp0' Hsp' Hf. eexists. split.
  - unfold armor_tail, noted. rewrite m_seq.
    eapply (m_rep_run true false) with (w := sp);
      [reflexivity|by apply Forall_class_space|by apply digits_stop_space
      |destruct sp; [done|simpl; lia]|].
    rewrite m_seq, m_group.
    eapply (m_rep_run true false) with (w := dg);
      [reflexivity|apply Forall_class_digit, Hdg|
      |destruct Hdg as [Hdg _]; destruct dg; [done|simpl; lia]|].
    { destruct sp' as [|c sp']; [done|]. inversion Hsp'; subst. cbn [app stops].
      rewrite class_digit. by apply blank_not_digit. }
    cbv beta. rewrite consumed_app. unfold set_cap. cbn [prev rest caps].
    rewrite m_rep_bounded. cbn [rep_hi].
    unfold clear_caps. cbn [prev rest caps groups foldr app].
    rewrite m_seq.
    erewrite (m_rep_run true false) with (w := sp');
      [reflexivity|reflexivity|by apply Forall_class_space|reflexivity
      |destruct sp'; [done|simpl; lia]|].
    apply note_run; [done|]. cbn [rest length].
    assert ((length more <? length (sp' ++ "(" :: f ++ ")" :: more))%nat = true) as ->.
    { apply Nat.ltb_lt. rewrite length_app. cbn [length]. rewrite length_app.
      cbn [length]. lia. }
    reflexivity.
  - cbn [caps]. apply insert_delete_eq.
Qed.

Lemma health_run pv sp dg sp' f more cp :
  sp ≠ [] → blanks sp → digits dg → blanks sp' → note f →
  ∃ st, m true false health_tail Some (MState pv (sp ++ dg ++ noted sp' f more) cp)
          = Some st
        ∧ caps st = <[2 := f]> (<[1 := dg]> cp).
Proof.
  intros Hsp0 Hsp Hdg Hsp' Hf. eexists. split.
  - unfold health_tail, noted. rewrite m_seq.
    eapply (m_rep_run true false) with (w := sp);
      [reflexivity|by apply Forall_class_space|by apply digits_stop_space
      |destruct sp; [done|simpl; lia]|].
    rewrite m_seq, m_group.
    eapply (m_rep_run true false) with (w := dg);
      [reflexivity|apply Forall_class_digit, Hdg|
      |destruct Hdg as [Hdg _]; destruct dg; [done|simpl; lia]|].
    { apply stops_run; [|reflexivity]. eapply Forall_impl; [exact Hsp'|].
      intros c Hc. rewrite class_digit. by apply blank_not_digit. }
    cbv beta. rewrite consumed_app. unfold set_cap. cbn [prev rest caps].
    rewrite m_seq.
    eapply (m_rep_run true false) with (w := sp');
      [reflexivity|by apply Forall_class_space|reflexivity|simpl; lia|].
    apply note_run; [done|]. reflexivity.
  - reflexivity.
Qed.

Ltac scalar_exec rg :=
  apply exec_at_start; unfold line_of; rewrite chars_app, chars_of_chars;
  change (ignoreCase (rflags rg)) with true;
  change (multiline (rflags rg)) with false;
  unfold rg; cbn [ast JsString.chars list_ascii_of_string app];
  rewrite m_bol_start; header_run.

Lemma armor_plain_exec sp dg tail :
  sp ≠ [] → blanks sp → digits dg → ends tail →
  ∃ mt, Regex.exec regex.armor (line_of "Armor Class" sp (dg ++ tail)) = Some mt
        ∧ Regex.group mt 1 = Some (JsString.of_chars dg)
        ∧ Regex.group mt 2 = None.
Proof.
  intros Hsp0 Hsp Hdg Ht.
  destruct (armor_plain_run (Some "s") sp dg tail ∅ Hsp0 Hsp Hdg Ht) as (st & Hrun & Hc).
  exists (mk_match 0 (JsString.chars (line_of "Armor Class" sp (dg ++ tail))) st).
  split.
  - scalar_exec regex.armor. exact Hrun.
  - unfold group, mk_match; cbn [mgroups]. rewrite !lookup_fmap, Hc.
    rewrite lookup_insert_eq, lookup_insert_ne by done. done.
Qed.

Lemma armor_noted_exec sp dg sp' f more :
  sp ≠ [] → blanks sp → digits dg → sp' ≠ [] → blanks sp' → note f →
  ∃ mt, Regex.exec regex.armor (line_of "Armor Class" sp (dg ++ noted sp' f more))
        = Some mt
        ∧ Regex.group mt 1 = Some (JsString.of_chars dg)
        ∧ Regex.group mt 2 = Some (JsString.of_chars f).
Proof.
  intros Hsp0 Hsp Hdg Hsp0' Hsp' Hf.
  destruct (armor_noted_run (Some "s") sp dg sp' f more ∅ Hsp0 Hsp Hdg Hsp0' Hsp' Hf)
    as (st & Hrun & Hc).
  exists (mk_match 0
            (JsString.chars (line_of "Armor Class" sp (dg ++ noted sp' f more))) st).
  split.
  - scalar_exec regex.armor. exact Hrun.
  - unfold group, mk_match; cbn [mgroups]. rewrite !lookup_fmap, Hc.
    rewrite lookup_insert_eq, lookup_insert_ne, lookup_insert_eq by done. done.
Qed.

Lemma health_exec sp dg sp' f more :
  sp ≠ [] → blanks sp → digits dg → blanks sp' → note f →
  ∃ mt, Regex.exec regex.health (line_of "Hit Points" sp (dg ++ noted sp' f more))
        = Some mt
        ∧ Regex.group mt 1 = Some (JsString.of_chars dg)
        ∧ Regex.group mt 2 = Some (JsString.of_chars f).
Proof.
  intros Hsp0 Hsp Hdg Hsp' Hf.
  destruct (health_run (Some "s") sp dg sp' f more ∅ Hsp0 Hsp Hdg Hsp' Hf)
    as (st & Hrun & Hc).
  exists (mk_match 0
            (JsString.chars (line_of "Hit Points" sp (dg ++ noted sp' f more))) st).
  split.
  - scalar_exec regex.health. exact Hrun.
  - unfold group, mk_match; cbn [mgroups]. rewrite !lookup_fmap, Hc.
    rewrite lookup_insert_eq, lookup_insert_ne, lookup_insert_eq by done. done.
Qed.

Lemma parseInt_run dg :
  digits dg → JsNumber.parseInt (Some (JsString.of_chars dg)) = number_of dg.
Proof. intros H. by apply ParseIntFacts.parseInt_digits, digits_string. Qed.
End ScalarFacts.

(** X15.  The armor class and the hit points.  [_extractAC] and
    [_extractHP] never throw.  For a first line written [Armor Class],
    white space and digits, the armor class is the number the digits
    denote: with an empty formula when what follows starts neither with a
    digit nor with white space, and with the text between the parentheses
    as formula when white space and a note in parentheses follow.  For a
    first line written [Hit Points], white space, digits, optional white
    space and a note in parentheses, the hit points are the number the
    digits denote and the formula is the text between the parentheses. *)
Theorem armor_and_health_are_numbers (bl : gmap string (list TaggedLine.t)) :
  (∃ ac, monsterParser._extractAC bl = Ok ac)
  ∧ (∃ hp, monsterParser._extractHP bl = Ok hp)
  ∧ (∀ e tl sp dg tail,
       bl !! "armor" = Some (e :: tl) →
       TaggedLine.line e = Listed.line_of "Armor Class" sp (dg ++ tail) →
       sp ≠ [] → AbilityGroups.blanks sp → AbilityGroups.digits dg →
       Scalars.ends tail →
       monsterParser._extractAC bl
       = Ok {| ValueFormula.value := Scalars.number_of dg;
               ValueFormula.formula := "" |})
  ∧ (∀ e tl sp dg sp' f more,
       bl !! "armor" = Some (e :: tl) →
       TaggedLine.line e
       = Listed.line_of "Armor Class" sp (dg ++ Scalars.noted sp' f more) →
       sp ≠ [] → AbilityGroups.blanks sp → AbilityGroups.digits dg →
       sp' ≠ [] → AbilityGroups.blanks sp' → Scalars.note f →
       monsterParser._extractAC bl
       = Ok {| ValueFormula.value := Scalars.number_of dg;
               ValueFormula.formula := JsString.of_chars f |})
  ∧ (∀ e tl sp dg sp' f more,
       bl !! "health" = Some (e :: tl) →
       TaggedLine.line e
       = Listed.line_of "Hit Points" sp (dg ++ Scalars.noted sp' f more) →
       sp ≠ [] → AbilityGroups.blanks sp → AbilityGroups.digits dg →
       AbilityGroups.blanks sp' → Scalars.note f →
       monsterParser._extractHP bl
       = Ok {| ValueFormula.value := Scalars.number_of dg;
               ValueFormula.formula := JsString.of_chars f |}).
Proof.
  repeat apply conj.
  - unfold monsterParser._extractAC, monsterParser.first_match.
    destruct (bl !! "armor") as [[|e tl]|]; [by eexists| |by eexists].
    destruct (Regex.exec _ _); by eexists.
  - unfold monsterParser._extractHP, monsterParser.first_match.
    destruct (bl !! "health") as [[|e tl]|]; [by eexists| |by eexists].
    destruct (Regex.exec _ _); by eexists.
  - intros e tl sp dg tail Hbl Hline Hsp0 Hsp Hdg Ht.
    unfold monsterParser._extractAC, monsterParser.first_match.
    rewrite Hbl, Hline.
    destruct (ScalarFacts.armor_plain_exec sp dg tail Hsp0 Hsp Hdg Ht)
      as (mt & -> & -> & ->).
    cbn [mret result_ret monsterParser.or_empty default].
    by rewrite ScalarFacts.parseInt_run.
  - intros e tl sp dg sp' f more Hbl Hline Hsp0 Hsp Hdg Hsp0' Hsp' Hf.
    unfold monsterParser._extractAC, monsterParser.first_match.
    rewrite Hbl, Hline.
    destruct (ScalarFacts.armor_noted_exec sp dg sp' f more Hsp0 Hsp Hdg Hsp0' Hsp' Hf)
      as (mt & -> & -> & ->).
    cbn [mret result_ret monsterParser.or_empty default].
    by rewrite ScalarFacts.parseInt_run.
  - intros e tl sp dg sp' f more Hbl Hline Hsp0 Hsp Hdg Hsp' Hf.
    unfold monsterParser._extractHP, monsterParser.first_match.
    rewrite Hbl, Hline.
    destruct (ScalarFacts.health_exec sp dg sp' f more Hsp0 Hsp Hdg Hsp' Hf)
      as (mt & -> & -> & ->).
    cbn [mret result_ret monsterParser.or_empty default].
    by rewrite ScalarFacts.parseInt_run.
Qed.

Lemma armor_and_health_are_numbers_witness :
  monsterParser._extractAC
    {[ "armor" := [NamedEntries.tl_ 1 "Armor Class 15 (natural armor), shield"] ]}
  = Ok {| ValueFormula.value := 15%float; ValueFormula.formula := "natural armor" |}.
Proof.
  destruct (armor_and_health_are_numbers
              {[ "armor" := [NamedEntries.tl_ 1 "Armor Class 15 (natural armor), shield"] ]})
    as (_ & _ & _ & H & _).
  rewrite (H (NamedEntries.tl_ 1 "Armor Class 15 (natural armor), shield") []
             (JsString.chars " ") (JsString.chars "15") (JsString.chars " ")
             (JsString.chars "natural armor") (JsString.chars ", shield")).
  - vm_compute. reflexivity.
  - vm_compute. reflexivity.
  - vm_compute. reflexivity.
  - discriminate.
  - repeat (apply Forall_cons_2; [reflexivity|]). apply Forall_nil_2.
  - apply conj; [discriminate|].
    repeat (apply Forall_cons_2; [reflexivity|]). apply Forall_nil_2.
  - discriminate.
  - repeat (apply Forall_cons_2; [reflexivity|]). apply Forall_nil_2.
  - apply conj; [discriminate|].
    repeat (apply Forall_cons_2; [discriminate|]). apply Forall_nil_2.
Defined.

Module SearchFacts.
Import Regex MatchShape MatchFacts.

Section Search.
Variables ic ml : bool.

(** A search that succeeds found its match after a prefix [pre] of the
    input. *)
Lemma search_found r : ∀ s p i j st,
  search ic ml r p s i = Some (j, st) →
  ∃ pre s', s = pre ++ s' ∧ j = i + length pre
            ∧ m ic ml r Some (MState (prev_after p pre) s' ∅) = Some st.
Proof.
  induction s as [|c tl IH]; intros p i j st; cbn [search].
  - destruct (m ic ml r Some _) eqn:E; [|done]. intros [= <- <-].
    exists [], []. split; [done|]. split; [simpl; lia|]. done.
  - destruct (m ic ml r Some _) eqn:E.
    + intros [= <- <-]. exists [], (c :: tl). split; [done|].
      split; [simpl; lia|]. done.
    + intros H. apply IH in H as (pre & s' & -> & -> & Hm).
      exists (c :: pre), s'. split; [done|]. split; [simpl; lia|].
      by rewrite prev_after_cons.
Qed.

(** A match somewhere in the input makes the search succeed. *)
Lemma search_some r : ∀ pre s' p i,
  m ic ml r Some (MState (prev_after p pre) s' ∅) ≠ None →
  search ic ml r p (pre ++ s') i ≠ None.
Proof.
  induction pre as [|c pre IH]; intros s' p i Hm.
  - change (prev_after p []) with p in Hm. cbn [app].
    destruct s' as [|c tl]; cbn [search];
      destruct (m ic ml r Some (MState p _ ∅)) eqn:E;
      first [discriminate | by destruct Hm].
  - rewrite prev_after_cons in Hm. cbn [app search].
    destruct (m ic ml r Some (MState p (c :: pre ++ s') ∅)); [discriminate|].
    by apply IH.
Qed.
End Search.

(** [exec] finds its match after a prefix of the text. *)
Lemma exec_found r s mt :
  exec r s = Some mt →
  ∃ pre s' st,
    JsString.chars s = pre ++ s'
    ∧ m (ignoreCase (rflags r)) (multiline (rflags r)) (ast r) Some
        (MState (prev_after None pre) s' ∅) = Some st
    ∧ mt = mk_match (length pre) (JsString.chars s) st.
Proof.
  unfold exec, exec_from. cbn [length]. change (_ <? 0)%nat with false. cbv iota.
  change (take 0 (JsString.chars s)) with (@nil ascii).
  change (last (@nil ascii)) with (@None ascii). rewrite drop_0.
  destruct (search _ _ _ _ _ _) as [[j st]|] eqn:E; [|done]. intros [= <-].
  apply search_found in E as (pre & s' & Hs & -> & Hm).
  exists pre, s', st. done.
Qed.

Lemma test_some r pre s' :
  m (ignoreCase (rflags r)) (multiline (rflags r)) (ast r) Some
    (MState (prev_after None pre) s' ∅) ≠ None →
  test r (JsString.of_chars (pre ++ s')) = true.
Proof.
  intros Hm. unfold test, exec, exec_from. rewrite chars_of_chars.
  change (_ <? 0)%nat with false. cbv iota.
  change (take 0 (pre ++ s')) with (@nil ascii).
  change (last (@nil ascii)) with (@None ascii). rewrite drop_0.
  pose proof (search_some _ _ _ pre s' None 0 Hm) as H.
  destruct (search _ _ _ _ _ _) as [[j st]|]; [reflexivity|by destruct H].
Qed.
End SearchFacts.

Module FallbackFacts.
Import Regex RegexSem RegexFacts MatchShape MatchFacts ChallengeFacts AnchoredFacts.
Import AbilityShape AbilityLine HeaderFacts TitleShape AbilityGroups AbilityGroupFacts.
Import CaptureFacts SearchFacts IntegerChallenge ScalarFacts Abilities AbilitiesFacts.
Import Captures Digits Scalars Fallback.
Local Open Scope char_scope.

(** The group [(\d+)] of a match holds a run of digits. *)
Lemma exec_digits r s mt n :
  digits_group n (ast r) = true → exec r s = Some mt →
  ∃ dg, digits dg ∧ group mt n = Some (JsString.of_chars dg).
Proof.
  intros Hs (pre & s' & st & _ & Hm & ->)%exec_found.
  apply m_sound in Hm as (st' & Hmt & [= ->]).
  destruct (digits_group_sound _ _ _ _ _ _ Hs Hmt) as (dg & Hdg & Hc).
  exists dg. split; [done|]. unfold group, mk_match. cbn [mgroups].
  by rewrite lookup_fmap, Hc.
Qed.

Lemma lit3_inv x y z r' (k : cont) pv s cp st :
  m true false (RSeq (RChar x) (RSeq (RChar y) (RSeq (RChar z) r'))) k (MState pv s cp)
  = Some st →
  ∃ c1 c2 c3 s'',
    s = c1 :: c2 :: c3 :: s''
    ∧ chr_mem true x c1 = true ∧ chr_mem true y c2 = true ∧ chr_mem true z c3 = true.
Proof.
  destruct s as [|c1 [|c2 [|c3 s'']]]; try done.
  - rewrite m_lit_step. by destruct (chr_mem true x c1).
  - rewrite m_lit_step. destruct (chr_mem true x c1); [|done].
    rewrite m_lit_step. by destruct (chr_mem true y c2).
  - rewrite m_lit_step. destruct (chr_mem true x c1) eqn:H1; [|done].
    rewrite m_lit_step. destruct (chr_mem true y c2) eqn:H2; [|done].
    rewrite m_lit_step. destruct (chr_mem true z c3) eqn:H3; [|done].
    intros _. by exists c1, c2, c3, s''.
Qed.

Lemma lit3_some x y z pv c1 c2 c3 s'' cp :
  chr_mem true x c1 = true → chr_mem true y c2 = true → chr_mem true z c3 = true →
  m true false (RSeq (RChar x) (RSeq (RChar y) (RChar z))) Some
    (MState pv (c1 :: c2 :: c3 :: s'') cp)
  = Some (MState (Some c3) s'' cp).
Proof. intros H1 H2 H3. by rewrite m_lit_step, H1, m_lit_step, H2, m_char_step, H3. Qed.

(** A line that the pattern of one ability matches holds an
    abbreviation. *)
Lemma any_of_one a r l mt :
  (a, r) ∈ fallback_table → exec r l = Some mt →
  test contentParser.regex.anyAbility l = true.
Proof.
  intros Hr (pre & s' & st & Hs & Hm & _)%exec_found.
  rewrite <- (of_chars_chars l). unfold JsString.chars in Hs |- *. rewrite Hs.
  apply test_some.
  change (ignoreCase (rflags contentParser.regex.anyAbility)) with true.
  change (multiline (rflags contentParser.regex.anyAbility)) with false.
  unfold fallback_table in Hr.
  repeat (apply elem_of_cons in Hr as [[= -> ->]|Hr];
    [apply lit3_inv in Hm as (c1 & c2 & c3 & s'' & -> & H1 & H2 & H3);
     unfold contentParser.regex.anyAbility; cbn [ast];
     repeat (rewrite m_alt;
             destruct (m true false (RSeq _ (RSeq _ (RChar _))) Some _) eqn:E;
             [discriminate
             |first [rewrite (lit3_some _ _ _ _ _ _ _ _ _ H1 H2 H3) in E; discriminate E
                    |clear E]]);
     try (rewrite (lit3_some _ _ _ _ _ _ _ _ _ H1 H2 H3); discriminate)|]).
  by apply elem_of_nil in Hr.
Qed.

Lemma _extractAbilityScores_fold lines :
  contentParser._extractAbilityScores lines
  = fold_left step lines (list_to_map (map (λ a, (a, 10%float)) abilityNames)).
Proof. reflexivity. Qed.

Lemma set_score_some k r line m mt :
  exec r line = Some mt →
  contentParser.set_score k r line m !! k = Some (JsNumber.parseInt (group mt 1)).
Proof.
  intros H. unfold contentParser.set_score. rewrite H. apply lookup_insert_eq.
Qed.

Lemma step_match a r abilities l mt :
  (a, r) ∈ fallback_table → exec r l = Some mt →
  step abilities l !! a = Some (JsNumber.parseInt (group mt 1)).
Proof.
  intros Hr Hex. unfold step. rewrite (any_of_one a r l mt Hr Hex).
  unfold fallback_table in Hr.
  repeat (apply elem_of_cons in Hr as [[= -> ->]|Hr];
          [rewrite ?set_score_other by done; by apply set_score_some|]).
  by apply elem_of_nil in Hr.
Qed.

Lemma step_keeps a r abilities l :
  (a, r) ∈ fallback_table → exec r l = None → step abilities l !! a = abilities !! a.
Proof.
  intros Hr Hex. unfold step. destruct (test _ l); [|done].
  unfold fallback_table in Hr.
  repeat (apply elem_of_cons in Hr as [[= -> ->]|Hr];
          [repeat first [ rewrite (set_score_none _ _ _ _ Hex)
                        | rewrite set_score_other by done ]; done|]).
  by apply elem_of_nil in Hr.
Qed.

Lemma fold_keeps a r post : ∀ acc,
  (a, r) ∈ fallback_table → Forall (λ l, exec r l = None) post →
  fold_left step post acc !! a = acc !! a.
Proof.
  intros acc Hr Hl. revert acc.
  induction Hl as [|l post Hl _ IH]; intros acc; cbn [fold_left]; [done|].
  by rewrite IH, (step_keeps a r acc l Hr Hl).
Qed.

(** The score of an ability is read from the last line that its pattern
    matches. *)
Lemma fallback_last a r pre l post mt :
  (a, r) ∈ fallback_table → exec r l = Some mt →
  Forall (λ l', exec r l' = None) post →
  contentParser._extractAbilityScores (pre ++ l :: post) !! a
  = Some (JsNumber.parseInt (group mt 1)).
Proof.
  intros Hr Hex Hpost. rewrite _extractAbilityScores_fold, fold_left_app.
  cbn [fold_left]. rewrite (fold_keeps a r post _ Hr Hpost).
  by apply step_match with (r := r).
Qed.

Lemma table_digits a r : (a, r) ∈ fallback_table → digits_group 1 (ast r) = true.
Proof.
  unfold fallback_table. intros Hr.
  repeat (apply elem_of_cons in Hr as [[= -> ->]|Hr]; [reflexivity|]).
  by apply elem_of_nil in Hr.
Qed.

(** *** Lines that start with an abbreviation *)

Lemma digit_not_colon c :
  Char.is_digit c = true → set_mem true false [CChar ":"; CChar "009"] c = false.
Proof. destruct c as [[] [] [] [] [] [] [] []]; vm_compute; congruence. Qed.

Lemma digits_stop (p : ascii → bool) dg tail :
  digits dg → (∀ c, Char.is_digit c = true → p c = false) → stops p (dg ++ tail).
Proof.
  intros [Hne Hdg] Hp. destruct dg as [|d dg]; [done|]. inversion Hdg; subst.
  cbn [app stops]. by apply Hp.
Qed.

Lemma digits_tail_run pv dg tail cp :
  digits dg → stops Char.is_digit tail →
  m true false
    (RSeq (RRep (RSet false [CChar ":"; CChar "009"]) 0 (Some 1))
       (RSeq (RRep (RSet false [CSpace]) 0 None)
          (RGroup 1 (RRep (RSet false [CDigit]) 1 None)))) Some
    (MState pv (dg ++ tail) cp)
  = Some (MState (prev_after pv dg) tail (<[1 := dg]> cp)).
Proof.
  intros Hdg Ht. rewrite m_seq.
  erewrite (m_rep_skip true false (RSet false [CChar ":"; CChar "009"]));
    [reflexivity|reflexivity|by apply digits_stop, digit_not_colon|].
  rewrite m_seq.
  apply (m_rep_run true false _ (set_mem true false [CSpace]) _ _ _ _ 0 [] pv);
    [reflexivity|constructor| |simpl; lia|].
  { apply digits_stop; [done|]. intros c Hc. rewrite class_space.
    by apply digit_not_blank. }
  rewrite m_group.
  eapply (m_rep_run true false) with (w := dg);
    [reflexivity|apply Forall_class_digit, Hdg|by apply stops_digit_class
    |destruct Hdg as [Hdg _]; destruct dg; [done|simpl; lia]|].
  cbv beta. rewrite consumed_app. reflexivity.
Qed.

Lemma colon_not_space : set_mem true false [CSpace] ":" = false.
Proof. reflexivity. Qed.

Lemma score_tail_run pv sep dg tail cp :
  separator sep → digits dg → stops Char.is_digit tail →
  ∃ st, m true false score_tail Some (MState pv (sep ++ dg ++ tail) cp) = Some st
        ∧ caps st = <[1 := dg]> cp.
Proof.
  intros [Hsep|(sp & sp' & -> & Hsp & Hsp')] Hdg Ht.
  - eexists. split.
    + unfold score_tail. rewrite m_seq.
      eapply (m_rep_run true false) with (w := sep);
        [reflexivity|by apply Forall_class_space| |simpl; lia|].
      { apply digits_stop; [done|]. intros c Hc. rewrite class_space.
        by apply digit_not_blank. }
      by apply digits_tail_run.
    + reflexivity.
  - eexists. split.
    + unfold score_tail. rewrite m_seq, <- app_assoc. cbn [app].
      eapply (m_rep_run true false) with (w := sp);
        [reflexivity|by apply Forall_class_space|reflexivity|simpl; lia|].
      rewrite m_seq, m_rep_bounded. cbn [rep_hi].
      rewrite (m_single true false (RSet false [CChar ":"; CChar "009"])
                 (set_mem true false [CChar ":"; CChar "009"]) _ _ eq_refl).
      unfold step_char. cbn [rest caps length].
      change (set_mem true false [CChar ":"; CChar "009"] ":") with true. cbv iota.
      assert ((length (sp' ++ dg ++ tail) <? S (length (sp' ++ dg ++ tail)))%nat = true)
        as -> by (apply Nat.ltb_lt; lia).
      rewrite m_seq.
      assert (Hin :
        m true false (RRep (RSet false [CSpace]) 0 None)
          (m true false (RGroup 1 (RRep (RSet false [CDigit]) 1 None)) Some)
          (MState (Some ":") (sp' ++ dg ++ tail) cp)
        = Some (MState (prev_after (prev_after (Some ":") sp') dg) tail
                  (<[1 := dg]> cp))).
      { eapply (m_rep_run true false) with (w := sp');
          [reflexivity|by apply Forall_class_space| |simpl; lia|].
        { apply digits_stop; [done|]. intros c Hc. rewrite class_space.
          by apply digit_not_blank. }
        rewrite m_group.
        eapply (m_rep_run true false) with (w := dg);
          [reflexivity|apply Forall_class_digit, Hdg|by apply stops_digit_class
          |destruct Hdg as [Hdg _]; destruct dg; [done|simpl; lia]|].
        cbv beta. rewrite consumed_app. reflexivity. }
      rewrite Hin. reflexivity.
    + reflexivity.
Qed.

Lemma key_of c1 c2 c3 X Y Z :
  Char.to_upper c1 = X → Char.to_upper c2 = Y → Char.to_upper c3 = Z →
  Char.is_upper X = true → Char.is_upper Y = true → Char.is_upper Z = true →
  key c1 c2 c3 = JsString.toLowerCase (JsString.of_chars [X; Y; Z]).
Proof.
  intros H1 H2 H3 HX HY HZ. unfold key.
  cbn [JsString.of_chars string_of_list_ascii JsString.toLowerCase].
  by rewrite (lower_of_upper _ _ H1 HX), (lower_of_upper _ _ H2 HY),
    (lower_of_upper _ _ H3 HZ).
Qed.

(** A line that starts with an abbreviation, a separator and digits is
    matched at its start by the pattern of that ability, and the group
    holds the digits. *)
Lemma scored_exec c1 c2 c3 r sep dg tail :
  (Char.to_upper c1, Char.to_upper c2, Char.to_upper c3) ∈ abbreviations →
  (key c1 c2 c3, r) ∈ fallback_table →
  separator sep → digits dg → stops Char.is_digit tail →
  ∃ mt, exec r (scored c1 c2 c3 sep dg tail) = Some mt
        ∧ group mt 1 = Some (JsString.of_chars dg).
Proof.
  intros Habbr Hr Hsep Hdg Ht.
  destruct (score_tail_run (Some c3) sep dg tail ∅ Hsep Hdg Ht) as (st & Hrun & Hc).
  exists (mk_match 0 (JsString.chars (scored c1 c2 c3 sep dg tail)) st).
  split; [|unfold group, mk_match; cbn [mgroups];
           by rewrite lookup_fmap, Hc, lookup_insert_eq].
  apply exec_at_start. unfold scored. rewrite chars_of_chars.
  unfold abbreviations in Habbr.
  repeat (apply elem_of_cons in Habbr as [[= H1 H2 H3]|Habbr];
    [rewrite (key_of _ _ _ _ _ _ H1 H2 H3 eq_refl eq_refl eq_refl) in Hr;
     unfold fallback_table in Hr;
     repeat (apply elem_of_cons in Hr as [Hr|Hr];
             [first [discriminate Hr | injection Hr as ->]|]);
     [..|by apply elem_of_nil in Hr];
     match goal with
     | |- m (ignoreCase (rflags ?rg)) _ _ _ _ = _ =>
         change (ignoreCase (rflags rg)) with true;
         change (multiline (rflags rg)) with false;
         unfold rg; cbn [ast]
     end;
     rewrite m_lit_step, (chr_mem_known _ _ _ H1); eval_eqb; cbv iota;
     rewrite m_lit_step, (chr_mem_known _ _ _ H2); eval_eqb; cbv iota;
     rewrite m_lit_step, (chr_mem_known _ _ _ H3); eval_eqb; cbv iota;
     exact Hrun|]).
  by apply elem_of_nil in Habbr.
Qed.
End FallbackFacts.

(** X16.  The fallback extractor [_extractAbilityScores] always returns
    the six abilities and nothing else.  The score of an ability is 10
    when its pattern matches no line; otherwise it is read from the last
    line its pattern matches, and is the number that the digits of the
    group of that match denote.  When that line starts with the
    abbreviation, in any case, followed by white space with at most one
    colon in it and by digits, the score is the number those digits
    denote. *)
Theorem fallback_scores_are_complete (lines : list string) :
  dom (contentParser._extractAbilityScores lines) = list_to_set abilityNames
  ∧ (∀ a r, (a, r) ∈ Abilities.fallback_table →
       Forall (λ l, Regex.exec r l = None) lines →
       contentParser._extractAbilityScores lines !! a = Some 10%float)
  ∧ (∀ a r pre l post mt,
       (a, r) ∈ Abilities.fallback_table →
       lines = pre ++ l :: post →
       Regex.exec r l = Some mt →
       Forall (λ l', Regex.exec r l' = None) post →
       ∃ dg, AbilityGroups.digits dg
             ∧ Regex.group mt 1 = Some (JsString.of_chars dg)
             ∧ contentParser._extractAbilityScores lines !! a
               = Some (Scalars.number_of dg))
  ∧ (∀ r pre post c1 c2 c3 sep dg tail,
       (Char.to_upper c1, Char.to_upper c2, Char.to_upper c3)
         ∈ AbilityShape.abbreviations →
       (AbilityGroups.key c1 c2 c3, r) ∈ Abilities.fallback_table →
       lines = pre ++ Fallback.scored c1 c2 c3 sep dg tail :: post →
       Fallback.separator sep → AbilityGroups.digits dg →
       MatchShape.stops Char.is_digit tail →
       Forall (λ l', Regex.exec r l' = None) post →
       contentParser._extractAbilityScores lines !! AbilityGroups.key c1 c2 c3
       = Some (Scalars.number_of dg)).
Proof.
  assert (Hlast : ∀ a r pre l post mt,
       (a, r) ∈ Abilities.fallback_table →
       lines = pre ++ l :: post →
       Regex.exec r l = Some mt →
       Forall (λ l', Regex.exec r l' = None) post →
       ∃ dg, AbilityGroups.digits dg
             ∧ Regex.group mt 1 = Some (JsString.of_chars dg)
             ∧ contentParser._extractAbilityScores lines !! a
               = Some (Scalars.number_of dg)).
  { intros a r pre l post mt Hr -> Hex Hpost.
    destruct (FallbackFacts.exec_digits r l mt 1 (FallbackFacts.table_digits a r Hr) Hex)
      as (dg & Hdg & Hg).
    exists dg. split; [done|]. split; [done|].
    rewrite (FallbackFacts.fallback_last a r pre l post mt Hr Hex Hpost), Hg.
    by rewrite ScalarFacts.parseInt_run. }
  split; [|split; [|split; [exact Hlast|]]].
  - clear Hlast. unfold contentParser._extractAbilityScores.
    set (init := list_to_map _).
    assert (Hinit : dom init = list_to_set abilityNames).
    { subst init. rewrite dom_list_to_map_L. reflexivity. }
    clearbody init. revert init Hinit.
    induction lines as [|line lines IH]; intros m Hd; [done|].
    cbn [fold_left]. apply IH.
    destruct (Regex.test contentParser.regex.anyAbility line); [|done].
    repeat (apply CaptureFacts.set_score_dom;
            [apply elem_of_list_to_set, list_elem_of_In; vm_compute; tauto|]).
    exact Hd.
  - intros a r Hr Hl. unfold contentParser._extractAbilityScores.
    rewrite (AbilitiesFacts.fallback_keeps_default a r lines _ Hr Hl).
    unfold Abilities.fallback_table in Hr.
    repeat (apply elem_of_cons in Hr as [[= -> ->]|Hr]; [by vm_compute|]).
    by apply elem_of_nil in Hr.
  - intros r pre post c1 c2 c3 sep dg tail Habbr Hr Hlines Hsep Hdg Ht Hpost.
    destruct (FallbackFacts.scored_exec c1 c2 c3 r sep dg tail Habbr Hr Hsep Hdg Ht)
      as (mt & Hex & Hg).
    destruct (Hlast _ r pre _ post mt Hr Hlines Hex Hpost) as (dg' & _ & Hg' & ->).
    rewrite Hg in Hg'. injection Hg' as Hg'.
    apply (f_equal JsString.chars) in Hg'. rewrite !MatchFacts.chars_of_chars in Hg'.
    by subst dg'.
Qed.

Lemma fallback_scores_are_complete_witness :
  contentParser._extractAbilityScores ["Goblin"; "STR: 15 DEX 12"; "str 8 or so"] !! "str"
  = Some 8%float.
Proof.
  destruct (fallback_scores_are_complete ["Goblin"; "STR: 15 DEX 12"; "str 8 or so"])
    as (_ & _ & _ & H).
  apply (H contentParser.regex.str ["Goblin"; "STR: 15 DEX 12"] []
           "s"%char "t"%char "r"%char (JsString.chars " ") (JsString.chars "8")
           (JsString.chars " or so")).
  - apply list_elem_of_here.
  - apply list_elem_of_here.
  - reflexivity.
  - left. repeat (apply Forall_cons_2; [reflexivity|]). apply Forall_nil_2.
  - apply conj; [discriminate|].
    repeat (apply Forall_cons_2; [reflexivity|]). apply Forall_nil_2.
  - reflexivity.
  - apply Forall_nil_2.
Defined.
